(** * zetapy: the ZETA responsiveness test (dependencies.py)

    A shallow embedding of [calcZetaOne], [getZetaP], [getGumbel],
    [getTempOffsetOne], [getSpikeT], [getPseudoSpikeVectors], [findfirst]
    and [flatten].

    Numbers.  The Python code computes on binary64 values.  The pipeline
    (windowing, stitching, deviation curves, empirical quantiles) is embedded
    over the rationals [Q], i.e. in exact arithmetic, and every definition
    runs.  Where the code distinguishes non-finite values (the observed
    maximum handed to [getZetaP], the p-values and z-scores it returns) the
    type [dbl] adds the two infinities and NaN to the rationals.  The
    closed-form Gumbel fit needs [exp], [sqrt] and [pi]; [getGumbel] is
    written once over an interface of numeric operations and read at [dbl]
    (inside the pipeline) and at the real numbers (for the analytic facts).
    Where rounding decides what the code returns, namely in the offsets that
    [getTempOffsetOne] adds to identical spike times, the code is embedded a
    second time over the binary64 numbers themselves (module [Binary64]).

    Exceptions.  A Python exception is a value of [py]: every operation of
    the code that can raise (indexing, reductions of empty arrays, the
    explicit [raise]) is embedded with its raising case. *)

From Stdlib Require Import Reals.
From Stdlib Require Import QArith Qabs Qminmax.
From Stdlib Require Import List Bool Arith ZArith Lia Lra Lqa Permutation Sorted.
From Stdlib Require PrimFloat Uint63.
Import ListNotations.

Local Open Scope Q_scope.

(* ================================================================== *)
(** * Python values and exceptions *)
(* ================================================================== *)

(** The exceptions that the embedded code can raise:
    [InputShapeError] is the [raise Exception("Input error: ...")] of
    [calcZetaOne]; the others are raised by Python and numpy themselves. *)
Inductive exn : Type :=
| InputShapeError
| AssertionError
| IndexError
| ZeroDivisionError
| ValueError.

Inductive py (A : Type) : Type :=
| Ret (a : A)
| Raise (e : exn).

Arguments Ret {A} a.
Arguments Raise {A} e.

Definition bind {A B : Type} (c : py A) (k : A -> py B) : py B :=
  match c with
  | Ret a => k a
  | Raise e => Raise e
  end.

Notation "x <- c ;; k" := (bind c (fun x => k))
  (at level 61, c at next level, right associativity).
Notation "' pat <- c ;; k" := (bind c (fun x => match x with pat => k end))
  (at level 61, pat pattern, c at next level, right associativity).

Definition returns {A : Type} (c : py A) : Prop := exists a, c = Ret a.

(** A binary64 value as far as the code tells them apart: a finite number,
    an infinity, or NaN. *)
Inductive dbl : Type :=
| Num (q : Q)
| PInf
| NInf
| NaN.

(** [d < q], [d > q], [np.isnan(d)], [np.isinf(d)]: a comparison with NaN
    is false. *)
Definition Qltb (x y : Q) : bool := negb (Qle_bool y x).

Definition dbl_ltb (d : dbl) (q : Q) : bool :=
  match d with
  | Num a => Qltb a q
  | NInf => true
  | PInf | NaN => false
  end.

Definition dbl_gtb (d : dbl) (q : Q) : bool :=
  match d with
  | Num a => Qltb q a
  | PInf => true
  | NInf | NaN => false
  end.

Definition np_isnan (d : dbl) : bool :=
  match d with NaN => true | _ => false end.

Definition np_isinf (d : dbl) : bool :=
  match d with PInf | NInf => true | _ => false end.

(** A function result that numpy hands back either as a scalar or as an
    array ([if arrZetaP.size == 1: arrZetaP = arrZetaP[0]]). *)
Inductive pyval : Type :=
| Scalar (d : dbl)
| Array (l : list dbl).

Definition unwrap_single (l : list dbl) : pyval :=
  match l with
  | [d] => Scalar d
  | _ => Array l
  end.

(* ================================================================== *)
(** * numpy on one-dimensional arrays of finite numbers *)
(* ================================================================== *)

Definition inject_nat (n : nat) : Q := inject_Z (Z.of_nat n).

Definition Qsum (l : list Q) : Q := fold_right Qplus 0 l.

(** [np.mean]: the sum over the count. *)
Definition np_mean (l : list Q) : Q := Qsum l / inject_nat (length l).

(** [np.min], [np.max] (and Python's [max] on a sequence): a reduction of
    an empty array raises [ValueError]. *)
Definition np_min (l : list Q) : py Q :=
  match l with
  | [] => Raise ValueError
  | x :: l' => Ret (fold_left Qmin l' x)
  end.

Definition np_max (l : list Q) : py Q :=
  match l with
  | [] => Raise ValueError
  | x :: l' => Ret (fold_left Qmax l' x)
  end.

(** [np.sort]: a stable insertion sort on a key. *)
Fixpoint insert_by {A : Type} (key : A -> Q) (x : A) (l : list A) : list A :=
  match l with
  | [] => [x]
  | y :: l' => if Qle_bool (key x) (key y) then x :: l else y :: insert_by key x l'
  end.

Definition sort_by {A : Type} (key : A -> Q) (l : list A) : list A :=
  fold_right (insert_by key) [] l.

Definition np_sort (l : list Q) : list Q := sort_by (fun x => x) l.

(** [np.unique(a, return_index=True)]: a stable argsort, then the mask
    [aux[1:] != aux[:-1]] with the first entry kept; the index of a value is
    the index of its first occurrence in [a]. *)
Fixpoint uniq_from (prev : Q) (l : list (Q * nat)) : list (Q * nat) :=
  match l with
  | [] => []
  | (v, i) :: l' =>
      if Qeq_bool prev v then uniq_from v l' else (v, i) :: uniq_from v l'
  end.

Definition uniq_first (l : list (Q * nat)) : list (Q * nat) :=
  match l with
  | [] => []
  | (v, i) :: l' => (v, i) :: uniq_from v l'
  end.

Definition np_unique_index (l : list Q) : list Q * list nat :=
  let aux := uniq_first (sort_by fst (combine l (seq 0 (length l)))) in
  (map fst aux, map snd aux).

Definition np_unique (l : list Q) : list Q := fst (np_unique_index l).

(** [np.arange(a, b)] on indices, and [np.arange(0, n) + 1] as numbers. *)
Definition np_arange (a b : nat) : list nat := seq a (b - a).

Definition arange_plus1 (n : nat) : list Q :=
  map (fun i => inject_nat i + 1) (np_arange 0 n).

(** [np.interp(x, xp, fp)] for a finite [x] and increasing [xp]: [fp[0]]
    left of the sample points, [fp[-1]] right of them, [fp[j]] at a sample
    point, and [slope * (x - xp[j]) + fp[j]] on the segment
    [xp[j] <= x < xp[j+1]]. *)
Fixpoint interp_from (x : Q) (xp fp : list Q) : Q :=
  match xp, fp with
  | x0 :: ((x1 :: _) as xp'), f0 :: ((f1 :: _) as fp') =>
      if Qltb x x1
      then if Qeq_bool x0 x then f0
           else ((f1 - f0) / (x1 - x0)) * (x - x0) + f0
      else interp_from x xp' fp'
  | _, f0 :: _ => f0
  | _, [] => 0
  end.

Definition np_interp (x : Q) (xp fp : list Q) : py Q :=
  match xp, fp with
  | [], _ => Raise ValueError
  | x0 :: _, f0 :: _ =>
      if negb (Nat.eqb (length xp) (length fp)) then Raise ValueError
      else if Qltb x x0 then Ret f0
      else Ret (interp_from x xp fp)
  | _ :: _, [] => Raise ValueError
  end.

(** [np.interp] at a binary64 abscissa: NaN propagates, the infinities
    fall left and right of the sample points. *)
Definition np_interp_dbl (d : dbl) (xp fp : list Q) : py dbl :=
  match d with
  | Num x => r <- np_interp x xp fp ;; Ret (Num r)
  | NaN => _ <- np_interp 0 xp fp ;; Ret NaN
  | NInf => r <- np_interp 0 xp fp ;; Ret (Num (hd r fp))
  | PInf => r <- np_interp 0 xp fp ;; Ret (Num (last fp r))
  end.

(** [np.mean] and [np.var] as [getZetaP] calls them: on an empty array both
    are NaN (with a warning), never an exception. *)
Definition np_mean_dbl (l : list Q) : dbl :=
  match l with
  | [] => NaN
  | _ => Num (np_mean l)
  end.

Definition np_var_dbl (l : list Q) : dbl :=
  match l with
  | [] => NaN
  | _ => let m := np_mean l in Num (np_mean (map (fun x => (x - m) * (x - m)) l))
  end.

(* ================================================================== *)
(** * Arithmetic on [dbl] *)
(* ================================================================== *)

Definition Qsign (q : Q) : comparison := q ?= 0.

Definition dneg (a : dbl) : dbl :=
  match a with
  | Num x => Num (- x)
  | PInf => NInf
  | NInf => PInf
  | NaN => NaN
  end.

Definition dsub (a b : dbl) : dbl :=
  match a, b with
  | NaN, _ | _, NaN => NaN
  | Num x, Num y => Num (x - y)
  | PInf, PInf | NInf, NInf => NaN
  | PInf, _ | _, NInf => PInf
  | NInf, _ | _, PInf => NInf
  end.

Definition signed_inf (c : comparison) : dbl :=
  match c with
  | Gt => PInf
  | Lt => NInf
  | Eq => NaN
  end.

Definition dsign (a : dbl) : comparison :=
  match a with
  | Num x => Qsign x
  | PInf => Gt
  | NInf => Lt
  | NaN => Eq
  end.

Definition dmul (a b : dbl) : dbl :=
  match a, b with
  | NaN, _ | _, NaN => NaN
  | Num x, Num y => Num (x * y)
  | _, _ =>
      match dsign a, dsign b with
      | Eq, _ | _, Eq => NaN
      | Gt, Gt | Lt, Lt => PInf
      | _, _ => NInf
      end
  end.

(** Division as numpy performs it: a finite number over zero is an infinity
    with the sign of the numerator, zero over zero is NaN; neither raises. *)
Definition ddiv (a b : dbl) : dbl :=
  match a, b with
  | NaN, _ | _, NaN => NaN
  | Num x, Num y =>
      if Qeq_bool y 0 then signed_inf (Qsign x) else Num (x / y)
  | Num _, _ => Num 0
  | _, Num y =>
      match dsign a, Qsign y with
      | Gt, Lt | Lt, Gt => NInf
      | _, _ => PInf
      end
  | _, _ => NaN
  end.

(* ================================================================== *)
(** * getGumbel *)
(* ================================================================== *)

(** The numeric operations [getGumbel] uses: literals, [-], [*], [/],
    [math.sqrt], [math.exp]/[np.exp], [math.pi], [scipy.stats.norm.ppf] and
    [np.isinf]. *)
Record NumOps (A : Type) : Type := mkNumOps {
  lit : Q -> A;
  sub : A -> A -> A;
  mul : A -> A -> A;
  div : A -> A -> A;
  neg : A -> A;
  f_exp : A -> A;
  f_sqrt : A -> A;
  f_pi : A;
  norm_ppf : A -> A;
  isinf : A -> bool
}.

Arguments lit {A} _ _.
Arguments sub {A} _ _ _.
Arguments mul {A} _ _ _.
Arguments div {A} _ _ _.
Arguments neg {A} _ _.
Arguments f_exp {A} _ _.
Arguments f_sqrt {A} _ _.
Arguments f_pi {A} _.
Arguments norm_ppf {A} _ _.
Arguments isinf {A} _ _.

Definition dblEulerMascheroni : Q :=
  5772156649015328606065120900824 # 10000000000000000000000000000000.

Section Gumbel.

Context {A : Type} (ops : NumOps A).

(** [dblBeta = (sqrt(6)*sqrt(dblV))/(pi)] *)
Definition dblBeta (dblV : A) : A :=
  div ops (mul ops (f_sqrt ops (lit ops 6)) (f_sqrt ops dblV)) (f_pi ops).

(** [dblMode = dblE - dblBeta*dblEulerMascheroni] *)
Definition dblMode (dblE dblV : A) : A :=
  sub ops dblE (mul ops (dblBeta dblV) (lit ops dblEulerMascheroni)).

(** [fGumbelCDF(x) = np.exp(-np.exp(-((x-dblMode) / dblBeta)))] *)
Definition fGumbelCDF (dblE dblV x : A) : A :=
  f_exp ops (neg ops (f_exp ops (neg ops
    (div ops (sub ops x (dblMode dblE dblV)) (dblBeta dblV))))).

(** [arrP = 1-arrGumbelCDF], one entry. *)
Definition gumbel_p (dblE dblV x : A) : A :=
  sub ops (lit ops 1) (fGumbelCDF dblE dblV x).

(** [-stats.norm.ppf(p/2)] *)
Definition gumbel_z (p : A) : A :=
  neg ops (norm_ppf ops (div ops p (lit ops 2))).

(** The value stored by the branch for large X:
    [arrP[i] = exp(dblMode-arrX[i] / dblBeta)].  Division binds tighter
    than subtraction.  This [exp] is [math.exp], which raises OverflowError
    where its result leaves the binary64 range (an argument above about
    709.78); [f_exp] is total, so that the embedding describes the runs of
    [getGumbel] in which this call returns. *)
Definition gumbel_tail_p (dblE dblV x : A) : A :=
  f_exp ops (sub ops (dblMode dblE dblV) (div ops x (dblBeta dblV))).

(** [for i, dblZ in enumerate(arrZ): if np.isinf(dblZ): ...] *)
Fixpoint tail_loop (dblE dblV : A) (arrX arrP arrZ : list A) : list A * list A :=
  match arrX, arrP, arrZ with
  | x :: arrX', p :: arrP', z :: arrZ' =>
      let '(P, Z) := tail_loop dblE dblV arrX' arrP' arrZ' in
      if isinf ops z
      then let p' := gumbel_tail_p dblE dblV x in (p' :: P, gumbel_z p' :: Z)
      else (p :: P, z :: Z)
  | _, _, _ => ([], [])
  end.

Definition getGumbel (dblE dblV : A) (arrX : list A) : list A * list A :=
  let arrGumbelCDF := map (fGumbelCDF dblE dblV) arrX in
  let arrP := map (sub ops (lit ops 1)) arrGumbelCDF in
  let arrZ := map gumbel_z arrP in
  tail_loop dblE dblV arrX arrP arrZ.

End Gumbel.

(** The operations over the real numbers: exact arithmetic, the real [exp],
    [sqrt] and [PI].  No real number is infinite, so the test [np.isinf] on
    a z-score, which in binary64 fires when the p-value has been rounded to
    zero, is a parameter here, as is the quantile function of the normal
    distribution. *)
Definition RealOps (ppf : R -> R) (saturated : R -> bool) : NumOps R :=
  mkNumOps R Q2R Rminus Rmult Rdiv Ropp exp sqrt PI ppf saturated.

(* ================================================================== *)
(** * getZetaP *)
(* ================================================================== *)

Section Significance.

(** [np.exp]/[math.exp], [math.sqrt], [math.pi] and [scipy.stats.norm.ppf]
    on binary64 values: library functions, not code of the repository. *)
Variables (ext_exp ext_sqrt ext_ppf : dbl -> dbl) (ext_pi : dbl).

Definition DblOps : NumOps dbl :=
  mkNumOps dbl Num dsub dmul ddiv dneg ext_exp ext_sqrt ext_pi ext_ppf np_isinf.

(** The body of [for i, d in enumerate(arrMaxD)] up to [dblValue]. *)
Definition quantile_value (d : dbl) (vecMaxRandD : list Q) : py dbl :=
  lo <- np_min vecMaxRandD ;;
  if dbl_ltb d lo || np_isnan d then Ret (Num 0)
  else
    hi <- np_max vecMaxRandD ;;
    if dbl_gtb d hi || np_isinf d then Ret (Num (inject_nat (length vecMaxRandD)))
    else np_interp_dbl d vecMaxRandD (arange_plus1 (length vecMaxRandD)).

(** [arrZetaP[i] = 1 - (dblValue/(1+vecMaxRandD.size))] *)
Definition quantile_p (d : dbl) (vecMaxRandD : list Q) : py dbl :=
  dblValue <- quantile_value d vecMaxRandD ;;
  Ret (dsub (Num 1) (ddiv dblValue (Num (1 + inject_nat (length vecMaxRandD))))).

Fixpoint mapM {X Y : Type} (f : X -> py Y) (l : list X) : py (list Y) :=
  match l with
  | [] => Ret []
  | x :: l' => y <- f x ;; ys <- mapM f l' ;; Ret (y :: ys)
  end.

Definition as_array (v : pyval) : list dbl :=
  match v with
  | Scalar d => [d]
  | Array l => l
  end.

Definition getZetaP (arrMaxD : pyval) (vecMaxRandD : list Q)
    (boolDirectQuantile : bool) : py (pyval * pyval) :=
  let vecMaxRandD := np_sort (np_unique vecMaxRandD) in
  let arrMaxD := as_array arrMaxD in
  '(arrZetaP, arrZETA) <-
    (if boolDirectQuantile then
       arrZetaP <- mapM (fun d => quantile_p d vecMaxRandD) arrMaxD ;;
       Ret (arrZetaP, map (gumbel_z DblOps) arrZetaP)
     else
       Ret (getGumbel DblOps (np_mean_dbl vecMaxRandD) (np_var_dbl vecMaxRandD) arrMaxD)) ;;
  Ret (unwrap_single arrZetaP, unwrap_single arrZETA).

End Significance.

(* ================================================================== *)
(** * Indexing *)
(* ================================================================== *)

(** [a[i]] for an index in range; out of range raises [IndexError]. *)
Definition getitem {A : Type} (l : list A) (i : nat) : py A :=
  match nth_error l i with
  | Some a => Ret a
  | None => Raise IndexError
  end.

(** [a[-1]] *)
Definition getlast {A : Type} (l : list A) : py A :=
  match l with
  | [] => Raise IndexError
  | _ => getitem l (length l - 1)
  end.

(** [a[idx]] for an integer index array. *)
Fixpoint take_idx {A : Type} (l : list A) (idx : list nat) : py (list A) :=
  match idx with
  | [] => Ret []
  | i :: idx' => a <- getitem l i ;; r <- take_idx l idx' ;; Ret (a :: r)
  end.

(** [a[mask]] for a boolean mask: the shapes must agree. *)
Fixpoint mask_select {A : Type} (l : list A) (mask : list bool) : py (list A) :=
  match l, mask with
  | [], [] => Ret []
  | a :: l', b :: mask' =>
      r <- mask_select l' mask' ;; Ret (if b then a :: r else r)
  | _, _ => Raise IndexError
  end.

(** [findfirst]: [np.where(indArray)[0][0]], or [None]. *)
Fixpoint findfirst (indArray : list bool) : option nat :=
  match indArray with
  | [] => None
  | b :: rest => if b then Some 0%nat else option_map S (findfirst rest)
  end.

(** [flatten] on the list of per-trial arrays. *)
Definition flatten (l : list (list Q)) : list Q := concat l.

(** [np.linspace(a, b, num)] *)
Definition np_linspace (a b : Q) (num : nat) : list Q :=
  match num with
  | 0%nat => []
  | 1%nat => [a]
  | _ => map (fun i => a + inject_nat i * ((b - a) / inject_nat (num - 1)))
             (seq 0 num)
  end.

(** Elementwise [-] and [+] of two arrays of one length. *)
Definition vsub (a b : list Q) : list Q :=
  map (fun p => fst p - snd p) (combine a b).

Definition vadd (a b : list Q) : list Q :=
  map (fun p => fst p + snd p) (combine a b).

(** [a - np.mean(a)] *)
Definition center (a : list Q) : list Q :=
  let m := np_mean a in map (fun x => x - m) a.

(** [np.argmax]: the first index of the largest entry. *)
Fixpoint argmax_from (best : Q) (ibest i : nat) (l : list Q) : nat :=
  match l with
  | [] => ibest
  | x :: l' =>
      if Qltb best x then argmax_from x i (S i) l'
      else argmax_from best ibest (S i) l'
  end.

Definition np_argmax (l : list Q) : py nat :=
  match l with
  | [] => Raise ValueError
  | x :: l' => Ret (argmax_from x 0%nat 1%nat l')
  end.

(* ================================================================== *)
(** * getSpikeT *)
(* ================================================================== *)

(** The spikes of one trial, relative to its start:
    [vecSpikeTimes[(vecSpikeTimes < dblStopT) & (vecSpikeTimes > dblStartT)] - dblStartT] *)
Definition trial_spikes (vecSpikeTimes : list Q) (dblUseMaxDur dblStartT : Q) : list Q :=
  let dblStopT := dblStartT + dblUseMaxDur in
  map (fun s => s - dblStartT)
      (filter (fun s => Qltb s dblStopT && Qltb dblStartT s) vecSpikeTimes).

(** The pre-allocated array [vecSpikesInTrial]: the entries assigned so far
    (the slots [0 .. intIdx-1]) and the allocated size.  The slots beyond
    [intIdx] hold NaN or copies made by [np.resize] and are cut off by
    [vecSpikesInTrial[:intIdx]]. *)
Record buffer : Type := mkBuffer {
  buf_data : list Q;
  buf_size : nat
}.

(** One iteration of [for dblStartT in vecEventTimes]: the array is doubled
    once when the last index to assign is out of range, and the assignment
    raises when an index is still out of range. *)
Definition assign_trial (b : buffer) (vecTempSpikes : list Q) : py buffer :=
  let intIdx := length (buf_data b) in
  let intTempSpikeNr := length vecTempSpikes in
  let size :=
    if (0 <? intTempSpikeNr)%nat && (buf_size b <=? intIdx + intTempSpikeNr - 1)%nat
    then (buf_size b * 2)%nat else buf_size b in
  if (intIdx + intTempSpikeNr <=? size)%nat
  then Ret (mkBuffer (buf_data b ++ vecTempSpikes) size)
  else Raise IndexError.

Fixpoint spike_loop (vecSpikeTimes : list Q) (dblUseMaxDur : Q)
    (vecEventTimes : list Q) (b : buffer) : py buffer :=
  match vecEventTimes with
  | [] => Ret b
  | dblStartT :: rest =>
      b' <- assign_trial b (trial_spikes vecSpikeTimes dblUseMaxDur dblStartT) ;;
      spike_loop vecSpikeTimes dblUseMaxDur rest b'
  end.

Definition getSpikeT (vecSpikeTimes vecEventTimes : list Q) (dblUseMaxDur : Q)
    : py (list Q) :=
  b <- spike_loop vecSpikeTimes dblUseMaxDur vecEventTimes
         (mkBuffer [] (length vecSpikeTimes * 2)) ;;
  Ret ([0] ++ np_sort (buf_data b) ++ [dblUseMaxDur]).

(* ================================================================== *)
(** * getTempOffsetOne *)
(* ================================================================== *)

(** [np.finfo(np.float64).eps] = 2^-52 *)
Definition dblUniqueOffset : Q := 1 # 4503599627370496.

(** [np.diff(vecIdx) > 1] on integer indices. *)
Fixpoint diff_gt1 (vecIdx : list nat) : list bool :=
  match vecIdx with
  | a :: ((b :: _) as rest) => (1 <? Z.of_nat b - Z.of_nat a)%Z :: diff_gt1 rest
  | _ => []
  end.

(** The masked update
    [v[indIdx] = v[indIdx] + dblUniqueOffset*(np.arange(k) - k/2 - 1)]
    with [indIdx = dblNotUnique == v] and [k = sum(indIdx)]: the [j]-th
    entry equal to [dblNotUnique] receives the [j]-th offset.  The sum is
    exact here; [Binary64.jitter_masked] is the same update with the sum
    rounded to binary64, where the offset is lost for large spike times. *)
Fixpoint jitter_masked (k j : nat) (dblNotUnique : Q) (v : list Q) : list Q :=
  match v with
  | [] => []
  | a :: v' =>
      if Qeq_bool dblNotUnique a
      then (a + dblUniqueOffset * (inject_nat j - inject_nat k / 2 - 1))
             :: jitter_masked k (S j) dblNotUnique v'
      else a :: jitter_masked k j dblNotUnique v'
  end.

Definition jitter_group (v : list Q) (dblNotUnique : Q) : list Q :=
  let k := length (filter (Qeq_bool dblNotUnique) v) in
  jitter_masked k 0 dblNotUnique v.

(** The four arrays [getTempOffsetOne] returns. *)
Record offsets : Type := mkOffsets {
  vecThisDeviation : list Q;
  vecThisSpikeFracs : list Q;
  vecThisFracLinear : list Q;
  vecThisSpikeTimes : list Q
}.

(** The first part of [getTempOffsetOne]: the unique spike times after the
    identical spikes have been moved apart. *)
Definition unique_spike_times (vecSpikesInTrial : list Q) : py (list Q) :=
  let '(vecThisSpikeTimes, vecIdx) := np_unique_index vecSpikesInTrial in
  let indDuplicates := diff_gt1 vecIdx ++ [false] in
  idx <- mask_select vecIdx indDuplicates ;;
  vecNotUnique <- take_idx vecSpikesInTrial idx ;;
  match vecNotUnique with
  | [] => Ret vecThisSpikeTimes
  | _ => Ret (np_unique (fold_left jitter_group vecNotUnique vecSpikesInTrial))
  end.

Definition getTempOffsetOne (vecSpikeTimes vecEventTimes : list Q)
    (dblUseMaxDur : Q) : py offsets :=
  vecSpikesInTrial <- getSpikeT vecSpikeTimes vecEventTimes dblUseMaxDur ;;
  vecThisSpikeTimes <- unique_spike_times vecSpikesInTrial ;;
  let n := length vecThisSpikeTimes in
  (* 1/vecThisSpikeTimes.size divides Python integers *)
  if (n =? 0)%nat then Raise ZeroDivisionError else
  let vecThisSpikeFracs := np_linspace (1 / inject_nat n) 1 n in
  let vecThisFracLinear := map (fun t => t / dblUseMaxDur) vecThisSpikeTimes in
  let vecThisDeviation := vsub vecThisSpikeFracs vecThisFracLinear in
  let vecThisDeviation := center vecThisDeviation in
  Ret (mkOffsets vecThisDeviation vecThisSpikeFracs vecThisFracLinear vecThisSpikeTimes).

(* ================================================================== *)
(** * getPseudoSpikeVectors *)
(* ================================================================== *)

(** [vecUseSamples]: either [np.empty(0)], an empty array of floats, or an
    array of integer sample indices.  numpy refuses an array of floats as an
    index, empty or not. *)
Inductive samples : Type :=
| FloatEmpty
| Ints (l : list nat).

Definition samples_list (u : samples) : list nat :=
  match u with
  | FloatEmpty => []
  | Ints l => l
  end.

Definition samples_size (u : samples) : nat := length (samples_list u).

(** [vecSpikeTimes[vecUseSamples]] *)
Definition index_samples (vecSpikeTimes : list Q) (u : samples) : py (list Q) :=
  match u with
  | FloatEmpty => Raise IndexError
  | Ints l => take_idx vecSpikeTimes l
  end.

(** [vecUseSamples[~indOverlap]] with [indOverlap = vecUseSamples <= intLastUsedSample] *)
Definition drop_overlap (u : samples) (intLastUsedSample : nat) : samples :=
  match u with
  | FloatEmpty => FloatEmpty
  | Ints l => Ints (filter (fun i => negb (i <=? intLastUsedSample)%nat) l)
  end.

(** The variables the loop over the trials carries. *)
Record stitch : Type := mkStitch {
  cellPseudoSpikeT : list (list Q);
  vecPseudoEventT : list Q;
  dblPseudoEventT : Q;
  intLastUsedSample : nat;
  intFirstSample : option nat;
  dblPseudoT0 : Q
}.

Definition eligible_samples (vecSpikeTimes : list Q) (dblEventT dblWindowDur : Q)
    : samples :=
  let intSamples := length vecSpikeTimes in
  let intStartSample := findfirst (map (fun s => Qle_bool dblEventT s) vecSpikeTimes) in
  let intEndSample :=
    findfirst (map (fun s => Qltb (dblEventT + dblWindowDur) s) vecSpikeTimes) in
  let '(intStartSample, intEndSample) :=
    match intStartSample, intEndSample with
    | Some s, Some e => if (e <? s)%nat then (None, None) else (Some s, Some e)
    | _, _ => (intStartSample, intEndSample)
    end in
  let intEndSample :=
    match intEndSample with
    | None => intStartSample
    | Some e => Some e
    end in
  match intStartSample, intEndSample with
  | Some s, Some e =>
      Ints (filter (fun i => (i <? intSamples)%nat) (np_arange s (e + 1)))
  | _, _ => FloatEmpty
  end.

(** One iteration of [for intTrial, dblEventT in enumerate(vecEventTimes)]. *)
Definition stitch_trial (vecSpikeTimes vecEventTimes : list Q) (dblWindowDur : Q)
    (boolDiscardEdges : bool) (intTrial : nat) (dblEventT : Q) (st : stitch)
    : py stitch :=
  let intSamples := length vecSpikeTimes in
  let intTrials := length vecEventTimes in
  let vecUseSamples := eligible_samples vecSpikeTimes dblEventT dblWindowDur in
  (* check if beginning or end *)
  let vecUseSamples :=
    match samples_list vecUseSamples with
    | [] => vecUseSamples
    | (u0 :: _) as us =>
        if (intTrial =? 0)%nat && negb boolDiscardEdges
        then Ints (np_arange 0 (last us 0%nat + 1))
        else if (intTrial =? intTrials - 1)%nat && negb boolDiscardEdges
        then Ints (np_arange u0 intSamples)
        else vecUseSamples
    end in
  (* add spikes *)
  vecAddT <- index_samples vecSpikeTimes vecUseSamples ;;
  (* get event t *)
  '(vecUseSamples, vecAddT, dblPseudoEventT) <-
    (if (intTrial =? 0)%nat then Ret (vecUseSamples, vecAddT, 0)
     else
       dblPrev <- getitem vecEventTimes (intTrial - 1) ;;
       if Qltb (dblEventT - dblPrev) dblWindowDur
       then
         let vecUseSamples := drop_overlap vecUseSamples (intLastUsedSample st) in
         vecAddT <- index_samples vecSpikeTimes vecUseSamples ;;
         Ret (vecUseSamples, vecAddT, dblPseudoEventT st + dblEventT - dblPrev)
       else Ret (vecUseSamples, vecAddT, dblPseudoEventT st + dblWindowDur)) ;;
  (* make local pseudo event time *)
  let '(intLastUsedSample, vecLocalPseudoT) :=
    match samples_list vecUseSamples with
    | [] => (intLastUsedSample st, [])
    | (_ :: _) as us =>
        (last us 0%nat, map (fun t => t - dblEventT + dblPseudoEventT) vecAddT)
    end in
  let '(intFirstSample, dblPseudoT0) :=
    match intFirstSample st, samples_list vecUseSamples with
    | None, u0 :: _ => (Some u0, dblPseudoEventT)
    | _, _ => (intFirstSample st, dblPseudoT0 st)
    end in
  Ret (mkStitch (cellPseudoSpikeT st ++ [vecLocalPseudoT])
                (vecPseudoEventT st ++ [dblPseudoEventT])
                dblPseudoEventT intLastUsedSample intFirstSample dblPseudoT0).

Fixpoint stitch_loop (vecSpikeTimes vecEventTimes : list Q) (dblWindowDur : Q)
    (boolDiscardEdges : bool) (intTrial : nat) (todo : list Q) (st : stitch)
    : py stitch :=
  match todo with
  | [] => Ret st
  | dblEventT :: rest =>
      st' <- stitch_trial vecSpikeTimes vecEventTimes dblWindowDur
               boolDiscardEdges intTrial dblEventT st ;;
      stitch_loop vecSpikeTimes vecEventTimes dblWindowDur boolDiscardEdges
                  (S intTrial) rest st'
  end.

(** [np.ptp]: maximum minus minimum. *)
Definition np_ptp (l : list Q) : py Q :=
  hi <- np_max l ;; lo <- np_min l ;; Ret (hi - lo).

(** The spikes before the first used sample ([# %% add beginning]). *)
Definition add_beginning (vecSpikeTimes : list Q) (boolDiscardEdges : bool)
    (st : stitch) : py (list (list Q)) :=
  match intFirstSample st with
  | Some intFirst =>
      if negb boolDiscardEdges && (0 <? intFirst)%nat then
        a <- getitem vecSpikeTimes intFirst ;;
        b <- getitem vecSpikeTimes (intFirst - 1) ;;
        let dblStepBegin := a - b in
        let vecSampAddBeginning := np_arange 0 intFirst in
        vecT <- take_idx vecSpikeTimes vecSampAddBeginning ;;
        i0 <- getitem vecSampAddBeginning 0 ;;
        t0 <- getitem vecSpikeTimes i0 ;;
        ptp <- np_ptp vecT ;;
        Ret (cellPseudoSpikeT st ++
             [map (fun t => t - t0 + dblPseudoT0 st - dblStepBegin - ptp) vecT])
      else Ret (cellPseudoSpikeT st)
  | None => Ret (cellPseudoSpikeT st)
  end.

(** The spikes after the window of the last event ([# %% add end]);
    [dblEventT] is the loop variable after the loop, the last event. *)
Definition add_end (vecSpikeTimes vecEventTimes : list Q) (dblWindowDur : Q)
    (boolDiscardEdges : bool) (st : stitch) (cell : list (list Q))
    : py (list (list Q)) :=
  let intTn := length vecSpikeTimes in
  dblEventT <- getlast vecEventTimes ;;
  match findfirst (map (fun s => Qltb (dblEventT + dblWindowDur) s) vecSpikeTimes) with
  | Some intLastUsedSample =>
      if negb boolDiscardEdges && (intLastUsedSample <? intTn - 1)%nat then
        vecT <- take_idx vecSpikeTimes (np_arange intLastUsedSample intTn) ;;
        Ret (cell ++
             [map (fun t => t - dblEventT + dblPseudoEventT st + dblWindowDur) vecT])
      else Ret cell
  | None => Ret cell
  end.

Definition getPseudoSpikeVectors (vecSpikeTimes vecEventTimes : list Q)
    (dblWindowDur : Q) (boolDiscardEdges : bool) : py (list Q * list Q) :=
  (* ensure sorting and alignment *)
  let vecSpikeTimes := np_sort vecSpikeTimes in
  let vecEventTimes := np_sort vecEventTimes in
  st <- stitch_loop vecSpikeTimes vecEventTimes dblWindowDur boolDiscardEdges
          0 vecEventTimes (mkStitch [] [] 0 0 None 0) ;;
  cell <- add_beginning vecSpikeTimes boolDiscardEdges st ;;
  cell <- add_end vecSpikeTimes vecEventTimes dblWindowDur boolDiscardEdges st cell ;;
  Ret (np_sort (flatten cell), vecPseudoEventT st).

(* ================================================================== *)
(** * calcZetaOne *)
(* ================================================================== *)

(** [arrEventTimes] as the code tells arrays apart.  [Arr1 v] is an array of
    floats of fewer than two dimensions: a one-dimensional array with the
    entries [v], or a zero-dimensional one, which passes the assertion and
    which [np.reshape(arrEventTimes, (-1, 1))] turns into the single event
    [v = [x]].  [Arr2] is a two-dimensional array of floats with its shape.
    [ArrOther] is an array that the assertion refuses: three or more
    dimensions, or a dtype that is not a float. *)
Inductive ndarray : Type :=
| Arr1 (v : list Q)
| Arr2 (nrows ncols : nat) (rows : list (list Q))
| ArrOther.

(** A two-dimensional array is well formed when its rows agree with its shape. *)
Definition wf_ndarray (a : ndarray) : Prop :=
  match a with
  | Arr2 nrows ncols rows =>
      length rows = nrows /\ Forall (fun r => length r = ncols) rows
  | _ => True
  end.

(** [arrEventTimes.T] *)
Definition transpose (ncols : nat) (rows : list (list Q)) : list (list Q) :=
  map (fun j => map (fun r => nth j r 0) rows) (seq 0 ncols).

(** [arrEventTimes[:, 0]] *)
Definition column0 (ncols : nat) (rows : list (list Q)) : py (list Q) :=
  if (ncols =? 0)%nat then Raise IndexError
  else Ret (map (fun r => nth 0 r 0) rows).

(** The record [dZETA]; [None] is Python's [None]. *)
Record dZETA : Type := mkZETA {
  vecSpikeT : option (list Q);
  vecRealDeviation : option (list Q);
  vecRealFrac : option (list Q);
  vecRealFracLinear : option (list Q);
  cellRandTime : option (list (list Q));
  cellRandDeviation : option (list (list Q));
  dblZetaP : pyval;
  dblZETA : pyval;
  intZETAIdx : option nat
}.

(** [# %% pre-allocate output] *)
Definition dZETA_default : dZETA :=
  mkZETA None None None None None None (Scalar (Num 1)) (Scalar (Num 0)) None.

(** The orientation check of [calcZetaOne] and [vecEventT = arrEventTimes[:, 0]]. *)
Definition event_starts (arrEventTimes : ndarray) : py (list Q) :=
  match arrEventTimes with
  | ArrOther => Raise AssertionError
  | Arr2 nrows ncols rows =>
      if (ncols <? 3)%nat then column0 ncols rows
      else if (nrows <? 3)%nat then column0 nrows (transpose ncols rows)
      else Raise InputShapeError
  | Arr1 v =>
      (* turn into T-by-1 array *)
      column0 1 (map (fun x => [x]) v)
  end.

(** [# %% reduce spikes]: the window of the recording that is kept. *)
Definition reduce_window (vecSpikeTimes vecEventT : list Q)
    (dblUseMaxDur dblJitterSize : Q) : py (Q * Q) :=
  lo <- np_min vecEventT ;;
  let dblMinPreEventT := lo - dblUseMaxDur * 5 * dblJitterSize in
  first <- getitem vecSpikeTimes 0 ;;
  dblStartT <- np_max [first; dblMinPreEventT] ;;
  hi <- np_max vecEventT ;;
  let dblStopT := hi + dblUseMaxDur * 5 * dblJitterSize in
  Ret (dblStartT, dblStopT).

Definition reduce_spikes (vecSpikeTimes vecEventT : list Q)
    (dblUseMaxDur dblJitterSize : Q) : py (list Q) :=
  '(dblStartT, dblStopT) <-
    reduce_window vecSpikeTimes vecEventT dblUseMaxDur dblJitterSize ;;
  Ret (filter (fun s => Qltb dblStartT s && Qltb s dblStopT) vecSpikeTimes).

Section Orchestrator.

Variables (ext_exp ext_sqrt ext_ppf : dbl -> dbl) (ext_pi : dbl).

(** [np.random.permutation(n)]: the generator is a stream of draws; the
    state of the generator is the number of draws made so far. *)
Variable np_random_permutation : nat -> nat -> list nat.

(** The first loop over [range(intResampNum)]: one draw per resampling,
    [vecJitterPerTrial[np.random.permutation(intTrials)]]. *)
Fixpoint jitter_columns (vecJitterPerTrial : list Q) (intTrials : nat)
    (n : nat) (draws : nat) : py (list (list Q) * nat) :=
  match n with
  | 0%nat => Ret ([], draws)
  | S n' =>
      col <- take_idx vecJitterPerTrial (np_random_permutation draws intTrials) ;;
      '(cols, draws') <- jitter_columns vecJitterPerTrial intTrials n' (S draws) ;;
      Ret (col :: cols, draws')
  end.

(** What one resampling appends and stores. *)
Record resample : Type := mkResample {
  rs_time : list Q;
  rs_deviation : list Q;
  rs_max : Q
}.

(** The body of the second loop over [range(intResampNum)]. *)
Definition resample_once (vecPseudoSpikeTimes vecStartOnly : list Q)
    (dblUseMaxDur : Q) (vecJitter : list Q) : py resample :=
  let vecStimUseOnTime := vadd vecStartOnly vecJitter in
  o <- getTempOffsetOne vecPseudoSpikeTimes vecStimUseOnTime dblUseMaxDur ;;
  let vecRandDiff := center (vecThisDeviation o) in
  m <- np_max (map Qabs vecRandDiff) ;;
  Ret (mkResample (vecThisSpikeTimes o) vecRandDiff m).

Definition calcZetaOne (vecSpikeTimes : list Q) (arrEventTimes : ndarray)
    (dblUseMaxDur : Q) (intResampNum : nat) (boolDirectQuantile : bool)
    (dblJitterSize : Q) (boolStitch boolParallel : bool) (draws : nat)
    : py (dZETA * nat) :=
  (* %% reduce spikes *)
  vecEventT <- event_starts arrEventTimes ;;
  vecSpikeTimes <- reduce_spikes vecSpikeTimes vecEventT dblUseMaxDur dblJitterSize ;;
  if (length vecSpikeTimes <? 3)%nat then Ret (dZETA_default, draws) else
  (* %% build pseudo data, stitching stimulus periods *)
  '(vecPseudoSpikeTimes, vecPseudoEventT) <-
    (if boolStitch
     then getPseudoSpikeVectors vecSpikeTimes vecEventT dblUseMaxDur false
     else Ret (vecSpikeTimes, vecEventT)) ;;
  (* %% run normal *)
  o <- getTempOffsetOne vecPseudoSpikeTimes vecPseudoEventT dblUseMaxDur ;;
  if (length (vecThisDeviation o) <? 3)%nat then Ret (dZETA_default, draws) else
  let vecRealDeviation := center (vecThisDeviation o) in
  intZETAIdx <- np_argmax (map Qabs vecRealDeviation) ;;
  d <- getitem vecRealDeviation intZETAIdx ;;
  let dblMaxD := Qabs d in
  (* %% run bootstraps *)
  let vecStartOnly := vecPseudoEventT in
  let intTrials := length vecStartOnly in
  let vecJitterPerTrial :=
    map (Qmult dblJitterSize) (np_linspace (- dblUseMaxDur) dblUseMaxDur intTrials) in
  '(matJitterPerTrial, draws') <-
    jitter_columns vecJitterPerTrial intTrials intResampNum draws ;;
  rs <- mapM (resample_once vecPseudoSpikeTimes vecStartOnly dblUseMaxDur)
          matJitterPerTrial ;;
  let vecMaxRandD := map rs_max rs in
  (* %% calculate significance *)
  '(dblZetaP, dblZETA) <-
    getZetaP ext_exp ext_sqrt ext_ppf ext_pi (Scalar (Num dblMaxD)) vecMaxRandD
             boolDirectQuantile ;;
  (* %% assign output *)
  Ret (mkZETA (Some (vecThisSpikeTimes o)) (Some vecRealDeviation)
              (Some (vecThisSpikeFracs o)) (Some (vecThisFracLinear o))
              (Some (map rs_time rs)) (Some (map rs_deviation rs))
              dblZetaP dblZETA (Some intZETAIdx),
       draws').

End Orchestrator.

(* ================================================================== *)
(** * The spike times of getTempOffsetOne in binary64 *)
(* ================================================================== *)

(** The exact embedding above adds the offsets of the duplicate-spike step
    without rounding.  The program adds them in binary64, where an offset of
    a few machine epsilons is rounded away once the spike time is large
    enough.  This module repeats [getSpikeT] and the first part of
    [getTempOffsetOne] (up to the second [np.unique]) on binary64 numbers,
    with the comparisons, subtractions, products and sums of IEEE 754 in
    round-to-nearest-even.  The sort and [np.unique] are those of the exact
    embedding with the binary64 comparisons; they agree with numpy on arrays
    without NaN. *)
Module Binary64.

Import PrimFloat.
Local Open Scope float_scope.

(** An integer count as a binary64 number (exact below 2^53). *)
Definition of_nat (n : nat) : float := of_uint63 (Uint63.of_Z (Z.of_nat n)).

(** [np.sort] *)
Fixpoint insert_by {A : Type} (key : A -> float) (x : A) (l : list A) : list A :=
  match l with
  | [] => [x]
  | y :: l' => if key x <=? key y then x :: l else y :: insert_by key x l'
  end.

Definition sort_by {A : Type} (key : A -> float) (l : list A) : list A :=
  fold_right (insert_by key) [] l.

Definition np_sort (l : list float) : list float := sort_by (fun x => x) l.

(** [np.unique(a, return_index=True)] *)
Fixpoint uniq_from (prev : float) (l : list (float * nat)) : list (float * nat) :=
  match l with
  | [] => []
  | (v, i) :: l' =>
      if prev =? v then uniq_from v l' else (v, i) :: uniq_from v l'
  end.

Definition uniq_first (l : list (float * nat)) : list (float * nat) :=
  match l with
  | [] => []
  | (v, i) :: l' => (v, i) :: uniq_from v l'
  end.

Definition np_unique_index (l : list float) : list float * list nat :=
  let aux := uniq_first (sort_by fst (combine l (seq 0 (length l)))) in
  (map fst aux, map snd aux).

Definition np_unique (l : list float) : list float := fst (np_unique_index l).

(** [getSpikeT] *)
Definition trial_spikes (vecSpikeTimes : list float) (dblUseMaxDur dblStartT : float)
    : list float :=
  let dblStopT := dblStartT + dblUseMaxDur in
  map (fun s => s - dblStartT)
      (filter (fun s => (s <? dblStopT) && (dblStartT <? s)) vecSpikeTimes).

Record buffer : Type := mkBuffer {
  buf_data : list float;
  buf_size : nat
}.

Definition assign_trial (b : buffer) (vecTempSpikes : list float) : py buffer :=
  let intIdx := length (buf_data b) in
  let intTempSpikeNr := length vecTempSpikes in
  let size :=
    if (0 <? intTempSpikeNr)%nat && (buf_size b <=? intIdx + intTempSpikeNr - 1)%nat
    then (buf_size b * 2)%nat else buf_size b in
  if (intIdx + intTempSpikeNr <=? size)%nat
  then Ret (mkBuffer (buf_data b ++ vecTempSpikes) size)
  else Raise IndexError.

Fixpoint spike_loop (vecSpikeTimes : list float) (dblUseMaxDur : float)
    (vecEventTimes : list float) (b : buffer) : py buffer :=
  match vecEventTimes with
  | [] => Ret b
  | dblStartT :: rest =>
      b' <- assign_trial b (trial_spikes vecSpikeTimes dblUseMaxDur dblStartT) ;;
      spike_loop vecSpikeTimes dblUseMaxDur rest b'
  end.

Definition getSpikeT (vecSpikeTimes vecEventTimes : list float) (dblUseMaxDur : float)
    : py (list float) :=
  b <- spike_loop vecSpikeTimes dblUseMaxDur vecEventTimes
         (mkBuffer [] (length vecSpikeTimes * 2)) ;;
  Ret ([0] ++ np_sort (buf_data b) ++ [dblUseMaxDur]).

(** [np.finfo(np.float64).eps] = 2^-52 *)
Definition dblUniqueOffset : float := 0x1p-52.

(** [v[indIdx] = v[indIdx] + dblUniqueOffset*(np.arange(k) - k/2 - 1)]: the
    offset is computed without rounding error, the sum is rounded. *)
Fixpoint jitter_masked (k j : nat) (dblNotUnique : float) (v : list float)
    : list float :=
  match v with
  | [] => []
  | a :: v' =>
      if dblNotUnique =? a
      then (a + dblUniqueOffset * (of_nat j - of_nat k / 2 - 1))
             :: jitter_masked k (S j) dblNotUnique v'
      else a :: jitter_masked k j dblNotUnique v'
  end.

Definition jitter_group (v : list float) (dblNotUnique : float) : list float :=
  let k := length (filter (fun a => dblNotUnique =? a) v) in
  jitter_masked k 0 dblNotUnique v.

(** Lines 238 to 252 of [getTempOffsetOne]. *)
Definition unique_spike_times (vecSpikesInTrial : list float) : py (list float) :=
  let '(vecThisSpikeTimes, vecIdx) := np_unique_index vecSpikesInTrial in
  let indDuplicates := diff_gt1 vecIdx ++ [false] in
  idx <- mask_select vecIdx indDuplicates ;;
  vecNotUnique <- take_idx vecSpikesInTrial idx ;;
  match vecNotUnique with
  | [] => Ret vecThisSpikeTimes
  | _ => Ret (np_unique (fold_left jitter_group vecNotUnique vecSpikesInTrial))
  end.

(** [vecThisSpikeTimes], the fourth array that [getTempOffsetOne] returns,
    as lines 237 to 252 compute it. *)
Definition getTempOffsetOne_times (vecSpikeTimes vecEventTimes : list float)
    (dblUseMaxDur : float) : py (list float) :=
  vecSpikesInTrial <- getSpikeT vecSpikeTimes vecEventTimes dblUseMaxDur ;;
  unique_spike_times vecSpikesInTrial.

End Binary64.

(* ================================================================== *)
(** * Definitions that follow the words of the specification *)
(* ================================================================== *)

(** The position of an observed value among the sorted null maxima [xs],
    as the specification words it: rank 0 below the minimum, rank [N]
    above the maximum or at infinity, and in between the linear
    interpolation of the (one-based) positions of the two neighbours. *)
Inductive rank_spec (xs : list Q) : dbl -> Q -> Prop :=
| rank_below (x r : Q) :
    (forall y, In y xs -> x < y) -> r == 0 -> rank_spec xs (Num x) r
| rank_neg_inf (r : Q) : r == 0 -> rank_spec xs NInf r
| rank_nan (r : Q) : r == 0 -> rank_spec xs NaN r
| rank_above (x r : Q) :
    (forall y, In y xs -> y < x) -> r == inject_nat (length xs) ->
    rank_spec xs (Num x) r
| rank_pos_inf (r : Q) : r == inject_nat (length xs) -> rank_spec xs PInf r
| rank_between (x r : Q) (j : nat) (a b : Q) :
    nth_error xs j = Some a -> nth_error xs (S j) = Some b -> a <= x < b ->
    r == inject_nat j + 1 + (x - a) / (b - a) ->
    rank_spec xs (Num x) r
| rank_at_max (x r a : Q) :
    nth_error xs (length xs - 1) = Some a -> x == a ->
    r == inject_nat (length xs) -> rank_spec xs (Num x) r.

(** The order on binary64 values: NaN is not comparable. *)
Definition dbl_lt (a b : dbl) : Prop :=
  match a, b with
  | NaN, _ | _, NaN => False
  | Num x, Num y => x < y
  | NInf, NInf | PInf, _ | _, NInf => False
  | _, _ => True
  end.

Definition ramp (c n : nat) : list Q := map (fun i => inject_nat i + 1) (seq c n).


(** A stand-in for a library function on which a statement does not depend. *)
Definition ext_none (d : dbl) : dbl := NaN.

(** A generator whose every draw is the identity permutation. *)
Definition identity_permutation (draw n : nat) : list nat := seq 0 n.

(** The pseudo event times as the specification words them: the cursor
    starts at 0; for a later trial it advances by the inter-event gap when
    the gap is shorter than the window, and by the window otherwise. *)
Fixpoint pseudo_events_from (dblWindowDur prev cursor : Q) (rest : list Q)
    : list Q :=
  match rest with
  | [] => []
  | e :: rest' =>
      let cursor' :=
        if Qltb (e - prev) dblWindowDur then cursor + e - prev
        else cursor + dblWindowDur in
      cursor' :: pseudo_events_from dblWindowDur e cursor' rest'
  end.

Definition pseudo_events (dblWindowDur : Q) (vecEventTimes : list Q) : list Q :=
  match vecEventTimes with
  | [] => []
  | e0 :: rest => 0 :: pseudo_events_from dblWindowDur e0 0 rest
  end.

(** The first used sample, once set, is an index of the spike array. *)
Definition stitch_inv (n : nat) (st : stitch) : Prop :=
  forall f, intFirstSample st = Some f -> (f < n)%nat.

(** The values of the groups of two or more identical entries of a sorted
    array, the last group left out: what [vecNotUnique] holds.  [cur] is the
    first entry of the current group and [cnt] the number of its entries
    seen so far. *)
Fixpoint dup_values_from (cur : Q) (cnt : nat) (l : list Q) : list Q :=
  match l with
  | [] => []
  | x :: l' =>
      if Qeq_bool cur x then dup_values_from cur (S cnt) l'
      else (if (2 <=? cnt)%nat then [cur] else []) ++ dup_values_from x 1 l'
  end.

Definition dup_values (v : list Q) : list Q :=
  match v with
  | [] => []
  | a :: l => dup_values_from a 1 l
  end.

(** A computation that does not end in the input-shape error. *)
Definition no_shape_error {A : Type} (c : py A) : Prop :=
  c <> Raise InputShapeError.


(** The masked update of [getTempOffsetOne] on one group of [k] identical
    spike times: the [j]-th entry moves by
    [dblUniqueOffset * (j - k/2 - 1)]. *)
Fixpoint spread_from (k j : nat) (g : list Q) : list Q :=
  match g with
  | [] => []
  | a :: g' =>
      (a + dblUniqueOffset * (inject_nat j - inject_nat k / 2 - 1))
        :: spread_from k (S j) g'
  end.

Definition spread (g : list Q) : list Q := spread_from (length g) 0 g.

(** The maximal groups of identical entries of a sorted array. *)
Fixpoint groups_from (cur : Q) (run l : list Q) : list (list Q) :=
  match l with
  | [] => [run]
  | x :: l' =>
      if Qeq_bool cur x then groups_from cur (run ++ [x]) l'
      else run :: groups_from x [x] l'
  end.

Definition groups (v : list Q) : list (list Q) :=
  match v with
  | [] => []
  | a :: l => groups_from a [a] l
  end.

(** The array after the loop over [vecNotUnique]: every group of two or more
    entries is spread, the last group apart ([indDuplicates] ends in [False],
    so the largest value is never in [vecNotUnique]). *)
Fixpoint spread_groups (gs : list (list Q)) : list Q :=
  match gs with
  | [] => []
  | g :: gs' =>
      match gs' with
      | [] => g
      | _ :: _ => (if (2 <=? length g)%nat then spread g else g) ++ spread_groups gs'
      end
  end.

(** A sorted array whose distinct entries lie more than [D] apart. *)
Definition separated (D : Q) (l : list Q) : Prop :=
  StronglySorted (fun a b => a == b \/ a + D < b) l.


(** [sum(indIdx)] for [indIdx = t == v]: how many entries of [v] equal [t]. *)
Definition count_eq (v : list Q) (t : Q) : nat :=
  length (filter (Qeq_bool t) v).

(** [t'] lies within the offsets of a group of [k] identical times [t]. *)
Definition near (k : nat) (t t' : Q) : Prop :=
  t - dblUniqueOffset * (inject_nat k / 2 + 1) <= t' /\
  t' <= t + dblUniqueOffset * (inject_nat k / 2).

(** The loop of [getPseudoSpikeVectors] after the trial of the event [e]:
    every sample from [lo] up to the last used sample has its pseudo spike
    time, at the offset of that trial, in the arrays collected so far. *)
Definition stitch_kept (S : list Q) (st : stitch) (e : Q) (lo : nat) : Prop :=
  forall j s, (lo <= j <= intLastUsedSample st)%nat -> nth_error S j = Some s ->
    exists t, In t (concat (cellPseudoSpikeT st)) /\
              t == s - e + dblPseudoEventT st.

(** After the loop, for the trial of the event [e] with pseudo event time
    [p]: the trial used a run [a .. a+len-1] of consecutive samples that
    starts no later than the first spike at or after [e] and reaches the
    first spike after the window, and the pseudo spike time [s - e + p] of
    every sample [s] of the run is in the arrays collected. *)
Definition trial_kept (S : list Q) (W e p : Q) (st : stitch) : Prop :=
  exists a len start,
    findfirst (map (fun s => Qle_bool e s) S) = Some start /\
    (a <= start < a + len)%nat /\
    (forall en, findfirst (map (fun s => Qltb (e + W) s) S) = Some en ->
                (en < a + len)%nat) /\
    (forall j s, (a <= j < a + len)%nat -> nth_error S j = Some s ->
       exists t, In t (concat (cellPseudoSpikeT st)) /\ t == s - e + p).

(** Two (value, index) pairs of [np.unique] with equal values and the same
    index. *)
Definition same_entry (p p' : Q * nat) : Prop :=
  fst p == fst p' /\ snd p = snd p'.

(* ================================================================== *)
(** * Facts about the numpy primitives *)
(* ================================================================== *)

Lemma Qltb_lt (x y : Q) : Qltb x y = true <-> x < y.
Proof.
  unfold Qltb. rewrite negb_true_iff.
  destruct (Qle_bool y x) eqn:E.
  - apply Qle_bool_iff in E. split; [discriminate | intro H; exfalso; lra].
  - split; [intros _ | reflexivity].
    apply Qnot_le_lt. intro H. apply Qle_bool_iff in H. congruence.
Qed.

Lemma Qltb_ge (x y : Q) : Qltb x y = false <-> y <= x.
Proof.
  unfold Qltb. rewrite negb_false_iff. apply Qle_bool_iff.
Qed.

Lemma Qle_bool_false (x y : Q) : Qle_bool x y = false <-> y < x.
Proof.
  rewrite <- Qltb_lt. unfold Qltb. now rewrite negb_true_iff.
Qed.

Lemma inject_nat_S (n : nat) : inject_nat (S n) == inject_nat n + 1.
Proof.
  unfold inject_nat. rewrite Nat2Z.inj_succ, <- Z.add_1_r, inject_Z_plus.
  reflexivity.
Qed.

Lemma inject_nat_nonneg (n : nat) : 0 <= inject_nat n.
Proof.
  unfold inject_nat. change 0 with (inject_Z 0). rewrite <- Zle_Qle. lia.
Qed.

Lemma inject_nat_le (n m : nat) : (n <= m)%nat -> inject_nat n <= inject_nat m.
Proof.
  intro H. unfold inject_nat. rewrite <- Zle_Qle. lia.
Qed.

Lemma inject_nat_pos (n : nat) : (0 < n)%nat -> 0 < inject_nat n.
Proof.
  intro H. unfold inject_nat. change 0 with (inject_Z 0). rewrite <- Zlt_Qlt. lia.
Qed.

Section SortFacts.

Context {A : Type} (key : A -> Q).

Definition key_le (a b : A) : Prop := key a <= key b.

Lemma insert_by_perm (x : A) (l : list A) :
  Permutation (insert_by key x l) (x :: l).
Proof.
  induction l as [|y l IH]; simpl; [reflexivity|].
  destruct (Qle_bool (key x) (key y)); [reflexivity|].
  rewrite IH. apply perm_swap.
Qed.

Lemma sort_by_perm (l : list A) : Permutation (sort_by key l) l.
Proof.
  induction l as [|x l IH]; simpl; [reflexivity|].
  rewrite insert_by_perm. now constructor.
Qed.

Lemma sort_by_length (l : list A) : length (sort_by key l) = length l.
Proof. apply Permutation_length, sort_by_perm. Qed.

Lemma insert_by_sorted (x : A) (l : list A) :
  StronglySorted key_le l -> StronglySorted key_le (insert_by key x l).
Proof.
  induction 1 as [|y l Hs IH Hy]; simpl.
  - repeat constructor.
  - destruct (Qle_bool (key x) (key y)) eqn:E.
    + apply Qle_bool_iff in E. constructor; [now constructor|].
      constructor; [exact E|].
      eapply Forall_impl; [|exact Hy]. unfold key_le. intros a Ha.
      apply Qle_trans with (key y); assumption.
    + apply Qle_bool_false in E. constructor; [exact IH|].
      eapply Permutation_Forall; [symmetry; apply insert_by_perm|].
      constructor; [unfold key_le; apply Qlt_le_weak; exact E | exact Hy].
Qed.

Lemma sort_by_sorted (l : list A) : StronglySorted key_le (sort_by key l).
Proof.
  induction l as [|x l IH]; simpl; [constructor|].
  now apply insert_by_sorted.
Qed.

Lemma sort_by_sorted_id (l : list A) :
  StronglySorted key_le l -> sort_by key l = l.
Proof.
  induction 1 as [|x l Hs IH Hx]; simpl; [reflexivity|].
  rewrite IH. destruct l as [|y l]; simpl; [reflexivity|].
  inversion Hx as [|? ? Hxy _]; subst. unfold key_le in Hxy.
  apply Qle_bool_iff in Hxy. now rewrite Hxy.
Qed.

End SortFacts.

Lemma np_sort_perm (l : list Q) : Permutation (np_sort l) l.
Proof. apply sort_by_perm. Qed.

Lemma np_sort_sorted (l : list Q) : StronglySorted Qle (np_sort l).
Proof. apply (sort_by_sorted (fun x : Q => x)). Qed.

Lemma np_sort_length (l : list Q) : length (np_sort l) = length l.
Proof. apply sort_by_length. Qed.

Lemma np_sort_sorted_id (l : list Q) : StronglySorted Qle l -> np_sort l = l.
Proof. apply (sort_by_sorted_id (fun x : Q => x)). Qed.

Lemma np_sort_In (l : list Q) (x : Q) : In x (np_sort l) <-> In x l.
Proof.
  split; apply Permutation_in; [apply np_sort_perm | symmetry; apply np_sort_perm].
Qed.

(** ** [np.min] and [np.max] *)

Lemma fold_left_Qmin_spec (l : list Q) (x : Q) :
  (fold_left Qmin l x = x \/ In (fold_left Qmin l x) l) /\
  fold_left Qmin l x <= x /\
  Forall (fun y => fold_left Qmin l x <= y) l.
Proof.
  revert x. induction l as [|y l IH]; intro x; simpl.
  - repeat split; [now left | lra | constructor].
  - destruct (IH (Qmin x y)) as (Hin & Hle & Hall).
    assert (Hm : Qmin x y = x \/ Qmin x y = y).
    { unfold Qmin, GenericMinMax.gmin. destruct (x ?= y); auto. }
    assert (Hx : Qmin x y <= x) by apply Q.le_min_l.
    assert (Hy : Qmin x y <= y) by apply Q.le_min_r.
    repeat split.
    + destruct Hin as [Hin|Hin].
      * rewrite Hin. destruct Hm as [->| ->]; [now left | right; now left].
      * right; now right.
    + lra.
    + constructor; [lra | exact Hall].
Qed.

Lemma fold_left_Qmax_spec (l : list Q) (x : Q) :
  (fold_left Qmax l x = x \/ In (fold_left Qmax l x) l) /\
  x <= fold_left Qmax l x /\
  Forall (fun y => y <= fold_left Qmax l x) l.
Proof.
  revert x. induction l as [|y l IH]; intro x; simpl.
  - repeat split; [now left | lra | constructor].
  - destruct (IH (Qmax x y)) as (Hin & Hle & Hall).
    assert (Hm : Qmax x y = x \/ Qmax x y = y).
    { unfold Qmax, GenericMinMax.gmax. destruct (x ?= y); auto. }
    assert (Hx : x <= Qmax x y) by apply Q.le_max_l.
    assert (Hy : y <= Qmax x y) by apply Q.le_max_r.
    repeat split.
    + destruct Hin as [Hin|Hin].
      * rewrite Hin. destruct Hm as [->| ->]; [now left | right; now left].
      * right; now right.
    + lra.
    + constructor; [lra | exact Hall].
Qed.

Lemma np_min_spec (l : list Q) :
  l <> [] ->
  exists m, np_min l = Ret m /\ In m l /\ Forall (fun y => m <= y) l.
Proof.
  destruct l as [|x l]; [congruence|]. intros _.
  exists (fold_left Qmin l x). simpl.
  destruct (fold_left_Qmin_spec l x) as (Hin & Hle & Hall).
  repeat split.
  - destruct Hin as [->|Hin]; [now left | now right].
  - now constructor.
Qed.

Lemma np_max_spec (l : list Q) :
  l <> [] ->
  exists m, np_max l = Ret m /\ In m l /\ Forall (fun y => y <= m) l.
Proof.
  destruct l as [|x l]; [congruence|]. intros _.
  exists (fold_left Qmax l x). simpl.
  destruct (fold_left_Qmax_spec l x) as (Hin & Hle & Hall).
  repeat split.
  - destruct Hin as [->|Hin]; [now left | now right].
  - now constructor.
Qed.

(** ** [np.unique] *)

Lemma uniq_from_sorted (l : list (Q * nat)) : forall prev,
  StronglySorted (key_le fst) l ->
  Forall (fun p => prev <= fst p) l ->
  StronglySorted Qlt (map fst (uniq_from prev l)) /\
  Forall (fun v => prev < v) (map fst (uniq_from prev l)).
Proof.
  induction l as [|[v i] l IH]; intros prev Hs Hp; simpl.
  - split; constructor.
  - inversion Hs as [|? ? Hs' Hv]; subst. inversion Hp as [|? ? Hpv Hp']; subst.
    simpl in Hpv.
    destruct (IH v Hs') as (IHs & IHv).
    { eapply Forall_impl; [|exact Hv]. intros a Ha. exact Ha. }
    destruct (Qeq_bool prev v) eqn:E.
    + apply Qeq_bool_iff in E. split; [exact IHs|].
      eapply Forall_impl; [|exact IHv]. intros a Ha. simpl in Ha. lra.
    + apply Qeq_bool_neq in E. simpl. split.
      * constructor; assumption.
      * constructor; [lra|].
        eapply Forall_impl; [|exact IHv]. intros a Ha. simpl in Ha. lra.
Qed.

Lemma uniq_first_sorted (l : list (Q * nat)) :
  StronglySorted (key_le fst) l -> StronglySorted Qlt (map fst (uniq_first l)).
Proof.
  destruct l as [|[v i] l]; simpl; intro Hs; [constructor|].
  inversion Hs as [|? ? Hs' Hv]; subst.
  destruct (uniq_from_sorted l v Hs') as (H1 & H2).
  - eapply Forall_impl; [|exact Hv]. intros a Ha. exact Ha.
  - constructor; assumption.
Qed.

Lemma uniq_from_In (l : list (Q * nat)) : forall prev p,
  In p (uniq_from prev l) -> In p l.
Proof.
  induction l as [|[v i] l IH]; intros prev p; simpl; [tauto|].
  destruct (Qeq_bool prev v); simpl; intros H.
  - right. eapply IH; eassumption.
  - destruct H as [H|H]; [now left | right; eapply IH; eassumption].
Qed.

Lemma uniq_first_In (l : list (Q * nat)) (p : Q * nat) :
  In p (uniq_first l) -> In p l.
Proof.
  destruct l as [|[v i] l]; simpl; [tauto|].
  intros [H|H]; [now left | right; eapply uniq_from_In; eassumption].
Qed.

Lemma uniq_from_complete (l : list (Q * nat)) : forall prev p,
  In p l -> fst p == prev \/ exists q, In q (uniq_from prev l) /\ fst q == fst p.
Proof.
  induction l as [|[v i] l IH]; intros prev p; simpl; [tauto|].
  intros [<-|H].
  - simpl. destruct (Qeq_bool prev v) eqn:E.
    + apply Qeq_bool_iff in E. left. symmetry; exact E.
    + right. exists (v, i). split; [now left | reflexivity].
  - destruct (IH v p H) as [Hv | (q & Hq & Hqp)].
    + destruct (Qeq_bool prev v) eqn:E.
      * apply Qeq_bool_iff in E. left. rewrite Hv. symmetry; exact E.
      * right. exists (v, i). split; [now left | simpl; symmetry; exact Hv].
    + right. exists q. split; [|exact Hqp].
      destruct (Qeq_bool prev v); [exact Hq | now right].
Qed.

Lemma uniq_first_complete (l : list (Q * nat)) (p : Q * nat) :
  In p l -> exists q, In q (uniq_first l) /\ fst q == fst p.
Proof.
  destruct l as [|[v i] l]; simpl; [tauto|].
  intros [<-|H].
  - exists (v, i). split; [now left | reflexivity].
  - destruct (uniq_from_complete l v p H) as [Hv | (q & Hq & Hqp)].
    + exists (v, i). split; [now left | simpl; symmetry; exact Hv].
    + exists q. split; [now right | exact Hqp].
Qed.

Lemma np_unique_sorted (l : list Q) : StronglySorted Qlt (np_unique l).
Proof.
  unfold np_unique, np_unique_index. simpl.
  apply uniq_first_sorted, sort_by_sorted.
Qed.

Lemma np_unique_In (l : list Q) (x : Q) : In x (np_unique l) -> In x l.
Proof.
  unfold np_unique, np_unique_index. simpl. intro H.
  apply in_map_iff in H. destruct H as ([v i] & <- & H).
  apply uniq_first_In in H.
  eapply Permutation_in in H; [|apply sort_by_perm].
  apply in_combine_l in H. exact H.
Qed.

Lemma In_combine_seq (l : list Q) (x : Q) :
  In x l -> exists i, In (x, i) (combine l (seq 0 (length l))).
Proof.
  generalize 0%nat. induction l as [|y l IH]; intros n; simpl; [tauto|].
  intros [<-|H].
  - exists n. now left.
  - destruct (IH (S n) H) as (i & Hi). exists i. now right.
Qed.

Lemma np_unique_complete (l : list Q) (x : Q) :
  In x l -> exists y, In y (np_unique l) /\ y == x.
Proof.
  intro H. destruct (In_combine_seq l x H) as (i & Hi).
  eapply Permutation_in in Hi; [|symmetry; apply (sort_by_perm fst)].
  destruct (uniq_first_complete _ _ Hi) as ([y j] & Hq & Hy).
  exists y. split; [|exact Hy].
  unfold np_unique, np_unique_index. simpl.
  apply in_map_iff. exists (y, j). split; [reflexivity | exact Hq].
Qed.

Lemma np_unique_nonempty (l : list Q) : l <> [] -> np_unique l <> [].
Proof.
  destruct l as [|x l]; [congruence|]. intros _ H.
  destruct (np_unique_complete (x :: l) x (or_introl eq_refl)) as (y & Hy & _).
  rewrite H in Hy. exact Hy.
Qed.

Lemma StronglySorted_lt_le (l : list Q) :
  StronglySorted Qlt l -> StronglySorted Qle l.
Proof.
  induction 1 as [|x l Hs IH Hx]; constructor; [exact IH|].
  eapply Forall_impl; [|exact Hx]. intros a Ha. apply Qlt_le_weak; exact Ha.
Qed.

Lemma np_sort_unique (l : list Q) : np_sort (np_unique l) = np_unique l.
Proof. apply np_sort_sorted_id, StronglySorted_lt_le, np_unique_sorted. Qed.

Lemma sorted_nth_lt (l : list Q) : forall i j a b,
  StronglySorted Qlt l -> nth_error l i = Some a -> nth_error l j = Some b ->
  (i < j)%nat -> a < b.
Proof.
  induction l as [|x l IH]; intros i j a b Hs Hi Hj Hij.
  - destruct i; discriminate.
  - inversion Hs as [|? ? Hs' Hx]; subst.
    destruct j as [|j]; [lia|]. simpl in Hj.
    destruct i as [|i]; simpl in Hi.
    + injection Hi as <-. apply nth_error_In in Hj.
      rewrite Forall_forall in Hx. now apply Hx.
    + eapply IH; eauto. lia.
Qed.

(** ** [np.interp] and the empirical quantile *)

Lemma arange_plus1_ramp (n : nat) : arange_plus1 n = ramp 0 n.
Proof. unfold arange_plus1, np_arange, ramp. now rewrite Nat.sub_0_r. Qed.

Lemma ramp_length (c n : nat) : length (ramp c n) = n.
Proof. unfold ramp. now rewrite length_map, length_seq. Qed.

Lemma frac_bounds (a b x : Q) : a <= x < b -> 0 <= (x - a) / (b - a) < 1.
Proof.
  intros [H1 H2]. split.
  - apply Qle_shift_div_l; lra.
  - apply Qlt_shift_div_r; lra.
Qed.

Lemma frac_mono (a b x y : Q) :
  a < b -> x <= y -> (x - a) / (b - a) <= (y - a) / (b - a).
Proof.
  intros Hab Hxy. unfold Qdiv. apply Qmult_le_compat_r; [lra|].
  apply Qlt_le_weak, Qinv_lt_0_compat. lra.
Qed.

(** [interp_from] on strictly increasing sample points and the positions
    [c+1, c+2, ...]. *)
Lemma interp_from_spec (xs : list Q) : forall c x,
  StronglySorted Qlt xs -> xs <> [] -> hd 0 xs <= x ->
  (exists j a b, nth_error xs j = Some a /\ nth_error xs (S j) = Some b /\
     a <= x < b /\
     interp_from x xs (ramp c (length xs))
       == inject_nat (c + j) + 1 + (x - a) / (b - a)) \/
  (exists a, nth_error xs (length xs - 1) = Some a /\ a <= x /\
     interp_from x xs (ramp c (length xs)) == inject_nat (c + length xs)).
Proof.
  induction xs as [|x0 xs IH]; intros c x Hs Hne Hhd; [congruence|].
  destruct xs as [|x1 xs].
  - right. exists x0. simpl in *. repeat split; [exact Hhd|].
    rewrite Nat.add_1_r, inject_nat_S. reflexivity.
  - inversion Hs as [|? ? Hs' Hx0]; subst.
    inversion Hx0 as [|? ? Hx01 _]; subst.
    change (ramp c (length (x0 :: x1 :: xs)))
      with ((inject_nat c + 1) :: ramp (S c) (length (x1 :: xs))).
    change (ramp (S c) (length (x1 :: xs)))
      with ((inject_nat (S c) + 1) :: ramp (S (S c)) (length xs)).
    cbn [interp_from]. simpl hd in Hhd.
    destruct (Qltb x x1) eqn:E1.
    + apply Qltb_lt in E1. left. exists 0%nat, x0, x1.
      repeat split; try assumption.
      rewrite Nat.add_0_r.
      destruct (Qeq_bool x0 x) eqn:E0.
      * apply Qeq_bool_iff in E0.
        assert (Hz : (x - x0) / (x1 - x0) == 0).
        { setoid_replace (x - x0) with 0 by lra. unfold Qdiv. ring. }
        rewrite Hz. ring.
      * rewrite inject_nat_S. field. lra.
    + apply Qltb_ge in E1.
      change ((inject_nat (S c) + 1) :: ramp (S (S c)) (length xs))
        with (ramp (S c) (length (x1 :: xs))).
      destruct (IH (S c) x Hs') as [(j & a & b & Ha & Hb & Hab & Hr) | (a & Ha & Hax & Hr)].
      * congruence.
      * exact E1.
      * left. exists (S j), a, b. repeat split; try assumption; try apply Hab.
        rewrite Hr. replace (c + S j)%nat with (S c + j)%nat by lia. reflexivity.
      * right. exists a. split; [|split; [exact Hax|]].
        { simpl length in *. simpl Nat.sub in *. rewrite Nat.sub_0_r in Ha.
          exact Ha. }
        rewrite Hr. replace (c + length (x0 :: x1 :: xs))%nat
          with (S c + length (x1 :: xs))%nat by (simpl; lia). reflexivity.
Qed.

Lemma sorted_hd_le (xs : list Q) (y : Q) :
  StronglySorted Qlt xs -> In y xs -> hd 0 xs <= y.
Proof.
  intros Hs Hy. destruct xs as [|x0 xs]; [destruct Hy|].
  inversion Hs as [|? ? _ Hx0]; subst. simpl.
  destruct Hy as [<-|Hy]; [lra|].
  rewrite Forall_forall in Hx0. apply Qlt_le_weak. now apply Hx0.
Qed.

Lemma sorted_le_last (xs : list Q) (y a : Q) :
  StronglySorted Qlt xs -> In y xs ->
  nth_error xs (length xs - 1) = Some a -> y <= a.
Proof.
  intros Hs Hy Ha. apply In_nth_error in Hy. destruct Hy as (i & Hi).
  assert (Hlt : (i < length xs)%nat).
  { apply nth_error_Some. congruence. }
  destruct (Nat.eq_dec i (length xs - 1)) as [->|Hne].
  - rewrite Hi in Ha. injection Ha as <-. lra.
  - apply Qlt_le_weak. eapply sorted_nth_lt; eauto. lia.
Qed.

Lemma quantile_value_spec (xs : list Q) (d : dbl) :
  StronglySorted Qlt xs -> xs <> [] ->
  exists r, quantile_value d xs = Ret (Num r) /\ rank_spec xs d r.
Proof.
  intros Hs Hne. unfold quantile_value.
  destruct (np_min_spec xs Hne) as (lo & -> & Hlo_in & Hlo).
  destruct (np_max_spec xs Hne) as (hi & Hhi_eq & Hhi_in & Hhi).
  rewrite Forall_forall in Hlo, Hhi. cbn [bind].
  destruct d as [x| | |]; cbn [dbl_ltb np_isnan orb].
  - destruct (Qltb x lo) eqn:E1; cbn [orb].
    + apply Qltb_lt in E1. exists 0. split; [reflexivity|].
      apply rank_below; [|reflexivity]. intros y Hy. specialize (Hlo y Hy). lra.
    + apply Qltb_ge in E1. rewrite Hhi_eq. cbn [bind dbl_gtb np_isinf].
      destruct (Qltb hi x) eqn:E2; cbn [orb].
      * apply Qltb_lt in E2. eexists. split; [reflexivity|].
        apply rank_above; [|reflexivity]. intros y Hy. specialize (Hhi y Hy). lra.
      * apply Qltb_ge in E2.
        assert (Hhd : hd 0 xs <= x).
        { pose proof (sorted_hd_le xs lo Hs Hlo_in). lra. }
        rewrite arange_plus1_ramp. unfold np_interp_dbl, np_interp.
        destruct xs as [|x0 xs']; [congruence|].
        change (ramp 0 (length (x0 :: xs')))
          with ((inject_nat 0 + 1) :: ramp 1 (length xs')).
        cbn [length]. rewrite ramp_length, Nat.eqb_refl. cbn [negb].
        simpl hd in Hhd. apply Qltb_ge in Hhd. rewrite Hhd.
        change ((inject_nat 0 + 1) :: ramp 1 (length xs'))
          with (ramp 0 (length (x0 :: xs'))).
        apply Qltb_ge in Hhd. cbn [bind].
        eexists. split; [reflexivity|].
        destruct (interp_from_spec (x0 :: xs') 0 x Hs Hne Hhd)
          as [(j & a & b & Ha & Hb & Hab & Hr) | (a & Ha & Hax & Hr)].
        -- simpl Nat.add in Hr.
           eapply rank_between; [exact Ha | exact Hb | exact Hab | exact Hr].
        -- simpl Nat.add in Hr. eapply rank_at_max; [exact Ha | | exact Hr].
           pose proof (sorted_le_last _ hi a Hs Hhi_in Ha). lra.
  - (* +inf *)
    rewrite Hhi_eq. cbn [bind dbl_gtb orb]. eexists. split; [reflexivity|].
    apply rank_pos_inf. reflexivity.
  - (* -inf *)
    exists 0. split; [reflexivity|]. apply rank_neg_inf. reflexivity.
  - (* NaN *)
    exists 0. split; [reflexivity|]. apply rank_nan. reflexivity.
Qed.

Lemma rank_spec_range (xs : list Q) (d : dbl) (r : Q) :
  rank_spec xs d r -> xs <> [] ->
  r == 0 \/ (1 <= r <= inject_nat (length xs)).
Proof.
  assert (Hlen : xs <> [] -> 1 <= inject_nat (length xs)).
  { intro Hne. change 1 with (inject_nat 1). apply inject_nat_le.
    destruct xs; [congruence | simpl; lia]. }
  intros H Hne. specialize (Hlen Hne).
  destruct H as [x r _ Hr|r Hr|r Hr|x r _ Hr|r Hr|x r j a b Ha Hb Hab Hr|x r a _ _ Hr];
    try (left; exact Hr); try (right; rewrite Hr; split; [exact Hlen | lra]).
  right. pose proof (frac_bounds a b x Hab) as Hf.
  pose proof (inject_nat_nonneg j) as Hj.
  assert (HS : inject_nat (S (S j)) <= inject_nat (length xs)).
  { apply inject_nat_le. apply Nat.le_succ_l, nth_error_Some. congruence. }
  rewrite !inject_nat_S in HS. rewrite Hr. split; lra.
Qed.

(** With increasing sample points, the position does not decrease when the
    observed value increases. *)
Lemma rank_spec_mono (xs : list Q) (d1 d2 : dbl) (r1 r2 : Q) :
  StronglySorted Qlt xs -> xs <> [] -> dbl_lt d1 d2 ->
  rank_spec xs d1 r1 -> rank_spec xs d2 r2 -> r1 <= r2.
Proof.
  intros Hs Hne Hlt H1 H2.
  pose proof (rank_spec_range _ _ _ H1 Hne) as B1.
  pose proof (rank_spec_range _ _ _ H2 Hne) as B2.
  pose proof (inject_nat_nonneg (length xs)) as HM.
  assert (Hlast : exists a, nth_error xs (length xs - 1) = Some a).
  { destruct (nth_error xs (length xs - 1)) eqn:E; [eauto|].
    apply nth_error_None in E. destruct xs; [congruence | simpl in E; lia]. }
  destruct Hlast as (top & Htop).
  assert (Htop_in : In top xs) by (eapply nth_error_In; eauto).
  destruct H1 as [x r1 Hx Hr1|r1 Hr1|r1 Hr1|x r1 Hx Hr1|r1 Hr1
                 |x r1 j a b Ha Hb Hab Hr1|x r1 a Ha Hxa Hr1];
    try (rewrite Hr1; destruct B2 as [B2|B2]; lra);
    try (destruct d2; contradiction).
  - (* d1 above every sample point: so is d2 *)
    destruct H2 as [y r2 Hy Hr2|r2 Hr2|r2 Hr2|y r2 Hy Hr2|r2 Hr2
                   |y r2 j' a' b' Ha' Hb' Hab' Hr2|y r2 a' Ha' Hya Hr2];
      simpl in Hlt; try contradiction; try (rewrite Hr1, Hr2; lra).
    + specialize (Hx top Htop_in). specialize (Hy top Htop_in). lra.
    + apply nth_error_In in Hb'. specialize (Hx b' Hb'). lra.
  - (* d1 inside a segment *)
    destruct H2 as [y r2 Hy Hr2|r2 Hr2|r2 Hr2|y r2 Hy Hr2|r2 Hr2
                   |y r2 j' a' b' Ha' Hb' Hab' Hr2|y r2 a' Ha' Hya Hr2];
      simpl in Hlt; try contradiction;
      try (rewrite Hr2; destruct B1 as [B1|B1]; lra).
    + apply nth_error_In in Ha. specialize (Hy a Ha). lra.
    + pose proof (frac_bounds a b x Hab) as Hf.
      pose proof (frac_bounds a' b' y Hab') as Hf'.
      destruct (Nat.lt_trichotomy j j') as [Hjj|[<-|Hjj]].
      * assert (HS : inject_nat (S j) <= inject_nat j') by (apply inject_nat_le; lia).
        rewrite inject_nat_S in HS. rewrite Hr1, Hr2. lra.
      * rewrite Ha in Ha'. injection Ha' as <-.
        rewrite Hb in Hb'. injection Hb' as <-.
        rewrite Hr1, Hr2.
        assert (Hm : (x - a) / (b - a) <= (y - a) / (b - a)) by (apply frac_mono; lra).
        lra.
      * exfalso.
        assert (Hba : b' <= a).
        { destruct (Nat.eq_dec (S j') j) as [<-|Hne'].
          - rewrite Hb' in Ha. injection Ha as <-. lra.
          - apply Qlt_le_weak. eapply sorted_nth_lt; eauto. lia. }
        lra.
  - (* d1 at the largest sample point *)
    destruct H2 as [y r2 Hy Hr2|r2 Hr2|r2 Hr2|y r2 Hy Hr2|r2 Hr2
                   |y r2 j' a' b' Ha' Hb' Hab' Hr2|y r2 a' Ha' Hya Hr2];
      simpl in Hlt; try contradiction; try (rewrite Hr1, Hr2; lra).
    + apply nth_error_In in Ha. specialize (Hy a Ha). lra.
    + exfalso. apply nth_error_In in Hb'.
      pose proof (sorted_le_last xs b' a Hs Hb' Ha). lra.
Qed.

Lemma Qdiv_le_mono (a b c : Q) : 0 < c -> a <= b -> a / c <= b / c.
Proof.
  intros Hc Hab. unfold Qdiv. apply Qmult_le_compat_r; [exact Hab|].
  apply Qlt_le_weak, Qinv_lt_0_compat, Hc.
Qed.

Section QuantileFacts.

Variables (ext_exp ext_sqrt ext_ppf : dbl -> dbl) (ext_pi : dbl).

Let zetaP := getZetaP ext_exp ext_sqrt ext_ppf ext_pi.

(** [getZetaP] in direct-quantile mode at one observed value. *)
Lemma getZetaP_quantile_scalar (d : dbl) (v : list Q) :
  v <> [] ->
  exists r, rank_spec (np_unique v) d r /\
    zetaP (Scalar d) v true =
      Ret (Scalar (Num (1 - r / (1 + inject_nat (length (np_unique v))))),
           Scalar (dneg (ext_ppf
             (Num ((1 - r / (1 + inject_nat (length (np_unique v)))) / 2))))).
Proof.
  intro Hne. unfold zetaP, getZetaP. rewrite np_sort_unique.
  destruct (quantile_value_spec (np_unique v) d (np_unique_sorted v)
              (np_unique_nonempty v Hne)) as (r & Hq & Hr).
  exists r. split; [exact Hr|].
  cbn [as_array mapM]. unfold quantile_p. rewrite Hq. cbn [bind ddiv].
  pose proof (inject_nat_nonneg (length (np_unique v))) as HM.
  destruct (Qeq_bool (1 + inject_nat (length (np_unique v))) 0) eqn:E.
  { apply Qeq_bool_iff in E. exfalso. lra. }
  cbn [dsub bind map unwrap_single gumbel_z DblOps neg norm_ppf div lit ddiv].
  change (Qeq_bool 2 0) with false. cbn iota. reflexivity.
Qed.

End QuantileFacts.

(** The p-value of the direct-quantile mode never increases with the
    observed maximum. *)
Lemma getZetaP_quantile_monotone
    (ext_exp ext_sqrt ext_ppf : dbl -> dbl) (ext_pi : dbl)
    (d1 d2 : dbl) (v : list Q) :
  v <> [] -> dbl_lt d1 d2 ->
  exists p1 p2 z1 z2,
    getZetaP ext_exp ext_sqrt ext_ppf ext_pi (Scalar d1) v true
      = Ret (Scalar (Num p1), z1) /\
    getZetaP ext_exp ext_sqrt ext_ppf ext_pi (Scalar d2) v true
      = Ret (Scalar (Num p2), z2) /\
    p2 <= p1.
Proof.
  intros Hne Hlt.
  destruct (getZetaP_quantile_scalar ext_exp ext_sqrt ext_ppf ext_pi d1 v Hne)
    as (r1 & Hr1 & E1).
  destruct (getZetaP_quantile_scalar ext_exp ext_sqrt ext_ppf ext_pi d2 v Hne)
    as (r2 & Hr2 & E2).
  do 4 eexists. split; [exact E1|]. split; [exact E2|].
  pose proof (rank_spec_mono _ _ _ _ _ (np_unique_sorted v)
                (np_unique_nonempty v Hne) Hlt Hr1 Hr2) as Hr.
  pose proof (inject_nat_nonneg (length (np_unique v))) as HM.
  assert (H : r1 / (1 + inject_nat (length (np_unique v)))
              <= r2 / (1 + inject_nat (length (np_unique v)))).
  { apply Qdiv_le_mono; [lra | exact Hr]. }
  lra.
Qed.

(** C5 (as amended): in direct-quantile mode, for every non-empty vector of
    null maxima and every observed maximum [d], [getZetaP] returns
    [p = 1 - r/(M+1)] and [z = -ppf(p/2)], where [M] is the number of
    distinct null maxima and [r] is the position of [d] among the sorted
    distinct null maxima: 0 below the minimum (and for NaN and minus
    infinity), [M] above the maximum and at plus infinity, and the linear
    interpolation of the one-based positions of its two neighbours in
    between. *)
Theorem getZetaP_direct_quantile
    (ext_exp ext_sqrt ext_ppf : dbl -> dbl) (ext_pi : dbl)
    (d : dbl) (vecMaxRandD : list Q) :
  vecMaxRandD <> [] ->
  exists r p,
    rank_spec (np_unique vecMaxRandD) d r /\
    p == 1 - r / (inject_nat (length (np_unique vecMaxRandD)) + 1) /\
    getZetaP ext_exp ext_sqrt ext_ppf ext_pi (Scalar d) vecMaxRandD true
      = Ret (Scalar (Num p), Scalar (dneg (ext_ppf (Num (p / 2))))).
Proof.
  intro Hne.
  destruct (getZetaP_quantile_scalar ext_exp ext_sqrt ext_ppf ext_pi d
              vecMaxRandD Hne) as (r & Hr & E).
  exists r. eexists. split; [exact Hr|]. split; [|exact E].
  pose proof (inject_nat_nonneg (length (np_unique vecMaxRandD))) as HM.
  setoid_replace (inject_nat (length (np_unique vecMaxRandD)) + 1)
    with (1 + inject_nat (length (np_unique vecMaxRandD))) by ring.
  reflexivity.
Qed.

(** The amended C5 at the null maxima 1, 1, 2 and the observed maximum 3/2. *)
Lemma getZetaP_direct_quantile_witness :
  exists r p,
    rank_spec (np_unique [1; 1; 2]) (Num (3 # 2)) r /\
    p == 1 - r / (inject_nat (length (np_unique [1; 1; 2])) + 1) /\
    getZetaP ext_none ext_none ext_none NaN (Scalar (Num (3 # 2))) [1; 1; 2] true
      = Ret (Scalar (Num p), Scalar (dneg (ext_none (Num (p / 2))))).
Proof.
  apply (getZetaP_direct_quantile ext_none ext_none ext_none NaN
           (Num (3 # 2)) [1; 1; 2]).
  discriminate.
Defined.

(** C5 as stated fails: with the null maxima 1, 1, 2 (three values, two of
    them distinct) an observed maximum of 3 gets p = 1 - 2/3, not
    1 - 3/(3+1). *)
Lemma getZetaP_rank_counts_distinct :
  exists p z,
    getZetaP ext_none ext_none ext_none NaN (Scalar (Num 3)) [1; 1; 2] true
      = Ret (Scalar (Num p), z) /\
    p == 1 # 3 /\
    ~ p == 1 - inject_nat (length [1; 1; 2])
               / (inject_nat (length [1; 1; 2]) + 1).
Proof.
  eexists. eexists. split; [vm_compute; reflexivity|].
  split; [reflexivity | intro H; vm_compute in H; discriminate].
Qed.

(** C10: in direct-quantile mode with [M] distinct null maxima the p-value
    lies in [1/(M+1), 1]; it is never 0, it is 1/(M+1) for an infinite
    observed maximum, and it is 1 for a NaN observed maximum. *)
Theorem getZetaP_quantile_p_range
    (ext_exp ext_sqrt ext_ppf : dbl -> dbl) (ext_pi : dbl)
    (d : dbl) (vecMaxRandD : list Q) :
  vecMaxRandD <> [] ->
  exists p z,
    getZetaP ext_exp ext_sqrt ext_ppf ext_pi (Scalar d) vecMaxRandD true
      = Ret (Scalar (Num p), z) /\
    1 / (inject_nat (length (np_unique vecMaxRandD)) + 1) <= p <= 1 /\
    0 < p /\
    (d = PInf -> p == 1 / (inject_nat (length (np_unique vecMaxRandD)) + 1)) /\
    (d = NaN -> p == 1).
Proof.
  intro Hne.
  destruct (getZetaP_quantile_scalar ext_exp ext_sqrt ext_ppf ext_pi d
              vecMaxRandD Hne) as (r & Hr & E).
  do 2 eexists. split; [exact E|].
  set (M := inject_nat (length (np_unique vecMaxRandD))) in *.
  assert (HM : 0 <= M) by apply inject_nat_nonneg.
  assert (Hinv : 1 / (M + 1) == 1 - M / (1 + M)) by (field; lra).
  assert (Hpos : 0 < 1 / (M + 1)).
  { apply Qlt_shift_div_l; lra. }
  assert (Hr0 : 0 <= r / (1 + M) <= M / (1 + M)).
  { destruct (rank_spec_range _ _ _ Hr (np_unique_nonempty _ Hne)) as [H0|[H1 H2]].
    - split.
      + apply Qle_shift_div_l; lra.
      + apply Qdiv_le_mono; [lra|]. fold M. lra.
    - split.
      + apply Qle_shift_div_l; lra.
      + apply Qdiv_le_mono; [lra|]. exact H2. }
  repeat split; try lra.
  - intros ->. inversion Hr as [| | | |? Hrm| |]; subst. fold M in Hrm.
    rewrite Hinv.
    assert (Hd : r / (1 + M) == M / (1 + M)).
    { unfold Qdiv. rewrite Hrm. reflexivity. }
    lra.
  - intros ->. inversion Hr as [| |? Hrz| | | |]; subst.
    assert (Hd : r / (1 + M) == 0).
    { unfold Qdiv. rewrite Hrz. ring. }
    lra.
Qed.

(** C10 at the null maxima 1, 1, 2 and an infinite observed maximum. *)
Lemma getZetaP_quantile_p_range_witness :
  exists p z,
    getZetaP ext_none ext_none ext_none NaN (Scalar PInf) [1; 1; 2] true
      = Ret (Scalar (Num p), z) /\
    1 / (inject_nat (length (np_unique [1; 1; 2])) + 1) <= p <= 1 /\
    0 < p /\
    (PInf = PInf -> p == 1 / (inject_nat (length (np_unique [1; 1; 2])) + 1)) /\
    (PInf = NaN -> p == 1).
Proof.
  apply (getZetaP_quantile_p_range ext_none ext_none ext_none NaN PInf [1; 1; 2]).
  discriminate.
Defined.

(** ** The exception monad *)

Lemma bind_Ret_inv {A B : Type} (c : py A) (k : A -> py B) (b : B) :
  bind c k = Ret b -> exists a, c = Ret a /\ k a = Ret b.
Proof.
  destruct c as [a|e]; simpl; [eauto | discriminate].
Qed.


Ltac bind_inv H :=
  let a := fresh "a" in
  let Ha := fresh "E" in
  apply bind_Ret_inv in H; destruct H as (a & Ha & H).

Lemma mapM_Ret_inv {X Y : Type} (f : X -> py Y) (l : list X) : forall ys,
  mapM f l = Ret ys -> Forall2 (fun x y => f x = Ret y) l ys.
Proof.
  induction l as [|x l IH]; simpl; intros ys H.
  - injection H as <-. constructor.
  - bind_inv H. bind_inv H. injection H as <-. constructor; auto.
Qed.

(** ** Filtering on an interval *)

Lemma Qltb_comp (a b c d : Q) : a == b -> c == d -> Qltb a c = Qltb b d.
Proof.
  intros H1 H2. unfold Qltb. f_equal.
  destruct (Qle_bool c a) eqn:E1, (Qle_bool d b) eqn:E2; try reflexivity.
  - apply Qle_bool_iff in E1. apply Qle_bool_false in E2. exfalso. lra.
  - apply Qle_bool_iff in E2. apply Qle_bool_false in E1. exfalso. lra.
Qed.

(** What the reduce-spikes step computes: the input spikes strictly between
    [dblStartT] and [dblStopT], in their input order. *)
Lemma reduce_spikes_open_interval
    (vecSpikeTimes vecEventT : list Q) (dblUseMaxDur dblJitterSize first : Q) :
  hd_error vecSpikeTimes = Some first -> vecEventT <> [] ->
  exists lo hi kept,
    (In lo vecEventT /\ forall e, In e vecEventT -> lo <= e) /\
    (In hi vecEventT /\ forall e, In e vecEventT -> e <= hi) /\
    reduce_spikes vecSpikeTimes vecEventT dblUseMaxDur dblJitterSize = Ret kept /\
    let start := Qmax first (lo - 5 * dblUseMaxDur * dblJitterSize) in
    let stop := hi + 5 * dblUseMaxDur * dblJitterSize in
    kept = filter (fun s => Qltb start s && Qltb s stop) vecSpikeTimes /\
    forall s, In s kept <-> In s vecSpikeTimes /\ start < s /\ s < stop.
Proof.
  intros Hfirst Hne.
  destruct (np_min_spec vecEventT Hne) as (lo & Elo & Hlo_in & Hlo).
  destruct (np_max_spec vecEventT Hne) as (hi & Ehi & Hhi_in & Hhi).
  rewrite Forall_forall in Hlo, Hhi.
  destruct vecSpikeTimes as [|s0 rest]; [discriminate|].
  injection Hfirst as ->.
  exists lo, hi. eexists. split; [split; [exact Hlo_in | exact Hlo]|].
  split; [split; [exact Hhi_in | exact Hhi]|].
  unfold reduce_spikes, reduce_window. rewrite Elo, Ehi.
  cbn [bind getitem nth_error np_max fold_left].
  split; [reflexivity|]. cbv zeta.
  assert (Hstart : Qmax first (lo - dblUseMaxDur * 5 * dblJitterSize)
                   == Qmax first (lo - 5 * dblUseMaxDur * dblJitterSize)).
  { apply Q.max_compat; [reflexivity | ring]. }
  assert (Hstop : hi + dblUseMaxDur * 5 * dblJitterSize
                  == hi + 5 * dblUseMaxDur * dblJitterSize) by ring.
  assert (Hext : filter (fun s => Qltb (Qmax first (lo - dblUseMaxDur * 5 * dblJitterSize)) s
                                  && Qltb s (hi + dblUseMaxDur * 5 * dblJitterSize))
                        (first :: rest)
               = filter (fun s => Qltb (Qmax first (lo - 5 * dblUseMaxDur * dblJitterSize)) s
                                  && Qltb s (hi + 5 * dblUseMaxDur * dblJitterSize))
                        (first :: rest)).
  { apply filter_ext. intro s. f_equal; apply Qltb_comp;
      try reflexivity; assumption. }
  split; [exact Hext|].
  intro s. rewrite Hext, filter_In, andb_true_iff, !Qltb_lt. tauto.
Qed.

(** C8.  The reduce-spikes step does not retain the spikes of the closed
    interval [start, stop].  For sorted spike input, [first] the earliest
    spike, [lo] and [hi] the earliest and the latest event onset,
    start = max(first, lo - 5*dblUseMaxDur*dblJitterSize) and
    stop = hi + 5*dblUseMaxDur*dblJitterSize, the step returns the spikes
    strictly between start and stop.  The earliest spike is never among them,
    although it lies in [start, stop] (it is start) whenever the recording
    begins inside the window, i.e.
    lo - 5*dblUseMaxDur*dblJitterSize <= first <= stop: the term
    [vecSpikeTimes[0]] of the maximum, compared strictly, removes the first
    spike of the recording. *)
Theorem reduce_spikes_loses_first_spike
    (vecSpikeTimes vecEventT : list Q) (dblUseMaxDur dblJitterSize first : Q) :
  StronglySorted Qle vecSpikeTimes ->
  hd_error vecSpikeTimes = Some first -> vecEventT <> [] ->
  exists lo hi kept,
    (In lo vecEventT /\ forall e, In e vecEventT -> lo <= e) /\
    (In hi vecEventT /\ forall e, In e vecEventT -> e <= hi) /\
    (In first vecSpikeTimes /\ forall s, In s vecSpikeTimes -> first <= s) /\
    reduce_spikes vecSpikeTimes vecEventT dblUseMaxDur dblJitterSize = Ret kept /\
    let start := Qmax first (lo - 5 * dblUseMaxDur * dblJitterSize) in
    let stop := hi + 5 * dblUseMaxDur * dblJitterSize in
    (forall s, In s kept <-> In s vecSpikeTimes /\ start < s /\ s < stop) /\
    ~ In first kept /\
    (lo - 5 * dblUseMaxDur * dblJitterSize <= first -> first <= stop ->
     start <= first /\ first <= stop /\ ~ In first kept).
Proof.
  intros Hsorted Hfirst Hne.
  destruct (reduce_spikes_open_interval vecSpikeTimes vecEventT dblUseMaxDur
              dblJitterSize first Hfirst Hne)
    as (lo & hi & kept & Hlo & Hhi & Hred & _ & Hkept).
  cbv zeta in Hkept.
  exists lo, hi, kept. split; [exact Hlo|]. split; [exact Hhi|].
  assert (Hmin : In first vecSpikeTimes /\ forall s, In s vecSpikeTimes -> first <= s).
  { destruct vecSpikeTimes as [|s0 rest]; [discriminate|].
    injection Hfirst as ->. split; [now left|].
    intros s [<-|Hs]; [apply Qle_refl|].
    apply StronglySorted_inv in Hsorted. destruct Hsorted as (_ & Hall).
    rewrite Forall_forall in Hall. now apply Hall. }
  split; [exact Hmin|]. split; [exact Hred|]. cbv zeta.
  assert (Hnot : ~ In first kept).
  { intro Hin. apply Hkept in Hin. destruct Hin as (_ & Hlt & _).
    pose proof (Q.le_max_l first (lo - 5 * dblUseMaxDur * dblJitterSize)) as Hle.
    apply (Qlt_irrefl first). eapply Qle_lt_trans; [exact Hle | exact Hlt]. }
  split; [exact Hkept|]. split; [exact Hnot|].
  intros Hlo' Hstop. split; [|split; [exact Hstop | exact Hnot]].
  apply Q.max_lub; [apply Qle_refl | exact Hlo'].
Qed.

(** The spikes 1, 2, 3, 4 with one event at 2 and
    [dblUseMaxDur = dblJitterSize = 1]. *)
Lemma reduce_spikes_loses_first_spike_witness :
  exists lo hi kept,
    (In lo [2] /\ forall e, In e [2] -> lo <= e) /\
    (In hi [2] /\ forall e, In e [2] -> e <= hi) /\
    (In 1 [1; 2; 3; 4] /\ forall s, In s [1; 2; 3; 4] -> 1 <= s) /\
    reduce_spikes [1; 2; 3; 4] [2] 1 1 = Ret kept /\
    let start := Qmax 1 (lo - 5 * 1 * 1) in
    let stop := hi + 5 * 1 * 1 in
    (forall s, In s kept <-> In s [1; 2; 3; 4] /\ start < s /\ s < stop) /\
    ~ In 1 kept /\
    (lo - 5 * 1 * 1 <= 1 -> 1 <= stop ->
     start <= 1 /\ 1 <= stop /\ ~ In 1 kept).
Proof.
  apply (reduce_spikes_loses_first_spike [1; 2; 3; 4] [2] 1 1 1).
  - repeat (apply SSorted_cons || apply SSorted_nil
            || apply Forall_cons || apply Forall_nil);
      vm_compute; discriminate.
  - reflexivity.
  - discriminate.
Defined.

(** At that input all four spikes lie in the closed interval [1, 7]; the
    step returns the last three. *)
Lemma reduce_spikes_drops_first_spike :
  reduce_spikes [1; 2; 3; 4] [2] 1 1 = Ret [2; 3; 4] /\
  Forall (fun s => Qmax 1 (2 - 5 * 1 * 1) <= s /\ s <= 2 + 5 * 1 * 1) [1; 2; 3; 4].
Proof.
  split; [reflexivity|].
  repeat (apply Forall_cons || apply Forall_nil); split; vm_compute; discriminate.
Qed.

(** ** Mean-centred arrays *)

Lemma Qsum_center (l : list Q) (m : Q) :
  Qsum (map (fun x => x - m) l) == Qsum l - inject_nat (length l) * m.
Proof.
  induction l as [|x l IH].
  - simpl. unfold inject_nat. simpl. ring.
  - cbn [map Qsum fold_right length]. fold (Qsum (map (fun x => x - m) l)).
    fold (Qsum l). rewrite IH, inject_nat_S. ring.
Qed.

Lemma center_length (l : list Q) : length (center l) = length l.
Proof. unfold center. apply length_map. Qed.

Lemma np_mean_center (l : list Q) : l <> [] -> np_mean (center l) == 0.
Proof.
  intro Hne. unfold np_mean at 1. rewrite center_length. unfold center.
  rewrite Qsum_center.
  assert (Hn : 0 < inject_nat (length l)).
  { apply inject_nat_pos. destruct l; [congruence | simpl; lia]. }
  unfold np_mean. field. lra.
Qed.

Lemma np_linspace_length (a b : Q) (n : nat) : length (np_linspace a b n) = n.
Proof.
  destruct n as [|[|n]]; [reflexivity | reflexivity |].
  unfold np_linspace. now rewrite length_map, length_seq.
Qed.

Lemma vsub_length (a b : list Q) :
  length (vsub a b) = Nat.min (length a) (length b).
Proof. unfold vsub. now rewrite length_map, length_combine. Qed.

(** What [getTempOffsetOne] returns, read off its last lines. *)
Lemma getTempOffsetOne_shape (sp ev : list Q) (W : Q) (o : offsets) :
  getTempOffsetOne sp ev W = Ret o ->
  vecThisSpikeTimes o <> [] /\
  vecThisDeviation o
    = center (vsub (vecThisSpikeFracs o) (vecThisFracLinear o)) /\
  length (vecThisDeviation o) = length (vecThisSpikeTimes o) /\
  length (vecThisSpikeFracs o) = length (vecThisSpikeTimes o) /\
  length (vecThisFracLinear o) = length (vecThisSpikeTimes o).
Proof.
  unfold getTempOffsetOne. intro H. bind_inv H. bind_inv H.
  destruct (length a0 =? 0)%nat eqn:En; [discriminate|].
  injection H as <-. cbn [vecThisSpikeTimes vecThisDeviation vecThisSpikeFracs
                          vecThisFracLinear].
  apply Nat.eqb_neq in En.
  split; [intros ->; apply En; reflexivity|].
  split; [reflexivity|].
  rewrite center_length, vsub_length, np_linspace_length, length_map, Nat.min_id.
  auto.
Qed.

Lemma getTempOffsetOne_mean_zero (sp ev : list Q) (W : Q) (o : offsets) :
  getTempOffsetOne sp ev W = Ret o ->
  vecThisDeviation o <> [] /\ np_mean (vecThisDeviation o) == 0.
Proof.
  intro H. destruct (getTempOffsetOne_shape _ _ _ _ H) as (Hne & Hdev & Hlen & _).
  assert (Hne' : vsub (vecThisSpikeFracs o) (vecThisFracLinear o) <> []).
  { intro E. rewrite Hdev, center_length, E in Hlen.
    destruct (vecThisSpikeTimes o); [congruence | discriminate]. }
  split.
  - intro E. rewrite E in Hlen. destruct (vecThisSpikeTimes o); [congruence | discriminate].
  - rewrite Hdev. apply np_mean_center, Hne'.
Qed.

Lemma center_nonempty (l : list Q) : l <> [] -> center l <> [].
Proof.
  intros Hne E. apply Hne. apply length_zero_iff_nil.
  rewrite <- center_length, E. reflexivity.
Qed.

Section OrchestratorFacts.

Variables (ext_exp ext_sqrt ext_ppf : dbl -> dbl) (ext_pi : dbl).
Variable np_random_permutation : nat -> nat -> list nat.

Let zetaOne := calcZetaOne ext_exp ext_sqrt ext_ppf ext_pi np_random_permutation.

Lemma resample_once_mean_zero (ps ev : list Q) (W : Q) (jit : list Q) (r : resample) :
  resample_once ps ev W jit = Ret r ->
  rs_deviation r <> [] /\ np_mean (rs_deviation r) == 0.
Proof.
  unfold resample_once. intro H. bind_inv H. bind_inv H. injection H as <-.
  cbn [rs_deviation].
  destruct (getTempOffsetOne_mean_zero _ _ _ _ E) as (Hne & _).
  split; [apply center_nonempty, Hne | apply np_mean_center, Hne].
Qed.

(** C4: whenever [calcZetaOne] meets an insufficient-data condition (fewer
    than 3 spikes retained by the reduce-spikes step, or fewer than 3 points
    in the real deviation curve) it returns the pre-allocated record, with
    [dblZetaP = 1.0], [dblZETA = 0.0] and the seven curve fields unset, and
    it has drawn no permutation: no resampling iteration was executed. *)
Theorem calcZetaOne_insufficient_data
    (vecSpikeTimes : list Q) (arrEventTimes : ndarray) (dblUseMaxDur : Q)
    (intResampNum : nat) (boolDirectQuantile : bool) (dblJitterSize : Q)
    (boolStitch boolParallel : bool) (draws : nat)
    (vecEventT kept : list Q) :
  event_starts arrEventTimes = Ret vecEventT ->
  reduce_spikes vecSpikeTimes vecEventT dblUseMaxDur dblJitterSize = Ret kept ->
  ((length kept < 3)%nat \/
   exists ps pe o,
     (if boolStitch then getPseudoSpikeVectors kept vecEventT dblUseMaxDur false
      else Ret (kept, vecEventT)) = Ret (ps, pe) /\
     getTempOffsetOne ps pe dblUseMaxDur = Ret o /\
     (length (vecThisDeviation o) < 3)%nat) ->
  exists dZ,
    zetaOne vecSpikeTimes arrEventTimes dblUseMaxDur intResampNum
            boolDirectQuantile dblJitterSize boolStitch boolParallel draws
      = Ret (dZ, draws) /\
    dblZetaP dZ = Scalar (Num 1) /\ dblZETA dZ = Scalar (Num 0) /\
    vecSpikeT dZ = None /\ vecRealDeviation dZ = None /\
    vecRealFrac dZ = None /\ vecRealFracLinear dZ = None /\
    cellRandTime dZ = None /\ cellRandDeviation dZ = None /\
    intZETAIdx dZ = None.
Proof.
  intros Hev Hred Hins. exists dZETA_default.
  split; [|repeat split; reflexivity].
  unfold zetaOne, calcZetaOne. rewrite Hev. cbn [bind]. rewrite Hred. cbn [bind].
  destruct (length kept <? 3)%nat eqn:E3; [reflexivity|].
  apply Nat.ltb_ge in E3.
  destruct Hins as [Hlt | (ps & pe & o & Hst & Ho & Hlt)]; [lia|].
  rewrite Hst. cbn [bind]. rewrite Ho. cbn [bind].
  apply Nat.ltb_lt in Hlt. rewrite Hlt. reflexivity.
Qed.

(** C9: the deviation array of every curve has mean zero (in exact
    arithmetic) and is not empty: the array [getTempOffsetOne] returns, the
    real curve of [calcZetaOne] and each of its resampled null curves. *)
Theorem deviation_mean_zero :
  (forall sp ev W o,
     getTempOffsetOne sp ev W = Ret o ->
     vecThisDeviation o <> [] /\ np_mean (vecThisDeviation o) == 0) /\
  (forall vecSpikeTimes arrEventTimes dblUseMaxDur intResampNum
          boolDirectQuantile dblJitterSize boolStitch boolParallel draws dZ draws',
     zetaOne vecSpikeTimes arrEventTimes dblUseMaxDur intResampNum
             boolDirectQuantile dblJitterSize boolStitch boolParallel draws
       = Ret (dZ, draws') ->
     (forall dev, vecRealDeviation dZ = Some dev ->
                  dev <> [] /\ np_mean dev == 0) /\
     (forall devs dev, cellRandDeviation dZ = Some devs -> In dev devs ->
                       dev <> [] /\ np_mean dev == 0)).
Proof.
  split; [exact getTempOffsetOne_mean_zero|].
  intros sp arr W N dq J st par draws dZ draws' H.
  unfold zetaOne, calcZetaOne in H.
  bind_inv H. bind_inv H.
  destruct (length a0 <? 3)%nat.
  { injection H as <- _. split; [intros dev Hd | intros devs dev Hd]; discriminate. }
  bind_inv H. destruct a1 as [ps pe]. bind_inv H.
  destruct (length (vecThisDeviation a1) <? 3)%nat.
  { injection H as <- _. split; [intros dev Hd | intros devs dev Hd]; discriminate. }
  bind_inv H. bind_inv H. bind_inv H. destruct a4 as [mat draws1].
  bind_inv H. bind_inv H. destruct a5 as [zp zz]. injection H as <- _.
  cbn [vecRealDeviation cellRandDeviation].
  destruct (getTempOffsetOne_mean_zero _ _ _ _ E2) as (Hne & _).
  split.
  - intros dev Hd. injection Hd as <-.
    split; [apply center_nonempty, Hne | apply np_mean_center, Hne].
  - intros devs dev Hd Hin. injection Hd as <-.
    apply in_map_iff in Hin. destruct Hin as (r & <- & Hr).
    apply mapM_Ret_inv in E6.
    assert (Hx : exists x, resample_once ps pe W x = Ret r).
    { clear - E6 Hr. induction E6 as [|x y l l' Hxy _ IH]; [destruct Hr|].
      destruct Hr as [<-|Hr]; [eauto | exact (IH Hr)]. }
    destruct Hx as (x & Hx). eapply resample_once_mean_zero; eauto.
Qed.

End OrchestratorFacts.

(** C4 at four spikes and one event whose window holds no spike: three
    spikes are retained and the real curve has two points. *)
Lemma calcZetaOne_insufficient_data_witness :
  exists dZ,
    calcZetaOne ext_none ext_none ext_none NaN identity_permutation
                [1; 2; 3; 4] (Arr1 [2]) 1 2 true 1 false false 0
      = Ret (dZ, 0%nat) /\
    dblZetaP dZ = Scalar (Num 1) /\ dblZETA dZ = Scalar (Num 0) /\
    vecSpikeT dZ = None /\ vecRealDeviation dZ = None /\
    vecRealFrac dZ = None /\ vecRealFracLinear dZ = None /\
    cellRandTime dZ = None /\ cellRandDeviation dZ = None /\
    intZETAIdx dZ = None.
Proof.
  apply (calcZetaOne_insufficient_data ext_none ext_none ext_none NaN
           identity_permutation [1; 2; 3; 4] (Arr1 [2]) 1 2 true 1 false false 0
           [2] [2; 3; 4]).
  - reflexivity.
  - reflexivity.
  - right. do 3 eexists. split; [reflexivity|].
    split; [vm_compute; reflexivity | vm_compute; lia].
Defined.

(** C9 on a run with three retained spikes, one event and one resampling. *)
Lemma deviation_mean_zero_witness :
  exists dZ draws',
    calcZetaOne ext_none ext_none ext_none NaN identity_permutation
                [0; 1 # 4; 1 # 2; 3 # 4] (Arr1 [0]) 1 1 true 1 false false 0
      = Ret (dZ, draws') /\
    vecRealDeviation dZ <> None /\ cellRandDeviation dZ <> Some [] /\
    (forall dev, vecRealDeviation dZ = Some dev ->
                 dev <> [] /\ np_mean dev == 0) /\
    (forall devs dev, cellRandDeviation dZ = Some devs -> In dev devs ->
                      dev <> [] /\ np_mean dev == 0).
Proof.
  do 2 eexists. split; [vm_compute; reflexivity|].
  split; [discriminate|]. split; [discriminate|].
  eapply (proj2 (deviation_mean_zero ext_none ext_none ext_none NaN
                  identity_permutation)
           [0; 1 # 4; 1 # 2; 3 # 4] (Arr1 [0]) 1 1%nat true 1 false false 0%nat).
  vm_compute. reflexivity.
Defined.

(* ================================================================== *)
(** * The Gumbel fit over the real numbers *)
(* ================================================================== *)

Section GumbelReal.

Local Open Scope R_scope.

Variables (ppf : R -> R) (saturated : R -> bool).

Let ops : NumOps R := RealOps ppf saturated.

Lemma Q2R_6 : Q2R 6 = 6.
Proof. unfold Q2R. simpl. Lra.lra. Qed.

Lemma Q2R_1 : Q2R 1 = 1.
Proof. unfold Q2R. simpl. Lra.lra. Qed.

Lemma EulerMascheroni_bounds :
  577 / 1000 < Q2R dblEulerMascheroni < 578 / 1000.
Proof. unfold Q2R, dblEulerMascheroni. simpl. Lra.lra. Qed.

Lemma sqrt_6_bounds : 2 < sqrt 6 < 3.
Proof.
  split.
  - apply Rle_lt_trans with (sqrt (2 * 2)).
    + rewrite sqrt_square; Lra.lra.
    + apply sqrt_lt_1; Lra.lra.
  - apply Rlt_le_trans with (sqrt (3 * 3)).
    + apply sqrt_lt_1; Lra.lra.
    + rewrite sqrt_square; Lra.lra.
Qed.

Lemma PI_bounds : 3 < PI <= 4.
Proof.
  split; [pose proof PI2_3_2; Lra.lra | exact PI_4].
Qed.

(** The scale as a multiple of the standard deviation. *)
Lemma dblBeta_bounds (s : R) :
  0 < s -> s / 2 < dblBeta ops (s * s) < s.
Proof.
  intro Hs. unfold dblBeta. cbn [ops RealOps div mul f_sqrt f_pi lit].
  rewrite Q2R_6, sqrt_square by Lra.lra.
  pose proof sqrt_6_bounds as [H1 H2]. pose proof PI_bounds as [H3 H4].
  assert (Hn : 2 * s < sqrt 6 * s < 3 * s).
  { split; apply Rmult_lt_compat_r; assumption. }
  split.
  - apply Rmult_lt_reg_r with PI; [Lra.lra|].
    unfold Rdiv. rewrite Rmult_assoc, (Rmult_assoc _ (/ PI)), Rinv_l by Lra.lra.
    Lra.nra.
  - apply Rmult_lt_reg_r with PI; [Lra.lra|].
    unfold Rdiv. rewrite Rmult_assoc, Rinv_l by Lra.lra.
    Lra.nra.
Qed.

Lemma getGumbel_entries (dblE dblV : R) (arrX : list R) :
  getGumbel ops dblE dblV arrX =
    (map (fun x => if saturated (gumbel_z ops (gumbel_p ops dblE dblV x))
                   then gumbel_tail_p ops dblE dblV x
                   else gumbel_p ops dblE dblV x) arrX,
     map (fun x => if saturated (gumbel_z ops (gumbel_p ops dblE dblV x))
                   then gumbel_z ops (gumbel_tail_p ops dblE dblV x)
                   else gumbel_z ops (gumbel_p ops dblE dblV x)) arrX).
Proof.
  unfold getGumbel. induction arrX as [|x arrX IH]; [reflexivity|].
  cbn [map tail_loop]. rewrite IH.
  change (sub ops (lit ops 1) (fGumbelCDF ops dblE dblV x))
    with (gumbel_p ops dblE dblV x).
  destruct (isinf ops (gumbel_z ops (gumbel_p ops dblE dblV x))) eqn:E;
    cbn [ops RealOps isinf] in E; rewrite E; reflexivity.
Qed.


Lemma dblBeta_pos (dblV : R) : 0 < dblV -> 0 < dblBeta ops dblV.
Proof.
  intro HV. unfold dblBeta. cbn [ops RealOps div mul f_sqrt f_pi lit].
  rewrite Q2R_6. apply Rdiv_lt_0_compat; [|apply PI_RGT_0].
  apply Rmult_lt_0_compat; apply sqrt_lt_R0; Lra.lra.
Qed.

(** Away from the branch for large X the Gumbel p-value never increases
    with the observed maximum (positive variance). *)
Lemma gumbel_p_monotone (dblE dblV x1 x2 : R) :
  0 < dblV -> x1 < x2 -> gumbel_p ops dblE dblV x2 < gumbel_p ops dblE dblV x1.
Proof.
  intros HV Hx. pose proof (dblBeta_pos dblV HV) as Hb.
  unfold gumbel_p, fGumbelCDF.
  cbn [ops RealOps sub lit neg f_exp div].
  fold ops. set (b := dblBeta ops dblV) in *. set (m := dblMode ops dblE dblV).
  assert (Ht : (x1 - m) / b < (x2 - m) / b).
  { unfold Rdiv. apply Rmult_lt_compat_r; [apply Rinv_0_lt_compat, Hb | Lra.lra]. }
  assert (He : exp (- ((x2 - m) / b)) < exp (- ((x1 - m) / b))).
  { apply exp_increasing. Lra.lra. }
  assert (Hc : exp (- exp (- ((x1 - m) / b))) < exp (- exp (- ((x2 - m) / b)))).
  { apply exp_increasing. Lra.lra. }
  Lra.lra.
Qed.


(** C1: what [getGumbel] stores for an entry whose z-score is not finite is
    [exp(dblMode - x/dblBeta)], and then [-ppf(p/2)] of that value; at
    [dblE = 1], [dblV = 1], [x = 100] (an entry whose p-value is rounded to
    zero in binary64) this is not [exp((dblMode - x)/dblBeta)]. *)
Theorem getGumbel_tail_formula :
  (forall dblE dblV arrX,
     getGumbel ops dblE dblV arrX =
       (map (fun x => if saturated (gumbel_z ops (gumbel_p ops dblE dblV x))
                      then exp (dblMode ops dblE dblV - x / dblBeta ops dblV)
                      else gumbel_p ops dblE dblV x) arrX,
        map (fun x => if saturated (gumbel_z ops (gumbel_p ops dblE dblV x))
                      then gumbel_z ops
                             (exp (dblMode ops dblE dblV - x / dblBeta ops dblV))
                      else gumbel_z ops (gumbel_p ops dblE dblV x)) arrX)) /\
  exp (dblMode ops 1 1 - 100 / dblBeta ops 1)
  <> exp ((dblMode ops 1 1 - 100) / dblBeta ops 1).
Proof.
  split.
  - intros dblE dblV arrX. apply getGumbel_entries.
  - intro H. apply exp_inv in H.
    pose proof (dblBeta_bounds 1%R ltac:(Lra.lra)) as Hb.
    replace (1 * 1)%R with 1%R in Hb by Lra.lra.
    pose proof EulerMascheroni_bounds as Hg.
    assert (Hm : (dblMode ops 1 1 = 1 - dblBeta ops 1 * Q2R dblEulerMascheroni)%R)
      by reflexivity.
    set (b := dblBeta ops 1%R) in *. set (m := dblMode ops 1%R 1%R) in *.
    assert (Hmpos : (0 < m)%R) by (rewrite Hm; Lra.nra).
    assert (E1 : ((m - 100 / b) * b = m * b - 100)%R) by (field; Lra.lra).
    assert (E2 : ((m - 100) / b * b = m - 100)%R) by (field; Lra.lra).
    rewrite H in E1. rewrite E1 in E2. Lra.nra.
Qed.

(** The value stored by the branch for large X need not be a probability.
    With [dblE = 200] and [dblV = 10000] the value 6000 lies 58 scale units
    above the mode, and the value the branch stores for it exceeds 1, while
    the regular p-value of 0 is below 1.  These numbers are outside what
    [calcZetaOne] hands to [getZetaP], whose maxima are below 2. *)
Lemma getGumbel_tail_above_one :
  58 < (6000 - dblMode ops 200 10000) / dblBeta ops 10000 /\
  gumbel_p ops 200 10000 0 < 1 /\
  1 < gumbel_tail_p ops 200 10000 6000.
Proof.
  pose proof (dblBeta_bounds 100%R ltac:(Lra.lra)) as Hb.
  replace (100 * 100)%R with 10000%R in Hb by Lra.lra.
  pose proof EulerMascheroni_bounds as Hg.
  assert (Hm : (dblMode ops 200 10000
                = 200 - dblBeta ops 10000 * Q2R dblEulerMascheroni)%R)
    by reflexivity.
  assert (Ht : gumbel_tail_p ops 200 10000 6000
               = exp (dblMode ops 200 10000 - 6000 / dblBeta ops 10000))
    by reflexivity.
  assert (Hp : gumbel_p ops 200 10000 0
               = (Q2R 1 - exp (- exp (- ((0 - dblMode ops 200 10000)
                                         / dblBeta ops 10000))))%R)
    by reflexivity.
  rewrite Ht, Hp, Q2R_1.
  set (b := dblBeta ops 10000%R) in *. set (m := dblMode ops 200%R 10000%R) in *.
  assert (Hmb : (142 < m < 200)%R) by (rewrite Hm; Lra.nra).
  assert (Hinv : (0 < / b)%R) by (apply Rinv_0_lt_compat; Lra.lra).
  assert (Hq : (6000 / b < 120)%R).
  { apply Rmult_lt_reg_r with b; [Lra.lra|].
    unfold Rdiv. rewrite Rmult_assoc, Rinv_l by Lra.lra. Lra.lra. }
  split; [|split].
  - apply Rmult_lt_reg_r with b; [Lra.lra|].
    unfold Rdiv. rewrite Rmult_assoc, Rinv_l by Lra.lra. Lra.nra.
  - pose proof (exp_pos (- exp (- ((0 - m) / b)))). Lra.lra.
  - rewrite <- exp_0. apply exp_increasing. Lra.lra.
Qed.

End GumbelReal.

(* ================================================================== *)
(** * getPseudoSpikeVectors: the pseudo event times *)
(* ================================================================== *)

Lemma stitch_trial_events (sp evs : list Q) (W : Q) (disc : bool)
    (i : nat) (e : Q) (st st' : stitch) :
  stitch_trial sp evs W disc i e st = Ret st' ->
  vecPseudoEventT st' = vecPseudoEventT st ++ [dblPseudoEventT st'] /\
  (i = 0%nat -> dblPseudoEventT st' = 0) /\
  (forall prev, i <> 0%nat -> nth_error evs (i - 1) = Some prev ->
     dblPseudoEventT st' =
       if Qltb (e - prev) W then dblPseudoEventT st + e - prev
       else dblPseudoEventT st + W).
Proof.
  unfold stitch_trial. intro H. bind_inv H. bind_inv H.
  destruct a0 as [[u addT] pseudo].
  match type of H with
  | (let '(_, _) := ?X in _) = _ => destruct X as [lastUsed localT]
  end.
  match type of H with
  | (let '(_, _) := ?X in _) = _ => destruct X as [firstS T0]
  end.
  injection H as <-. cbn [vecPseudoEventT dblPseudoEventT].
  split; [reflexivity|].
  destruct (i =? 0)%nat eqn:Ei.
  - apply Nat.eqb_eq in Ei. injection E0 as _ _ <-.
    split; [reflexivity | intros prev Hi; contradiction].
  - apply Nat.eqb_neq in Ei. split; [intro; contradiction|].
    intros prev _ Hprev. bind_inv E0.
    unfold getitem in E1. rewrite Hprev in E1. injection E1 as <-.
    destruct (Qltb (e - prev) W).
    + bind_inv E0. injection E0 as _ _ <-. reflexivity.
    + injection E0 as _ _ <-. reflexivity.
Qed.

Lemma stitch_loop_events (sp evs : list Q) (W : Q) (disc : bool) :
  forall (todo done : list Q) (prev : Q) (st st' : stitch),
    evs = done ++ prev :: todo ->
    stitch_loop sp evs W disc (S (length done)) todo st = Ret st' ->
    vecPseudoEventT st' =
      vecPseudoEventT st ++ pseudo_events_from W prev (dblPseudoEventT st) todo.
Proof.
  induction todo as [|e todo IH]; intros done prev st st' Hevs H.
  - simpl in H. injection H as <-. simpl. now rewrite app_nil_r.
  - simpl in H. bind_inv H.
    destruct (stitch_trial_events _ _ _ _ _ _ _ _ E) as (Hv & _ & Hp).
    specialize (Hp prev (Nat.neq_succ_0 _)).
    rewrite Hevs in Hp. simpl Nat.sub in Hp. rewrite Nat.sub_0_r in Hp.
    rewrite nth_error_app2, Nat.sub_diag in Hp by lia.
    specialize (Hp eq_refl).
    specialize (IH (done ++ [prev]) e a st').
    rewrite length_app, Nat.add_1_r in IH.
    rewrite <- app_assoc in IH. specialize (IH Hevs H).
    rewrite IH, Hv, <- app_assoc. cbn [pseudo_events_from app].
    rewrite <- Hp. reflexivity.
Qed.

Lemma stitch_loop_all_events (sp evs : list Q) (W : Q) (disc : bool)
    (st0 st' : stitch) :
  vecPseudoEventT st0 = [] ->
  stitch_loop sp evs W disc 0 evs st0 = Ret st' ->
  vecPseudoEventT st' = pseudo_events W evs.
Proof.
  intros H0 H. destruct evs as [|e0 rest]; simpl in H.
  - injection H as <-. exact H0.
  - bind_inv H.
    destruct (stitch_trial_events _ _ _ _ _ _ _ _ E) as (Hv & Hz & _).
    specialize (Hz eq_refl).
    rewrite (stitch_loop_events sp (e0 :: rest) W disc rest [] e0 a st' eq_refl H).
    rewrite Hv, H0, Hz. reflexivity.
Qed.

Lemma getPseudoSpikeVectors_events (sp evs : list Q) (W : Q) (disc : bool)
    (ps pe : list Q) :
  getPseudoSpikeVectors sp evs W disc = Ret (ps, pe) ->
  pe = pseudo_events W (np_sort evs).
Proof.
  unfold getPseudoSpikeVectors. intro H. bind_inv H. bind_inv H. bind_inv H.
  injection H as _ <-.
  eapply stitch_loop_all_events; [|exact E]. reflexivity.
Qed.

Lemma pseudo_events_from_length (W : Q) (rest : list Q) : forall prev c,
  length (pseudo_events_from W prev c rest) = length rest.
Proof.
  induction rest as [|e rest IH]; intros prev c; simpl; [reflexivity|].
  now rewrite IH.
Qed.

Lemma pseudo_events_length (W : Q) (evs : list Q) :
  length (pseudo_events W evs) = length evs.
Proof.
  destruct evs as [|e0 rest]; simpl; [reflexivity|].
  now rewrite pseudo_events_from_length.
Qed.

Lemma pseudo_events_from_step (W : Q) (rest : list Q) :
  forall prev c i a b,
    nth_error (prev :: rest) i = Some a ->
    nth_error (prev :: rest) (S i) = Some b ->
    exists pa pb,
      nth_error (c :: pseudo_events_from W prev c rest) i = Some pa /\
      nth_error (c :: pseudo_events_from W prev c rest) (S i) = Some pb /\
      pb - pa == (if Qltb (b - a) W then b - a else W).
Proof.
  induction rest as [|e rest IH]; intros prev c i a b Ha Hb.
  - destruct i; simpl in Hb; [discriminate | destruct i; discriminate].
  - destruct i as [|i].
    + simpl in Ha, Hb. injection Ha as Ha. injection Hb as Hb. subst a b.
      do 2 eexists. split; [reflexivity|]. split; [reflexivity|].
      simpl. destruct (Qltb (e - prev) W); ring.
    + simpl in Ha. cbn [pseudo_events_from].
      change (nth_error (prev :: e :: rest) (S (S i)))
        with (nth_error (e :: rest) (S i)) in Hb.
      destruct (IH e (if Qltb (e - prev) W then c + e - prev else c + W)
                  i a b Ha Hb) as (pa & pb & Hpa & Hpb & Hd).
      exists pa, pb. split; [exact Hpa|]. split; [exact Hpb | exact Hd].
Qed.

Lemma pseudo_events_step (W : Q) (evs : list Q) (i : nat) (a b : Q) :
  nth_error evs i = Some a -> nth_error evs (S i) = Some b ->
  exists pa pb,
    nth_error (pseudo_events W evs) i = Some pa /\
    nth_error (pseudo_events W evs) (S i) = Some pb /\
    pb - pa == (if Qltb (b - a) W then b - a else W).
Proof.
  destruct evs as [|e0 rest]; [destruct i; discriminate|].
  apply pseudo_events_from_step.
Qed.

(** ** [findfirst] and integer indexing *)

Lemma findfirst_lt (l : list bool) : forall i,
  findfirst l = Some i -> (i < length l)%nat.
Proof.
  induction l as [|b l IH]; intros i H; [discriminate|].
  simpl in H. destruct b.
  - injection H as <-. simpl. lia.
  - destruct (findfirst l) as [j|]; [|discriminate].
    injection H as <-. simpl. specialize (IH j eq_refl). lia.
Qed.

Lemma findfirst_exists (l : list bool) :
  In true l -> exists i, findfirst l = Some i.
Proof.
  induction l as [|b l IH]; intros H; [destruct H|].
  simpl. destruct b; [eauto|].
  destruct H as [H|H]; [discriminate|].
  destruct (IH H) as (i & ->). simpl. eauto.
Qed.

Lemma findfirst_true (l : list bool) : forall i,
  findfirst l = Some i -> nth_error l i = Some true.
Proof.
  induction l as [|b l IH]; intros i H; [discriminate|].
  simpl in H. destruct b.
  - injection H as <-. reflexivity.
  - destruct (findfirst l) as [j|]; [|discriminate].
    injection H as <-. simpl. now apply IH.
Qed.

Lemma findfirst_min (l : list bool) : forall i j,
  findfirst l = Some i -> nth_error l j = Some true -> (i <= j)%nat.
Proof.
  induction l as [|b l IH]; intros i j H Hj; [discriminate|].
  simpl in H. destruct b.
  - injection H as <-. lia.
  - destruct (findfirst l) as [k|]; [|discriminate].
    injection H as <-. destruct j as [|j]; [discriminate|].
    simpl in Hj. specialize (IH k j eq_refl Hj). lia.
Qed.

Lemma findfirst_map_le {A : Type} (f g : A -> bool) (l : list A) (s e : nat) :
  (forall x, g x = true -> f x = true) ->
  findfirst (map f l) = Some s -> findfirst (map g l) = Some e -> (s <= e)%nat.
Proof.
  intros Hfg Hs He. apply findfirst_true in He.
  rewrite nth_error_map in He.
  destruct (nth_error l e) as [x|] eqn:Ex; [|discriminate].
  injection He as He. eapply findfirst_min; [exact Hs|].
  rewrite nth_error_map, Ex. simpl. now rewrite Hfg.
Qed.

Lemma getitem_returns {A : Type} (l : list A) (i : nat) :
  (i < length l)%nat -> exists a, getitem l i = Ret a /\ nth_error l i = Some a.
Proof.
  intro H. unfold getitem.
  destruct (nth_error l i) as [a|] eqn:E; [eauto|].
  apply nth_error_None in E. lia.
Qed.

Lemma take_idx_returns {A : Type} (l : list A) (idx : list nat) :
  Forall (fun i => (i < length l)%nat) idx ->
  exists r, take_idx l idx = Ret r /\ length r = length idx.
Proof.
  induction 1 as [|i idx Hi _ (r & IH & Hlen)]; simpl; [eauto|].
  destruct (getitem_returns l i Hi) as (a & -> & _). cbn [bind]. rewrite IH.
  cbn [bind]. exists (a :: r). simpl. auto.
Qed.

Lemma arange_lt (a b n : nat) :
  (b <= n)%nat -> Forall (fun i => (i < n)%nat) (np_arange a b).
Proof.
  intro H. apply Forall_forall. intros i Hi. unfold np_arange in Hi.
  apply in_seq in Hi. lia.
Qed.

Lemma last_In {A : Type} (l : list A) (d : A) : l <> [] -> In (last l d) l.
Proof.
  induction l as [|x l IH]; [congruence|]. intros _.
  destruct l as [|y l]; [now left|].
  right. apply IH. discriminate.
Qed.

(** ** [getPseudoSpikeVectors] returns *)

Lemma eligible_samples_good (S : list Q) (e W : Q) :
  0 <= W -> (exists s, In s S /\ e <= s) ->
  exists l, eligible_samples S e W = Ints l /\ l <> [] /\
            Forall (fun i => (i < length S)%nat) l.
Proof.
  intros HW (s & Hs & Hes). unfold eligible_samples.
  destruct (findfirst_exists (map (fun s => Qle_bool e s) S)) as (s0 & Hs0).
  { apply in_map_iff. exists s. split; [now apply Qle_bool_iff | exact Hs]. }
  rewrite Hs0. pose proof (findfirst_lt _ _ Hs0) as Hlt. rewrite length_map in Hlt.
  assert (Hgood : forall e0, (s0 <= e0)%nat ->
            filter (fun i => (i <? length S)%nat) (np_arange s0 (e0 + 1)) <> [] /\
            Forall (fun i => (i < length S)%nat)
                   (filter (fun i => (i <? length S)%nat) (np_arange s0 (e0 + 1)))).
  { intros e0 He0. split.
    - intro E. assert (Hin : In s0 (filter (fun i => (i <? length S)%nat)
                                           (np_arange s0 (e0 + 1)))).
      { apply filter_In. split; [apply in_seq; lia | now apply Nat.ltb_lt]. }
      rewrite E in Hin. exact Hin.
    - apply Forall_forall. intros i Hi. apply filter_In in Hi.
      now apply Nat.ltb_lt. }
  destruct (findfirst (map (fun s1 => Qltb (e + W) s1) S)) as [e0|] eqn:He0.
  - assert (Hle : (s0 <= e0)%nat).
    { eapply (findfirst_map_le (fun s => Qle_bool e s) (fun s1 => Qltb (e + W) s1));
        [|exact Hs0 | exact He0].
      intros x Hx. apply Qltb_lt in Hx. apply Qle_bool_iff. lra. }
    destruct (e0 <? s0)%nat eqn:El; [apply Nat.ltb_lt in El; lia|].
    eexists. split; [reflexivity|]. now apply Hgood.
  - eexists. split; [reflexivity|]. apply Hgood. lia.
Qed.

Lemma stitch_trial_returns (S evs : list Q) (W : Q) (disc : bool)
    (i : nat) (e : Q) (st : stitch) :
  0 <= W -> (exists s, In s S /\ e <= s) ->
  (i - 1 < length evs)%nat -> stitch_inv (length S) st ->
  exists st', stitch_trial S evs W disc i e st = Ret st' /\
              stitch_inv (length S) st'.
Proof.
  intros HW Hs Hi Hinv. unfold stitch_trial.
  destruct (eligible_samples_good S e W HW Hs) as (l & -> & Hne & Hl).
  destruct l as [|u0 us]; [congruence|]. cbn [samples_list].
  set (l := u0 :: us) in *.
  assert (Hu1 : exists l1,
    (if (i =? 0)%nat && negb disc then Ints (np_arange 0 (last l 0%nat + 1))
     else if (i =? length evs - 1)%nat && negb disc
          then Ints (np_arange u0 (length S)) else Ints l) = Ints l1 /\
    Forall (fun k => (k < length S)%nat) l1).
  { destruct ((i =? 0)%nat && negb disc).
    - eexists. split; [reflexivity|]. apply arange_lt.
      pose proof (last_In l 0%nat Hne) as Hin.
      rewrite Forall_forall in Hl. specialize (Hl _ Hin). lia.
    - destruct ((i =? length evs - 1)%nat && negb disc).
      + eexists. split; [reflexivity|]. apply arange_lt. lia.
      + eexists. split; [reflexivity | exact Hl]. }
  destruct Hu1 as (l1 & -> & Hl1).
  cbn [index_samples].
  destruct (take_idx_returns S l1 Hl1) as (addT & -> & _). cbn [bind].
  assert (Hfin : forall (u : list nat) (addT' : list Q) (pseudo : Q),
    Forall (fun k => (k < length S)%nat) u ->
    exists st',
      (let '(intLastUsedSample, vecLocalPseudoT) :=
         match samples_list (Ints u) with
         | [] => (intLastUsedSample st, [])
         | (_ :: _) as us0 =>
             (last us0 0%nat, map (fun t => t - e + pseudo) addT')
         end in
       let '(intFirstSample, dblPseudoT0) :=
         match intFirstSample st, samples_list (Ints u) with
         | None, u1 :: _ => (Some u1, pseudo)
         | _, _ => (intFirstSample st, dblPseudoT0 st)
         end in
       Ret (mkStitch (cellPseudoSpikeT st ++ [vecLocalPseudoT])
                     (vecPseudoEventT st ++ [pseudo])
                     pseudo intLastUsedSample intFirstSample dblPseudoT0))
      = Ret st' /\ stitch_inv (length S) st').
  { intros u addT' pseudo Hu. cbn [samples_list].
    destruct u as [|u1 u'].
    - destruct (intFirstSample st) eqn:Ef; eexists; (split; [reflexivity|]);
        intros f Hf; cbn [intFirstSample] in Hf; apply Hinv; congruence.
    - destruct (intFirstSample st) eqn:Ef; eexists; (split; [reflexivity|]);
        intros f Hf; cbn [intFirstSample] in Hf.
      + apply Hinv; congruence.
      + injection Hf as <-. inversion Hu; assumption. }
  destruct (i =? 0)%nat eqn:Ei.
  - cbn [bind]. apply Hfin, Hl1.
  - destruct (getitem_returns evs (i - 1) Hi) as (prev & -> & _). cbn [bind].
    destruct (Qltb (e - prev) W).
    + cbn [drop_overlap index_samples].
      assert (Hl2 : Forall (fun k => (k < length S)%nat)
                (filter (fun k => negb (k <=? intLastUsedSample st)%nat) l1)).
      { apply Forall_forall. intros k Hk. apply filter_In in Hk.
        rewrite Forall_forall in Hl1. now apply Hl1. }
      destruct (take_idx_returns S _ Hl2) as (addT2 & -> & _). cbn [bind].
      apply Hfin, Hl2.
    + cbn [bind]. apply Hfin, Hl1.
Qed.

Lemma stitch_loop_returns (S evs : list Q) (W : Q) (disc : bool) :
  0 <= W ->
  forall (todo : list Q) (i : nat) (st : stitch),
    (i + length todo <= length evs)%nat ->
    (forall e, In e todo -> exists s, In s S /\ e <= s) ->
    stitch_inv (length S) st ->
    exists st', stitch_loop S evs W disc i todo st = Ret st' /\
                stitch_inv (length S) st'.
Proof.
  intros HW. induction todo as [|e todo IH]; intros i st Hlen Hsp Hinv.
  - exists st. split; [reflexivity | exact Hinv].
  - simpl in Hlen. cbn [stitch_loop].
    destruct (stitch_trial_returns S evs W disc i e st HW) as (st1 & -> & Hinv1).
    + apply Hsp. now left.
    + lia.
    + exact Hinv.
    + cbn [bind]. apply IH; [lia | | exact Hinv1].
      intros e' He'. apply Hsp. now right.
Qed.

Lemma np_ptp_returns (l : list Q) : l <> [] -> exists r, np_ptp l = Ret r.
Proof.
  intro Hne. unfold np_ptp.
  destruct (np_max_spec l Hne) as (hi & -> & _).
  destruct (np_min_spec l Hne) as (lo & -> & _).
  cbn [bind]. eauto.
Qed.

Lemma add_beginning_returns (S : list Q) (disc : bool) (st : stitch) :
  stitch_inv (length S) st -> exists cell, add_beginning S disc st = Ret cell.
Proof.
  intro Hinv. unfold add_beginning.
  destruct (intFirstSample st) as [f|] eqn:Ef; [|eauto].
  specialize (Hinv f Ef).
  destruct (negb disc && (0 <? f)%nat) eqn:Ec; [|eauto].
  apply andb_true_iff in Ec. destruct Ec as [_ Hf]. apply Nat.ltb_lt in Hf.
  destruct (getitem_returns S f Hinv) as (a & -> & _). cbn [bind].
  destruct (getitem_returns S (f - 1)) as (b & -> & _); [lia|]. cbn [bind].
  destruct (take_idx_returns S (np_arange 0 f)) as (vecT & -> & HlenT).
  { apply arange_lt. lia. }
  cbn [bind].
  assert (Hlen : length (np_arange 0 f) = f).
  { unfold np_arange. rewrite length_seq. lia. }
  destruct (getitem_returns (np_arange 0 f) 0) as (i0 & -> & Hi0); [lia|].
  cbn [bind].
  assert (i0 = 0%nat).
  { unfold np_arange in Hi0. destruct (f - 0)%nat eqn:E; [lia|].
    simpl in Hi0. congruence. }
  subst i0.
  destruct (getitem_returns S 0) as (t0 & -> & _); [lia|]. cbn [bind].
  destruct (np_ptp_returns vecT) as (p & ->).
  { intro E. rewrite E in HlenT. simpl in HlenT. lia. }
  cbn [bind]. eauto.
Qed.

Lemma getlast_returns {A : Type} (l : list A) :
  l <> [] -> exists a, getlast l = Ret a.
Proof.
  destruct l as [|x l]; [congruence|]. intros _. unfold getlast.
  destruct (getitem_returns (x :: l) (length (x :: l) - 1)) as (a & -> & _);
    [simpl; lia | eauto].
Qed.

Lemma add_end_returns (S evs : list Q) (W : Q) (disc : bool) (st : stitch)
    (cell : list (list Q)) :
  evs <> [] -> exists cell', add_end S evs W disc st cell = Ret cell'.
Proof.
  intro Hne. unfold add_end.
  destruct (getlast_returns evs Hne) as (e & ->). cbn [bind].
  destruct (findfirst _) as [k|]; [|eauto].
  destruct (negb disc && (k <? length S - 1)%nat); [|eauto].
  destruct (take_idx_returns S (np_arange k (length S))) as (vecT & -> & _).
  { apply arange_lt. lia. }
  cbn [bind]. eauto.
Qed.

(** [getPseudoSpikeVectors] returns when the window is not negative, there
    is an event, and every event has a spike at or after it. *)
Lemma getPseudoSpikeVectors_returns (sp evs : list Q) (W : Q) (disc : bool) :
  0 <= W -> evs <> [] ->
  (forall e, In e evs -> exists s, In s sp /\ e <= s) ->
  exists ps pe, getPseudoSpikeVectors sp evs W disc = Ret (ps, pe).
Proof.
  intros HW Hne Hsp. unfold getPseudoSpikeVectors.
  destruct (stitch_loop_returns (np_sort sp) (np_sort evs) W disc HW
              (np_sort evs) 0 (mkStitch [] [] 0 0 None 0))
    as (st & -> & Hinv).
  - simpl. lia.
  - intros e He. apply (proj1 (np_sort_In _ _)) in He.
    destruct (Hsp e He) as (s & Hs & Hes). exists s.
    split; [apply (proj2 (np_sort_In _ _)), Hs | exact Hes].
  - intros f Hf. discriminate.
  - cbn [bind].
    destruct (add_beginning_returns (np_sort sp) disc st Hinv) as (cell & ->).
    cbn [bind].
    destruct (add_end_returns (np_sort sp) (np_sort evs) W disc st cell)
      as (cell' & ->).
    + intro E. apply Hne. apply length_zero_iff_nil.
      rewrite <- (np_sort_length evs), E. reflexivity.
    + cbn [bind]. eauto.
Qed.

(** C3 (as amended): for two adjacent trials that do not overlap (the
    inter-event gap is at least the window duration) the difference of their
    pseudo event times is the window duration, not the real gap; the real
    gap is kept only when the trials overlap. *)
Theorem getPseudoSpikeVectors_event_gap
    (vecSpikeTimes vecEventTimes : list Q) (dblWindowDur : Q) :
  0 <= dblWindowDur -> vecEventTimes <> [] ->
  (forall e, In e vecEventTimes -> exists s, In s vecSpikeTimes /\ e <= s) ->
  exists ps pe,
    getPseudoSpikeVectors vecSpikeTimes vecEventTimes dblWindowDur false
      = Ret (ps, pe) /\
    length pe = length vecEventTimes /\
    forall i a b,
      nth_error (np_sort vecEventTimes) i = Some a ->
      nth_error (np_sort vecEventTimes) (S i) = Some b ->
      exists pa pb,
        nth_error pe i = Some pa /\ nth_error pe (S i) = Some pb /\
        (dblWindowDur <= b - a -> pb - pa == dblWindowDur) /\
        (b - a < dblWindowDur -> pb - pa == b - a).
Proof.
  intros HW Hne Hsp.
  destruct (getPseudoSpikeVectors_returns _ _ _ false HW Hne Hsp) as (ps & pe & H).
  exists ps, pe. split; [exact H|].
  apply getPseudoSpikeVectors_events in H. subst pe.
  split; [now rewrite pseudo_events_length, np_sort_length|].
  intros i a b Ha Hb.
  destruct (pseudo_events_step dblWindowDur _ i a b Ha Hb)
    as (pa & pb & Hpa & Hpb & Hd).
  exists pa, pb. split; [exact Hpa|]. split; [exact Hpb|].
  destruct (Qltb (b - a) dblWindowDur) eqn:E.
  - apply Qltb_lt in E. split; [intro; lra | intro; exact Hd].
  - apply Qltb_ge in E. split; [intro; exact Hd | intro; lra].
Qed.

(** The amended C3 at four spikes and two events ten window lengths apart. *)
Lemma getPseudoSpikeVectors_event_gap_witness :
  exists ps pe,
    getPseudoSpikeVectors [1 # 2; 3 # 2; 5 # 2; 21 # 2] [0; 10] 1 false
      = Ret (ps, pe) /\
    length pe = length [0; 10] /\
    forall i a b,
      nth_error (np_sort [0; 10]) i = Some a ->
      nth_error (np_sort [0; 10]) (S i) = Some b ->
      exists pa pb,
        nth_error pe i = Some pa /\ nth_error pe (S i) = Some pb /\
        (1 <= b - a -> pb - pa == 1) /\
        (b - a < 1 -> pb - pa == b - a).
Proof.
  apply (getPseudoSpikeVectors_event_gap [1 # 2; 3 # 2; 5 # 2; 21 # 2] [0; 10] 1).
  - discriminate.
  - discriminate.
  - intros e He. exists (21 # 2). split; [simpl; tauto|].
    destruct He as [<-|[<-|[]]]; discriminate.
Defined.

(** C3 as stated fails: two events 10 apart with window 1 do not overlap and
    use disjoint spikes, and their pseudo event times are 0 and 1: they
    differ by the window duration, not by the real gap of 10. *)
Lemma getPseudoSpikeVectors_gap_is_window :
  getPseudoSpikeVectors [1 # 2; 3 # 2; 5 # 2; 21 # 2] [0; 10] 1 false
    = Ret ([1 # 2; 3 # 2; 3 # 2], [0; 1]) /\
  1 < 10 - 0 /\ ~ (1 - 0 == 10 - 0).
Proof.
  split; [vm_compute; reflexivity|].
  split; [reflexivity | intro H; vm_compute in H; discriminate].
Qed.

(* ================================================================== *)
(** * getSpikeT *)
(* ================================================================== *)

Lemma trial_spikes_bounds (sp : list Q) (W e t : Q) :
  In t (trial_spikes sp W e) -> 0 < t /\ t < W.
Proof.
  unfold trial_spikes. intro H. apply in_map_iff in H.
  destruct H as (s & <- & Hs). apply filter_In in Hs. destruct Hs as (_ & Hs).
  apply andb_true_iff in Hs. destruct Hs as (H1 & H2).
  apply Qltb_lt in H1, H2. split; lra.
Qed.

Lemma filter_length_le {A : Type} (f : A -> bool) (l : list A) :
  (length (filter f l) <= length l)%nat.
Proof.
  induction l as [|x l IH]; simpl; [lia|]. destruct (f x); simpl; lia.
Qed.

Lemma trial_spikes_length (sp : list Q) (W e : Q) :
  (length (trial_spikes sp W e) <= length sp)%nat.
Proof.
  unfold trial_spikes. rewrite length_map. apply filter_length_le.
Qed.

(** The doubling of the pre-allocated array always makes room: a trial
    holds at most as many spikes as there are, and the array has room for
    twice as many from the start. *)
Lemma assign_trial_returns (n : nat) (b : buffer) (temp : list Q) :
  (length (buf_data b) <= buf_size b)%nat -> (2 * n <= buf_size b)%nat ->
  (length temp <= n)%nat ->
  exists b', assign_trial b temp = Ret b' /\
             buf_data b' = buf_data b ++ temp /\
             (length (buf_data b') <= buf_size b')%nat /\
             (2 * n <= buf_size b')%nat.
Proof.
  intros H1 H2 H3. unfold assign_trial.
  destruct ((0 <? length temp)%nat
            && (buf_size b <=? length (buf_data b) + length temp - 1)%nat) eqn:E.
  - assert (Hs : (length (buf_data b) + length temp <=? buf_size b * 2)%nat = true)
      by (apply Nat.leb_le; lia).
    rewrite Hs. eexists. split; [reflexivity|]. cbn [buf_data buf_size].
    split; [reflexivity|]. rewrite length_app. lia.
  - assert (Hs : (length (buf_data b) + length temp <=? buf_size b)%nat = true).
    { apply Nat.leb_le. apply andb_false_iff in E. destruct E as [E|E].
      - apply Nat.ltb_ge in E. lia.
      - apply Nat.leb_gt in E. lia. }
    rewrite Hs. eexists. split; [reflexivity|]. cbn [buf_data buf_size].
    split; [reflexivity|]. rewrite length_app. apply Nat.leb_le in Hs. lia.
Qed.

Lemma spike_loop_returns (sp : list Q) (W : Q) (evs : list Q) : forall b,
  (length (buf_data b) <= buf_size b)%nat ->
  (2 * length sp <= buf_size b)%nat ->
  exists b', spike_loop sp W evs b = Ret b' /\
             buf_data b' = buf_data b ++ flat_map (trial_spikes sp W) evs.
Proof.
  induction evs as [|e evs IH]; intros b H1 H2.
  - exists b. simpl. now rewrite app_nil_r.
  - cbn [spike_loop].
    destruct (assign_trial_returns (length sp) b (trial_spikes sp W e) H1 H2
                (trial_spikes_length sp W e)) as (b1 & -> & Hd & H1' & H2').
    cbn [bind]. destruct (IH b1 H1' H2') as (b' & -> & Hd').
    exists b'. split; [reflexivity|].
    rewrite Hd', Hd, <- app_assoc. reflexivity.
Qed.

(** [getSpikeT] never raises: it returns 0, the sorted trial-relative spike
    times, and the window duration. *)
Lemma getSpikeT_spec (sp evs : list Q) (W : Q) :
  getSpikeT sp evs W =
    Ret ([0] ++ np_sort (flat_map (trial_spikes sp W) evs) ++ [W]).
Proof.
  unfold getSpikeT.
  destruct (spike_loop_returns sp W evs (mkBuffer [] (length sp * 2)))
    as (b & -> & Hd).
  - simpl. lia.
  - simpl. lia.
  - cbn [bind]. rewrite Hd. reflexivity.
Qed.

Lemma flat_map_trial_bounds (sp evs : list Q) (W t : Q) :
  In t (np_sort (flat_map (trial_spikes sp W) evs)) -> 0 < t /\ t < W.
Proof.
  intro H. apply (proj1 (np_sort_In _ _)) in H. apply in_flat_map in H.
  destruct H as (e & _ & He). eapply trial_spikes_bounds; eauto.
Qed.

Lemma StronglySorted_app_one (l : list Q) (w : Q) :
  StronglySorted Qle l -> Forall (fun x => x <= w) l ->
  StronglySorted Qle (l ++ [w]).
Proof.
  induction 1 as [|x l Hs IH Hx]; intro Hw; simpl.
  - repeat constructor.
  - inversion Hw as [|? ? Hxw Hw']; subst. constructor; [now apply IH|].
    apply Forall_app. split; [exact Hx | constructor; [exact Hxw | constructor]].
Qed.

Lemma getSpikeT_sorted (sp evs : list Q) (W : Q) :
  0 < W ->
  StronglySorted Qle ([0] ++ np_sort (flat_map (trial_spikes sp W) evs) ++ [W]).
Proof.
  intro HW. cbn [app]. constructor.
  - apply StronglySorted_app_one; [apply np_sort_sorted|].
    apply Forall_forall. intros t Ht.
    destruct (flat_map_trial_bounds _ _ _ _ Ht). lra.
  - apply Forall_app. split.
    + apply Forall_forall. intros t Ht.
      destruct (flat_map_trial_bounds _ _ _ _ Ht). lra.
    + constructor; [lra | constructor].
Qed.

(* ================================================================== *)
(** * getTempOffsetOne: the duplicated spike times *)
(* ================================================================== *)

Lemma diff_gt1_cons2 (a b : nat) (rest : list nat) :
  diff_gt1 (a :: b :: rest)
  = (1 <? Z.of_nat b - Z.of_nat a)%Z :: diff_gt1 (b :: rest).
Proof. reflexivity. Qed.

Lemma mask_select_cons {A : Type} (a : A) (l : list A) (b : bool) (m : list bool) :
  mask_select (a :: l) (b :: m)
  = (r <- mask_select l m ;; Ret (if b then a :: r else r)).
Proof. reflexivity. Qed.

Lemma not_unique_from (G0 : list Q) : forall (l P : list Q) (prev cur : Q) (icur : nat),
  G0 = P ++ l -> prev == cur -> (icur < length P)%nat ->
  nth_error G0 icur = Some cur ->
  let idx := icur :: map snd (uniq_from prev (combine l (seq (length P) (length l)))) in
  exists sel,
    mask_select idx (diff_gt1 idx ++ [false]) = Ret sel /\
    take_idx G0 sel = Ret (dup_values_from cur (length P - icur) l).
Proof.
  induction l as [|x l IH]; intros P prev cur icur HG Hpc Hic Hcur idx.
  - exists []. split; reflexivity.
  - subst idx. cbn [length seq combine uniq_from].
    assert (HG' : G0 = (P ++ [x]) ++ l) by (rewrite <- app_assoc; exact HG).
    assert (HlenP : length (P ++ [x]) = S (length P))
      by (rewrite length_app; simpl; lia).
    destruct (Qeq_bool prev x) eqn:E.
    + apply Qeq_bool_iff in E.
      assert (Ecur : Qeq_bool cur x = true).
      { apply Qeq_bool_iff. rewrite <- Hpc. exact E. }
      cbn [dup_values_from]. rewrite Ecur.
      destruct (IH (P ++ [x]) x cur icur HG') as (sel & Hsel & Htake).
      * rewrite <- E. exact Hpc.
      * lia.
      * exact Hcur.
      * rewrite HlenP in Hsel, Htake.
        replace (S (length P) - icur)%nat with (S (length P - icur)) in Htake by lia.
        exists sel. split; assumption.
    + assert (Ecur : Qeq_bool cur x = false).
      { destruct (Qeq_bool cur x) eqn:E'; [|reflexivity].
        apply Qeq_bool_iff in E'. apply Qeq_bool_neq in E. exfalso. apply E.
        rewrite Hpc. exact E'. }
      cbn [dup_values_from]. rewrite Ecur.
      assert (Hx : nth_error G0 (length P) = Some x).
      { rewrite HG, nth_error_app2, Nat.sub_diag by lia. reflexivity. }
      destruct (IH (P ++ [x]) x x (length P) HG') as (sel & Hsel & Htake).
      * reflexivity.
      * lia.
      * exact Hx.
      * rewrite HlenP in Hsel, Htake.
        replace (S (length P) - length P)%nat with 1%nat in Htake by lia.
        cbn [map snd] in Hsel |- *.
        set (I' := map snd (uniq_from x (combine l (seq (S (length P)) (length l)))))
          in *.
        rewrite diff_gt1_cons2, <- app_comm_cons, mask_select_cons, Hsel.
        cbn [bind].
        assert (Hb : (1 <? Z.of_nat (length P) - Z.of_nat icur)%Z
                     = (2 <=? length P - icur)%nat).
        { destruct (2 <=? length P - icur)%nat eqn:E2.
          - apply Nat.leb_le in E2. apply Z.ltb_lt. lia.
          - apply Nat.leb_gt in E2. apply Z.ltb_ge. lia. }
        rewrite Hb. destruct (2 <=? length P - icur)%nat.
        -- eexists. split; [reflexivity|]. cbn [take_idx].
           unfold getitem at 1. rewrite Hcur. cbn [bind]. rewrite Htake.
           reflexivity.
        -- exists sel. split; [reflexivity | exact Htake].
Qed.

Lemma combine_seq_sorted (l : list Q) : forall s,
  StronglySorted Qle l ->
  StronglySorted (key_le fst) (combine l (seq s (length l))).
Proof.
  induction l as [|x l IH]; intros s Hs; simpl; [constructor|].
  inversion Hs as [|? ? Hs' Hx]; subst. constructor; [now apply IH|].
  apply Forall_forall. intros [y i] Hy. apply in_combine_l in Hy.
  rewrite Forall_forall in Hx. unfold key_le. simpl. now apply Hx.
Qed.

Lemma np_unique_index_sorted (v : list Q) :
  StronglySorted Qle v ->
  np_unique_index v =
    (map fst (uniq_first (combine v (seq 0 (length v)))),
     map snd (uniq_first (combine v (seq 0 (length v))))).
Proof.
  intro Hs. unfold np_unique_index.
  rewrite (sort_by_sorted_id fst) by (apply combine_seq_sorted, Hs).
  reflexivity.
Qed.

(** On a sorted array the index arithmetic of [getTempOffsetOne] selects
    the values of the duplicated groups. *)
Lemma unique_spike_times_sorted (v : list Q) :
  StronglySorted Qle v -> v <> [] ->
  unique_spike_times v =
    match dup_values v with
    | [] => Ret (np_unique v)
    | _ :: _ => Ret (np_unique (fold_left jitter_group (dup_values v) v))
    end.
Proof.
  intros Hs Hne. unfold unique_spike_times.
  assert (Hu : np_unique v = map fst (uniq_first (combine v (seq 0 (length v))))).
  { unfold np_unique. now rewrite np_unique_index_sorted. }
  rewrite np_unique_index_sorted by exact Hs. rewrite <- Hu.
  destruct v as [|a l]; [congruence|].
  cbn [length seq combine uniq_first map snd].
  destruct (not_unique_from (a :: l) l [a] a a 0) as (sel & Hsel & Htake).
  - reflexivity.
  - reflexivity.
  - simpl. lia.
  - reflexivity.
  - cbn [length] in Hsel, Htake. cbn zeta in Hsel. rewrite Hsel. cbn [bind].
    rewrite Htake. cbn [bind dup_values]. reflexivity.
Qed.

Lemma jitter_masked_length (k : nat) (v : Q) (l : list Q) : forall j,
  length (jitter_masked k j v l) = length l.
Proof.
  induction l as [|a l IH]; intro j; simpl; [reflexivity|].
  destruct (Qeq_bool v a); simpl; now rewrite IH.
Qed.

Lemma fold_jitter_length (L : list Q) : forall v,
  length (fold_left jitter_group L v) = length v.
Proof.
  induction L as [|x L IH]; intro v; simpl; [reflexivity|].
  rewrite IH. apply jitter_masked_length.
Qed.



(* ================================================================== *)
(** * Which exceptions escape calcZetaOne *)
(* ================================================================== *)

Lemma nse_ret {A : Type} (a : A) : no_shape_error (Ret a).
Proof. discriminate. Qed.

Lemma nse_bind {A B : Type} (c : py A) (k : A -> py B) :
  no_shape_error c -> (forall a, no_shape_error (k a)) ->
  no_shape_error (bind c k).
Proof.
  intros Hc Hk. destruct c as [a|e]; simpl; [apply Hk|].
  intro H. apply Hc. congruence.
Qed.

Create HintDb nse.

Ltac nse_step :=
  match goal with
  | |- no_shape_error (Ret _) => apply nse_ret
  | |- no_shape_error (Raise _) => discriminate
  | |- no_shape_error (bind _ _) => apply nse_bind; [|intros ?]
  | |- no_shape_error (if ?c then _ else _) => destruct c
  | |- no_shape_error (match ?x with _ => _ end) => destruct x
  | |- _ => solve [auto with nse]
  end.

Ltac nse := repeat nse_step.

Lemma nse_getitem {A : Type} (l : list A) (i : nat) : no_shape_error (getitem l i).
Proof. unfold getitem. nse. Qed.
#[export] Hint Resolve nse_getitem : nse.

Lemma nse_getlast {A : Type} (l : list A) : no_shape_error (getlast l).
Proof. unfold getlast. nse. Qed.
#[export] Hint Resolve nse_getlast : nse.

Lemma nse_take_idx {A : Type} (l : list A) (idx : list nat) :
  no_shape_error (take_idx l idx).
Proof. induction idx as [|i idx IH]; cbn [take_idx]; nse. Qed.
#[export] Hint Resolve nse_take_idx : nse.

Lemma nse_mask_select {A : Type} (l : list A) : forall mask,
  no_shape_error (mask_select l mask).
Proof.
  induction l as [|a l IH]; intros [|b mask]; cbn [mask_select]; nse.
Qed.
#[export] Hint Resolve nse_mask_select : nse.

Lemma nse_mapM {X Y : Type} (f : X -> py Y) (l : list X) :
  (forall x, no_shape_error (f x)) -> no_shape_error (mapM f l).
Proof. intro Hf. induction l as [|x l IH]; cbn [mapM]; nse. Qed.

Lemma nse_np_min (l : list Q) : no_shape_error (np_min l).
Proof. unfold np_min. nse. Qed.
#[export] Hint Resolve nse_np_min : nse.

Lemma nse_np_max (l : list Q) : no_shape_error (np_max l).
Proof. unfold np_max. nse. Qed.
#[export] Hint Resolve nse_np_max : nse.

Lemma nse_np_argmax (l : list Q) : no_shape_error (np_argmax l).
Proof. unfold np_argmax. nse. Qed.
#[export] Hint Resolve nse_np_argmax : nse.

Lemma nse_np_interp_dbl (d : dbl) (xp fp : list Q) :
  no_shape_error (np_interp_dbl d xp fp).
Proof. unfold np_interp_dbl, np_interp. nse. Qed.
#[export] Hint Resolve nse_np_interp_dbl : nse.

Lemma nse_quantile_p (d : dbl) (v : list Q) : no_shape_error (quantile_p d v).
Proof. unfold quantile_p, quantile_value. nse. Qed.
#[export] Hint Resolve nse_quantile_p : nse.

Lemma nse_getZetaP (e1 e2 e3 : dbl -> dbl) (pi : dbl) (x : pyval) (v : list Q)
    (dq : bool) :
  no_shape_error (getZetaP e1 e2 e3 pi x v dq).
Proof.
  unfold getZetaP. nse. apply nse_mapM. intro. nse.
Qed.
#[export] Hint Resolve nse_getZetaP : nse.

Lemma nse_getTempOffsetOne (sp evs : list Q) (W : Q) :
  no_shape_error (getTempOffsetOne sp evs W).
Proof.
  unfold getTempOffsetOne. rewrite getSpikeT_spec. cbn [bind].
  unfold unique_spike_times. nse.
Qed.
#[export] Hint Resolve nse_getTempOffsetOne : nse.

Lemma nse_index_samples (S : list Q) (u : samples) :
  no_shape_error (index_samples S u).
Proof. unfold index_samples. nse. Qed.
#[export] Hint Resolve nse_index_samples : nse.

Lemma nse_stitch_trial (S evs : list Q) (W : Q) (disc : bool) (i : nat) (e : Q)
    (st : stitch) :
  no_shape_error (stitch_trial S evs W disc i e st).
Proof. unfold stitch_trial. nse. Qed.
#[export] Hint Resolve nse_stitch_trial : nse.

Lemma nse_stitch_loop (S evs : list Q) (W : Q) (disc : bool) (todo : list Q) :
  forall i st, no_shape_error (stitch_loop S evs W disc i todo st).
Proof. induction todo as [|e todo IH]; intros i st; cbn [stitch_loop]; nse. Qed.
#[export] Hint Resolve nse_stitch_loop : nse.

Lemma nse_getPseudoSpikeVectors (sp evs : list Q) (W : Q) (disc : bool) :
  no_shape_error (getPseudoSpikeVectors sp evs W disc).
Proof.
  unfold getPseudoSpikeVectors, add_beginning, add_end, np_ptp. nse.
Qed.
#[export] Hint Resolve nse_getPseudoSpikeVectors : nse.

Lemma nse_reduce_spikes (sp evT : list Q) (W J : Q) :
  no_shape_error (reduce_spikes sp evT W J).
Proof. unfold reduce_spikes, reduce_window. nse. Qed.
#[export] Hint Resolve nse_reduce_spikes : nse.

Lemma nse_jitter_columns (rng : nat -> nat -> list nat) (v : list Q) (T n : nat) :
  forall draws, no_shape_error (jitter_columns rng v T n draws).
Proof. induction n as [|n IH]; intro draws; cbn [jitter_columns]; nse. Qed.
#[export] Hint Resolve nse_jitter_columns : nse.

Lemma nse_resample_once (ps ev : list Q) (W : Q) (jit : list Q) :
  no_shape_error (resample_once ps ev W jit).
Proof. unfold resample_once. nse. Qed.
#[export] Hint Resolve nse_resample_once : nse.


(** ** When calcZetaOne returns *)





Lemma mapM_returns {X Y : Type} (f : X -> py Y) (l : list X) :
  (forall x, In x l -> exists y, f x = Ret y) ->
  exists ys, mapM f l = Ret ys /\ length ys = length l.
Proof.
  induction l as [|x l IH]; intro H; simpl; [eauto|].
  destruct (H x (or_introl eq_refl)) as (y & ->). cbn [bind].
  destruct IH as (ys & -> & Hlen); [intros; apply H; now right|].
  cbn [bind]. exists (y :: ys). simpl. auto.
Qed.

Lemma jitter_columns_returns (rng : nat -> nat -> list nat) (v : list Q) (n : nat) :
  (forall d, Forall (fun i => (i < length v)%nat) (rng d (length v))) ->
  forall draws, exists cols draws',
    jitter_columns rng v (length v) n draws = Ret (cols, draws') /\
    length cols = n.
Proof.
  intro Hrng. induction n as [|n IH]; intro draws; cbn [jitter_columns]; [eauto|].
  destruct (take_idx_returns v _ (Hrng draws)) as (col & -> & _). cbn [bind].
  destruct (IH (S draws)) as (cols & draws' & -> & Hlen). cbn [bind].
  exists (col :: cols), draws'. simpl. auto.
Qed.



Lemma Permutation_seq_lt (l : list nat) (n : nat) :
  Permutation l (seq 0 n) -> Forall (fun i => (i < n)%nat) l.
Proof.
  intro H. apply Forall_forall. intros i Hi.
  eapply Permutation_in in Hi; [|exact H]. apply in_seq in Hi. lia.
Qed.

Section Returns.

Variables (ext_exp ext_sqrt ext_ppf : dbl -> dbl) (ext_pi : dbl).
Variable np_random_permutation : nat -> nat -> list nat.

Let zetaOne := calcZetaOne ext_exp ext_sqrt ext_ppf ext_pi np_random_permutation.



End Returns.




(* ================================================================== *)
(** * getTempOffsetOne: identical spike times are moved apart *)
(* ================================================================== *)

Lemma jitter_masked_none (k : nat) (v : Q) (l : list Q) : forall j,
  Forall (fun a => Qeq_bool v a = false) l -> jitter_masked k j v l = l.
Proof.
  induction l as [|a l IH]; intros j H; simpl; [reflexivity|].
  inversion H as [|? ? Ha Hl]; subst. rewrite Ha. f_equal. now apply IH.
Qed.

Lemma jitter_masked_all (k : nat) (v : Q) (l : list Q) : forall j,
  Forall (fun a => Qeq_bool v a = true) l ->
  jitter_masked k j v l = spread_from k j l.
Proof.
  induction l as [|a l IH]; intros j H; simpl; [reflexivity|].
  inversion H as [|? ? Ha Hl]; subst. rewrite Ha. f_equal. now apply IH.
Qed.

Lemma jitter_masked_app_none (k : nat) (v : Q) (X Y : list Q) (j : nat) :
  Forall (fun a => Qeq_bool v a = false) X ->
  jitter_masked k j v (X ++ Y) = X ++ jitter_masked k j v Y.
Proof.
  induction 1 as [|a X Ha _ IH]; simpl; [reflexivity|].
  rewrite Ha. f_equal. exact IH.
Qed.

Lemma jitter_masked_all_app (k : nat) (v : Q) (R Y : list Q) : forall j,
  Forall (fun a => Qeq_bool v a = true) R ->
  Forall (fun a => Qeq_bool v a = false) Y ->
  jitter_masked k j v (R ++ Y) = spread_from k j R ++ Y.
Proof.
  induction R as [|a R IH]; intros j HR HY; simpl.
  - now apply jitter_masked_none.
  - inversion HR as [|? ? Ha HR']; subst. rewrite Ha. f_equal. now apply IH.
Qed.

Lemma filter_none {A : Type} (f : A -> bool) (l : list A) :
  Forall (fun a => f a = false) l -> filter f l = [].
Proof.
  induction 1 as [|a l Ha _ IH]; simpl; [reflexivity|]. now rewrite Ha.
Qed.

Lemma filter_all {A : Type} (f : A -> bool) (l : list A) :
  Forall (fun a => f a = true) l -> filter f l = l.
Proof.
  induction 1 as [|a l Ha _ IH]; simpl; [reflexivity|]. now rewrite Ha, IH.
Qed.

(** The masked update on an array in which the entries equal to [v] form
    one block. *)
Lemma jitter_group_block (X R Y : list Q) (v : Q) :
  Forall (fun a => Qeq_bool v a = false) X ->
  Forall (fun a => Qeq_bool v a = true) R ->
  Forall (fun a => Qeq_bool v a = false) Y ->
  jitter_group (X ++ R ++ Y) v = X ++ spread R ++ Y.
Proof.
  intros HX HR HY. unfold jitter_group.
  rewrite !filter_app, (filter_none _ X HX), (filter_all _ R HR),
    (filter_none _ Y HY), app_nil_r. cbn [app].
  rewrite jitter_masked_app_none by exact HX.
  rewrite jitter_masked_all_app by assumption. reflexivity.
Qed.

Lemma groups_from_nonempty (l : list Q) : forall cur run,
  groups_from cur run l <> [].
Proof.
  induction l as [|x l IH]; intros cur run; simpl; [discriminate|].
  destruct (Qeq_bool cur x); [apply IH | discriminate].
Qed.

Lemma spread_groups_cons (g : list Q) (gs : list (list Q)) :
  gs <> [] ->
  spread_groups (g :: gs)
  = (if (2 <=? length g)%nat then spread g else g) ++ spread_groups gs.
Proof. destruct gs; [congruence | reflexivity]. Qed.

Lemma spread_from_length (k : nat) (g : list Q) : forall j,
  length (spread_from k j g) = length g.
Proof. induction g as [|a g IH]; intro j; simpl; [reflexivity | now rewrite IH]. Qed.

(** The entries of a spread group, and how far they are from the group. *)
Lemma spread_from_bounds (k : nat) (cur : Q) (g : list Q) : forall j,
  Forall (fun a => Qeq_bool cur a = true) g ->
  (j + length g <= k)%nat ->
  Forall (fun t => cur - dblUniqueOffset * (inject_nat k / 2 + 1) <= t /\
                   t <= cur + dblUniqueOffset * (inject_nat k / 2 - 2))
         (spread_from k j g).
Proof.
  assert (Heps : 0 < dblUniqueOffset) by reflexivity.
  induction g as [|a g IH]; intros j Hg Hk; simpl; [constructor|].
  inversion Hg as [|? ? Ha Hg']; subst. apply Qeq_bool_iff in Ha.
  simpl in Hk. constructor; [|apply IH; [exact Hg' | lia]].
  pose proof (inject_nat_nonneg j) as Hj.
  assert (Hjk : inject_nat (S j) <= inject_nat k) by (apply inject_nat_le; lia).
  rewrite inject_nat_S in Hjk.
  assert (Hm : forall c d : Q, c <= d -> dblUniqueOffset * c <= dblUniqueOffset * d).
  { intros c d Hcd. rewrite !(Qmult_comm dblUniqueOffset).
    apply Qmult_le_compat_r; lra. }
  assert (HA : 2 * (inject_nat k / 2) == inject_nat k) by field.
  pose proof (Hm (- (inject_nat k / 2 + 1)) (inject_nat j - inject_nat k / 2 - 1)
                ltac:(lra)) as H1.
  pose proof (Hm (inject_nat j - inject_nat k / 2 - 1) (inject_nat k / 2 - 2)
                ltac:(lra)) as H2.
  split; lra.
Qed.

Lemma separated_tail (D cur x : Q) (l : list Q) :
  separated D (cur :: x :: l) -> separated D (cur :: l) /\ separated D (x :: l).
Proof.
  intro H. inversion H as [|? ? Hs Hc]; subst.
  inversion Hc as [|? ? _ Hc']; subst. split; [|exact Hs].
  inversion Hs; subst. constructor; assumption.
Qed.

Lemma separated_head_le (D x y : Q) (l : list Q) :
  0 <= D -> separated D (x :: l) -> In y (x :: l) -> x <= y.
Proof.
  intros HD H [<-|Hy]; [lra|].
  inversion H as [|? ? _ Hx]; subst. rewrite Forall_forall in Hx.
  destruct (Hx y Hy); lra.
Qed.

Lemma separated_far (D cur x : Q) (l : list Q) :
  0 <= D -> separated D (cur :: x :: l) -> Qeq_bool cur x = false ->
  cur + D < x /\ Forall (fun a => Qeq_bool cur a = false) (x :: l).
Proof.
  intros HD H E. apply Qeq_bool_neq in E.
  assert (Hx : cur + D < x).
  { inversion H as [|? ? _ Hc]; subst. inversion Hc as [|? ? [Hc1|Hc1] _]; subst;
      [contradiction | exact Hc1]. }
  split; [exact Hx|]. apply Forall_forall. intros y Hy.
  destruct (separated_tail _ _ _ _ H) as (_ & Hs).
  pose proof (separated_head_le D x y l HD Hs Hy) as Hxy.
  destruct (Qeq_bool cur y) eqn:Ey; [|reflexivity].
  apply Qeq_bool_iff in Ey. lra.
Qed.

Lemma lt_not_eqb (x c : Q) : x < c -> Qeq_bool c x = false.
Proof.
  intro H. destruct (Qeq_bool c x) eqn:E; [|reflexivity].
  apply Qeq_bool_iff in E. lra.
Qed.

Section Spreading.

Variables (D : Q) (n : nat).
Hypothesis D_large : dblUniqueOffset * (inject_nat n / 2 + 1) <= D.

Lemma D_pos : 0 < D.
Proof.
  assert (Heps : 0 < dblUniqueOffset) by reflexivity.
  pose proof (inject_nat_nonneg n) as Hn.
  assert (HA : 2 * (inject_nat n / 2) == inject_nat n) by field.
  assert (0 < dblUniqueOffset * (inject_nat n / 2 + 1)).
  { apply Qmult_lt_0_compat; lra. }
  lra.
Qed.

Lemma spread_below_next (cur x : Q) (run : list Q) :
  Forall (fun a => Qeq_bool cur a = true) run -> (length run <= n)%nat ->
  cur + D < x ->
  Forall (fun t => t < x) (spread run) /\ Forall (fun t => t < x) run.
Proof.
  assert (Heps : 0 < dblUniqueOffset) by reflexivity.
  intros Hrun Hlen Hx. pose proof D_pos as HD. split.
  - pose proof (spread_from_bounds (length run) cur run 0 Hrun ltac:(lia)) as Hb.
    eapply Forall_impl; [|exact Hb]. intros t [_ Ht].
    assert (Hk : inject_nat (length run) <= inject_nat n) by now apply inject_nat_le.
    assert (HA : 2 * (inject_nat n / 2) == inject_nat n) by field.
    assert (HB : 2 * (inject_nat (length run) / 2) == inject_nat (length run)) by field.
    assert (Hm : dblUniqueOffset * (inject_nat (length run) / 2 - 2)
                 <= dblUniqueOffset * (inject_nat n / 2 + 1)).
    { rewrite !(Qmult_comm dblUniqueOffset). apply Qmult_le_compat_r; lra. }
    lra.
  - eapply Forall_impl; [|exact Hrun]. intros a Ha. apply Qeq_bool_iff in Ha. lra.
Qed.

(** The loop over [vecNotUnique] spreads every duplicated group in place. *)
Lemma fold_jitter_groups (l : list Q) : forall (X run : list Q) (cur : Q),
  separated D (cur :: l) ->
  Forall (fun a => Qeq_bool cur a = true) run ->
  (length run + length l <= n)%nat ->
  Forall (fun x => x < cur) X ->
  fold_left jitter_group (dup_values_from cur (length run) l) (X ++ run ++ l)
  = X ++ spread_groups (groups_from cur run l).
Proof.
  pose proof D_pos as HD.
  induction l as [|x l IH]; intros X run cur Hsep Hrun Hlen HX.
  - simpl. now rewrite app_nil_r.
  - cbn [dup_values_from groups_from]. simpl in Hlen.
    destruct (separated_tail _ _ _ _ Hsep) as (Hsep1 & Hsep2).
    destruct (Qeq_bool cur x) eqn:E.
    + specialize (IH X (run ++ [x]) cur Hsep1).
      rewrite length_app, Nat.add_1_r, <- app_assoc in IH. apply IH.
      * apply Forall_app. split; [exact Hrun | constructor; [exact E | constructor]].
      * lia.
      * exact HX.
    + destruct (separated_far D cur x l ltac:(lra) Hsep E) as (Hx & HY).
      rewrite spread_groups_cons by apply groups_from_nonempty.
      destruct (spread_below_next cur x run Hrun ltac:(lia) Hx) as (Hsp & Hr).
      assert (HXc : Forall (fun a => Qeq_bool cur a = false) X).
      { eapply Forall_impl; [|exact HX]. intros a Ha. cbv beta in Ha. now apply lt_not_eqb. }
      assert (HXx : Forall (fun a => a < x) X).
      { eapply Forall_impl; [|exact HX]. intros a Ha. cbv beta in Ha. lra. }
      destruct (2 <=? length run)%nat.
      * cbn [app fold_left]. rewrite jitter_group_block by assumption.
        specialize (IH (X ++ spread run) [x] x Hsep2).
        cbn [length app] in IH. rewrite <- app_assoc in IH. rewrite IH.
        -- now rewrite <- app_assoc.
        -- constructor; [apply Qeq_bool_refl | constructor].
        -- lia.
        -- apply Forall_app. split; assumption.
      * cbn [app]. specialize (IH (X ++ run) [x] x Hsep2).
        cbn [length app] in IH. rewrite <- app_assoc in IH. rewrite IH.
        -- now rewrite <- app_assoc.
        -- constructor; [apply Qeq_bool_refl | constructor].
        -- lia.
        -- apply Forall_app. split; assumption.
Qed.

End Spreading.

Lemma offset_scale_le (c d : Q) :
  c <= d -> dblUniqueOffset * c <= dblUniqueOffset * d.
Proof.
  intro H. rewrite !(Qmult_comm dblUniqueOffset).
  apply Qmult_le_compat_r; [exact H | discriminate].
Qed.

Lemma offset_scale_lt (c d : Q) :
  c < d -> dblUniqueOffset * c < dblUniqueOffset * d.
Proof.
  intro H. rewrite !(Qmult_comm dblUniqueOffset).
  apply Qmult_lt_compat_r; [reflexivity | exact H].
Qed.

Lemma gt_not_eqb (c x : Q) : c < x -> Qeq_bool c x = false.
Proof.
  intro H. destruct (Qeq_bool c x) eqn:E; [|reflexivity].
  apply Qeq_bool_iff in E. lra.
Qed.

Lemma half_inject_nat (k : nat) : 2 * (inject_nat k / 2) == inject_nat k.
Proof. field. Qed.

Lemma StronglySorted_lt_app (B R : list Q) :
  StronglySorted Qlt B -> StronglySorted Qlt R ->
  (forall b r, In b B -> In r R -> b < r) ->
  StronglySorted Qlt (B ++ R).
Proof.
  induction 1 as [|b B HB IH Hb]; intros HR Hlt; simpl; [exact HR|].
  constructor.
  - apply IH; [exact HR|]. intros b' r Hb' Hr. apply Hlt; [now right | exact Hr].
  - apply Forall_app. split; [exact Hb|].
    apply Forall_forall. intros r Hr. apply Hlt; [now left | exact Hr].
Qed.

(** The entries of a spread group from position [j] on are at least the
    [j]-th offset away from the group's value, and strictly increase. *)
Lemma spread_from_lower (k : nat) (cur : Q) (g : list Q) : forall j,
  Forall (fun a => Qeq_bool cur a = true) g ->
  Forall (fun t => cur + dblUniqueOffset * (inject_nat j - inject_nat k / 2 - 1) <= t)
         (spread_from k j g).
Proof.
  induction g as [|a g IH]; intros j Hg; simpl; [constructor|].
  inversion Hg as [|? ? Ha Hg']; subst. apply Qeq_bool_iff in Ha.
  constructor; [lra|].
  eapply Forall_impl; [|apply (IH (S j) Hg')]. intros t Ht. cbv beta in Ht.
  pose proof (offset_scale_le (inject_nat j - inject_nat k / 2 - 1)
                (inject_nat (S j) - inject_nat k / 2 - 1)) as Hm.
  rewrite inject_nat_S in Hm. rewrite inject_nat_S in Ht.
  specialize (Hm ltac:(lra)). lra.
Qed.

Lemma spread_from_sorted (k : nat) (cur : Q) (g : list Q) : forall j,
  Forall (fun a => Qeq_bool cur a = true) g ->
  StronglySorted Qlt (spread_from k j g).
Proof.
  induction g as [|a g IH]; intros j Hg; simpl; [constructor|].
  inversion Hg as [|? ? Ha Hg']; subst. apply Qeq_bool_iff in Ha.
  constructor; [now apply IH|].
  eapply Forall_impl; [|apply (spread_from_lower k cur g (S j) Hg')].
  intros t Ht. cbv beta in Ht. rewrite inject_nat_S in Ht.
  pose proof (offset_scale_lt (inject_nat j - inject_nat k / 2 - 1)
                (inject_nat j + 1 - inject_nat k / 2 - 1) ltac:(lra)) as Hm.
  lra.
Qed.

(** One group after the loop: spread when it has two or more entries, left as
    it is otherwise; strictly increasing, and close to the group's value. *)
Lemma group_block_facts (cur : Q) (run : list Q) :
  Forall (fun a => Qeq_bool cur a = true) run -> run <> [] ->
  let B := if (2 <=? length run)%nat then spread run else run in
  StronglySorted Qlt B /\
  Forall (fun t => cur - dblUniqueOffset * (inject_nat (length run) / 2 + 1) <= t /\
                   t <= cur + dblUniqueOffset * (inject_nat (length run) / 2)) B.
Proof.
  intros Hrun Hne B. subst B.
  pose proof (half_inject_nat (length run)) as HA.
  pose proof (inject_nat_nonneg (length run)) as Hk.
  destruct (2 <=? length run)%nat eqn:E.
  - split; [now apply (spread_from_sorted _ cur)|].
    eapply Forall_impl;
      [|apply (spread_from_bounds (length run) cur run 0 Hrun); simpl; lia].
    intros t [H1 H2]. split; [exact H1|].
    pose proof (offset_scale_le (inject_nat (length run) / 2 - 2)
                  (inject_nat (length run) / 2) ltac:(lra)). lra.
  - apply Nat.leb_gt in E. destruct run as [|a [|b run]]; [congruence| |simpl in E; lia].
    inversion Hrun as [|? ? Ha _]; subst. apply Qeq_bool_iff in Ha.
    split; [repeat constructor|]. constructor; [|constructor].
    pose proof (offset_scale_le 0 (inject_nat (length [a]) / 2 + 1) ltac:(lra)).
    pose proof (offset_scale_le 0 (inject_nat (length [a]) / 2) ltac:(lra)).
    split; lra.
Qed.

Section SpreadSorted.

Variables (D : Q) (n : nat) (w : Q).
Hypothesis D_large : dblUniqueOffset * (inject_nat n / 2 + 1) <= D.

(** When distinct values are more than [D] apart and the last value occurs
    once, the array after the loop is strictly increasing. *)
Lemma spread_groups_sorted (l0 : list Q) : forall (cur : Q) (run : list Q),
  separated D (cur :: l0 ++ [w]) -> cur < w ->
  Forall (fun a => a < w) l0 ->
  Forall (fun a => Qeq_bool cur a = true) run -> run <> [] ->
  (length run + length l0 + 1 <= n)%nat ->
  StronglySorted Qlt (spread_groups (groups_from cur run (l0 ++ [w]))) /\
  Forall (fun t => cur - dblUniqueOffset
                         * (inject_nat (length run + length l0) / 2 + 1) <= t)
         (spread_groups (groups_from cur run (l0 ++ [w]))).
Proof.
  pose proof (D_pos D n D_large) as HD.
  induction l0 as [|x l0 IH]; intros cur run Hsep Hcw Hl0 Hrun Hne Hlen.
  - cbn [app groups_from length]. rewrite (gt_not_eqb cur w) by lra.
    destruct (separated_far D cur w [] ltac:(lra) Hsep (gt_not_eqb cur w ltac:(lra)))
      as (Hx & _).
    rewrite spread_groups_cons by discriminate. cbn [spread_groups].
    destruct (group_block_facts cur run Hrun Hne) as (HB1 & HB2).
    simpl in Hlen.
    pose proof (half_inject_nat (length run)) as HA.
    pose proof (half_inject_nat n) as HAn.
    pose proof (half_inject_nat (length run + 0)) as HA0.
    assert (Hkn : inject_nat (length run) <= inject_nat n) by (apply inject_nat_le; lia).
    assert (Hk0 : inject_nat (length run) <= inject_nat (length run + 0))
      by (apply inject_nat_le; lia).
    pose proof (offset_scale_le (inject_nat (length run) / 2) (inject_nat n / 2 + 1)
                  ltac:(lra)) as Hm1.
    pose proof (offset_scale_le (inject_nat (length run) / 2 + 1)
                  (inject_nat (length run + 0) / 2 + 1) ltac:(lra)) as Hm2.
    pose proof (offset_scale_le 0 (inject_nat (length run + 0) / 2 + 1)) as Hm3.
    pose proof (inject_nat_nonneg (length run + 0)) as Hnn.
    specialize (Hm3 ltac:(lra)).
    split.
    + apply StronglySorted_lt_app; [exact HB1 | repeat constructor|].
      intros b r Hb [<-|[]]. rewrite Forall_forall in HB2.
      destruct (HB2 b Hb) as [_ Hb2]. lra.
    + apply Forall_app. split.
      * eapply Forall_impl; [|exact HB2]. intros t [H1 _]. lra.
      * constructor; [lra | constructor].
  - cbn [app groups_from]. cbn [app] in Hsep.
    destruct (separated_tail _ _ _ _ Hsep) as (Hsep1 & Hsep2).
    inversion Hl0 as [|? ? Hxw Hl0']; subst. cbn [length] in Hlen.
    destruct (Qeq_bool cur x) eqn:E.
    + replace (length run + length (x :: l0))%nat
        with (length (run ++ [x]) + length l0)%nat
        by (rewrite length_app; simpl; lia).
      apply IH; try assumption.
      * apply Forall_app. split; [exact Hrun | constructor; [exact E | constructor]].
      * destruct run; discriminate.
      * rewrite length_app; simpl; lia.
    + destruct (separated_far D cur x (l0 ++ [w]) ltac:(lra) Hsep E) as (Hx & _).
      rewrite spread_groups_cons by apply groups_from_nonempty.
      destruct (group_block_facts cur run Hrun Hne) as (HB1 & HB2).
      destruct (IH x [x] Hsep2 Hxw Hl0'
                  ltac:(constructor; [apply Qeq_bool_refl | constructor])
                  ltac:(discriminate) ltac:(simpl; lia)) as (HR1 & HR2).
      cbn [length] in HR2. cbn [length].
      set (k := length run) in *. set (m := length l0) in *.
      pose proof (half_inject_nat k) as HAk.
      pose proof (half_inject_nat n) as HAn.
      pose proof (half_inject_nat (1 + m)) as HAm.
      pose proof (half_inject_nat (k + S m)) as HAkm.
      pose proof (inject_nat_nonneg k) as Hk0.
      pose proof (inject_nat_nonneg (1 + m)) as Hm0.
      assert (Hsum : inject_nat (k + S m) == inject_nat k + inject_nat (1 + m)).
      { replace (k + S m)%nat with (k + (1 + m))%nat by lia.
        unfold inject_nat. rewrite Nat2Z.inj_add. rewrite inject_Z_plus. reflexivity. }
      assert (Hkn : inject_nat (k + S m) + 1 <= inject_nat n).
      { rewrite <- inject_nat_S. apply inject_nat_le. lia. }
      pose proof (offset_scale_le
                    (inject_nat k / 2 + (inject_nat (1 + m) / 2 + 1))
                    (inject_nat n / 2 + 1) ltac:(lra)) as Hm1.
      pose proof (offset_scale_le (inject_nat k / 2 + 1)
                    (inject_nat (k + S m) / 2 + 1) ltac:(lra)) as Hm2.
      pose proof (offset_scale_le (inject_nat (1 + m) / 2 + 1)
                    (inject_nat (k + S m) / 2 + 1) ltac:(lra)) as Hm3.
      rewrite Qmult_plus_distr_r in Hm1.
      split.
      * apply StronglySorted_lt_app; [exact HB1 | exact HR1|].
        intros b r Hb Hr. rewrite Forall_forall in HB2, HR2.
        destruct (HB2 b Hb) as [_ Hb2]. specialize (HR2 r Hr). cbv beta in HR2. lra.
      * apply Forall_app. split.
        -- eapply Forall_impl; [|exact HB2]. intros t [H1 _]. lra.
        -- eapply Forall_impl; [|exact HR2]. intros t H1. cbv beta in H1. lra.
Qed.

End SpreadSorted.

(** ** [np.unique] on an array that is already strictly increasing *)

Lemma uniq_from_strict (l : list Q) : forall s prev,
  StronglySorted Qlt l -> Forall (fun a => prev < a) l ->
  uniq_from prev (combine l (seq s (length l))) = combine l (seq s (length l)).
Proof.
  induction l as [|a l IH]; intros s prev Hs Hp; simpl; [reflexivity|].
  inversion Hs as [|? ? Hs' Ha]; subst. inversion Hp as [|? ? Hpa _]; subst.
  rewrite (gt_not_eqb prev a Hpa). f_equal. now apply IH.
Qed.

Lemma map_fst_combine_seq (l : list Q) : forall s,
  map fst (combine l (seq s (length l))) = l.
Proof.
  induction l as [|a l IH]; intro s; simpl; [reflexivity|]. now rewrite IH.
Qed.

Lemma np_unique_strict_id (l : list Q) : StronglySorted Qlt l -> np_unique l = l.
Proof.
  intro Hs. unfold np_unique.
  rewrite np_unique_index_sorted by now apply StronglySorted_lt_le.
  cbn [fst]. destruct l as [|a l]; [reflexivity|].
  inversion Hs as [|? ? Hs' Ha]; subst.
  cbn [length seq combine uniq_first].
  rewrite uniq_from_strict by assumption.
  cbn [map fst]. now rewrite map_fst_combine_seq.
Qed.

(** ** Every entry stays close to the time it came from *)

Lemma near_refl (k : nat) (t : Q) : near k t t.
Proof.
  pose proof (inject_nat_nonneg k) as Hk. pose proof (half_inject_nat k) as HA.
  pose proof (offset_scale_le 0 (inject_nat k / 2 + 1) ltac:(lra)).
  pose proof (offset_scale_le 0 (inject_nat k / 2) ltac:(lra)).
  unfold near. split; lra.
Qed.

Lemma spread_from_near (k : nat) (g : list Q) : forall j,
  (j + length g <= k)%nat -> Forall2 (near k) g (spread_from k j g).
Proof.
  induction g as [|a g IH]; intros j Hk; simpl; [constructor|].
  simpl in Hk. constructor; [|apply IH; lia].
  pose proof (inject_nat_nonneg j) as Hj.
  assert (Hjk : inject_nat (S j) <= inject_nat k) by (apply inject_nat_le; lia).
  rewrite inject_nat_S in Hjk.
  pose proof (half_inject_nat k) as HA.
  pose proof (offset_scale_le (- (inject_nat k / 2 + 1))
                (inject_nat j - inject_nat k / 2 - 1) ltac:(lra)) as H1.
  pose proof (offset_scale_le (inject_nat j - inject_nat k / 2 - 1)
                (inject_nat k / 2) ltac:(lra)) as H2.
  unfold near. split; lra.
Qed.

Lemma Qeq_bool_left (a c y : Q) : a == c -> Qeq_bool a y = Qeq_bool c y.
Proof.
  intro H. destruct (Qeq_bool c y) eqn:E.
  - apply Qeq_bool_iff in E. apply Qeq_bool_iff. now rewrite H.
  - apply Qeq_bool_neq in E. destruct (Qeq_bool a y) eqn:E'; [|reflexivity].
    apply Qeq_bool_iff in E'. exfalso. apply E. now rewrite <- H.
Qed.

Lemma count_eq_ext (V : list Q) (a c : Q) : a == c -> count_eq V a = count_eq V c.
Proof.
  intro H. unfold count_eq. f_equal. apply filter_ext.
  intro y. now apply Qeq_bool_left.
Qed.

Lemma count_eq_block (X R Y : list Q) (c : Q) :
  Forall (fun a => Qeq_bool c a = false) X ->
  Forall (fun a => Qeq_bool c a = true) R ->
  Forall (fun a => Qeq_bool c a = false) Y ->
  count_eq (X ++ R ++ Y) c = length R.
Proof.
  intros HX HR HY. unfold count_eq.
  now rewrite !filter_app, (filter_none _ X HX), (filter_all _ R HR),
    (filter_none _ Y HY), app_nil_r.
Qed.

Lemma Forall2_Forall_impl {A B : Type} (P : A -> Prop) (R R' : A -> B -> Prop)
    (l : list A) (l' : list B) :
  (forall a b, P a -> R a b -> R' a b) ->
  Forall P l -> Forall2 R l l' -> Forall2 R' l l'.
Proof.
  intros Himp HP H. induction H as [|a b l l' Hab _ IH]; [constructor|].
  inversion HP; subst. constructor; [now apply Himp | now apply IH].
Qed.

Section SpreadNear.

Variables (D : Q) (V : list Q).
Hypothesis D_pos : 0 < D.

Lemma group_block_near (X run Y : list Q) (cur : Q) :
  V = X ++ run ++ Y ->
  Forall (fun a => Qeq_bool cur a = false) X ->
  Forall (fun a => Qeq_bool cur a = true) run ->
  Forall (fun a => Qeq_bool cur a = false) Y ->
  Forall2 (fun t t' => near (count_eq V t) t t') run
          (if (2 <=? length run)%nat then spread run else run).
Proof.
  intros HV HX Hrun HY.
  assert (Hcnt : Forall (fun a => count_eq V a = length run) run).
  { apply Forall_forall. intros a Ha.
    pose proof (proj1 (Forall_forall _ _) Hrun a Ha) as Hca.
    cbv beta in Hca. apply Qeq_bool_iff in Hca.
    rewrite (count_eq_ext V a cur) by (symmetry; exact Hca).
    rewrite HV. now apply count_eq_block. }
  destruct (2 <=? length run)%nat.
  - eapply Forall2_Forall_impl; [|exact Hcnt|apply (spread_from_near (length run) run 0)].
    + intros a b Ha Hab. cbv beta in Ha. now rewrite Ha.
    + simpl. lia.
  - clear. induction run; constructor; [apply near_refl | assumption].
Qed.

Lemma spread_groups_near (l : list Q) : forall (X run : list Q) (cur : Q),
  V = X ++ run ++ l ->
  separated D (cur :: l) ->
  Forall (fun a => Qeq_bool cur a = true) run ->
  Forall (fun x => x < cur) X ->
  Forall2 (fun t t' => near (count_eq V t) t t') (run ++ l)
          (spread_groups (groups_from cur run l)).
Proof.
  induction l as [|x l IH]; intros X run cur HV Hsep Hrun HX.
  - cbn [groups_from spread_groups]. rewrite app_nil_r.
    clear. induction run; constructor; [apply near_refl | assumption].
  - cbn [groups_from].
    destruct (separated_tail _ _ _ _ Hsep) as (Hsep1 & Hsep2).
    destruct (Qeq_bool cur x) eqn:E.
    + replace (run ++ x :: l) with ((run ++ [x]) ++ l)
        by (rewrite <- app_assoc; reflexivity).
      apply (IH X); [now rewrite <- app_assoc | exact Hsep1 | | exact HX].
      apply Forall_app. split; [exact Hrun | constructor; [exact E | constructor]].
    + destruct (separated_far D cur x l ltac:(lra) Hsep E) as (Hx & HY).
      rewrite spread_groups_cons by apply groups_from_nonempty.
      assert (HXc : Forall (fun a => Qeq_bool cur a = false) X).
      { eapply Forall_impl; [|exact HX]. intros a Ha. cbv beta in Ha.
        now apply lt_not_eqb. }
      apply Forall2_app.
      * now apply (group_block_near X run (x :: l) cur).
      * apply (IH (X ++ run) [x] x).
        -- now rewrite <- app_assoc.
        -- exact Hsep2.
        -- constructor; [apply Qeq_bool_refl | constructor].
        -- apply Forall_app. split.
           ++ eapply Forall_impl; [|exact HX]. intros a Ha. cbv beta in Ha. lra.
           ++ eapply Forall_impl; [|exact Hrun]. intros a Ha. cbv beta in Ha.
              apply Qeq_bool_iff in Ha. lra.
Qed.

End SpreadNear.

(** ** The array of unique spike times that [getTempOffsetOne] returns *)

Lemma unique_spike_times_spread (mid : list Q) (W : Q) :
  let v := 0 :: mid ++ [W] in
  0 < W ->
  StronglySorted Qle v ->
  Forall (fun t => 0 < t /\ t < W) mid ->
  separated (dblUniqueOffset * (inject_nat (length v) / 2 + 1)) v ->
  unique_spike_times v = Ret (spread_groups (groups v)) /\
  StronglySorted Qlt (spread_groups (groups v)) /\
  Forall2 (fun t t' => near (count_eq v t) t t') v (spread_groups (groups v)).
Proof.
  intros v HW Hs Hmid Hsep.
  set (D := dblUniqueOffset * (inject_nat (length v) / 2 + 1)) in *.
  assert (HD : dblUniqueOffset * (inject_nat (length v) / 2 + 1) <= D)
    by apply Qle_refl.
  assert (Hlen : length v = (2 + length mid)%nat).
  { unfold v. simpl. rewrite length_app. simpl. lia. }
  assert (Hrun : Forall (fun a => Qeq_bool 0 a = true) [0])
    by (constructor; [reflexivity | constructor]).
  assert (Hfold : fold_left jitter_group (dup_values v) v = spread_groups (groups v)).
  { apply (fold_jitter_groups D (length v) HD (mid ++ [W]) [] [0] 0);
      [exact Hsep | exact Hrun | | constructor].
    rewrite Hlen, length_app. simpl. lia. }
  assert (Hsorted : StronglySorted Qlt (spread_groups (groups v))).
  { apply (spread_groups_sorted D (length v) W HD mid 0 [0]);
      [exact Hsep | exact HW | | exact Hrun | discriminate | rewrite Hlen; simpl; lia].
    eapply Forall_impl; [|exact Hmid]. intros t [_ Ht]. exact Ht. }
  assert (Hnu : np_unique (fold_left jitter_group (dup_values v) v)
                = spread_groups (groups v)).
  { rewrite Hfold. now apply np_unique_strict_id. }
  split; [|split; [exact Hsorted|]].
  - rewrite (unique_spike_times_sorted v Hs) by discriminate.
    destruct (dup_values v) eqn:E; [cbn [fold_left] in Hnu|]; now rewrite Hnu.
  - apply (spread_groups_near D v (D_pos D (length v) HD) (mid ++ [W]) [] [0] 0);
      [reflexivity | exact Hsep | exact Hrun | constructor].
Qed.

(** The duplicate-spike step in exact arithmetic.  Let [v] be the array of
    relative spike times
    that [getSpikeT] builds (with the 0 and the window length around it), and
    let its distinct values be more than [eps * (n/2 + 1)] apart, [n] the size
    of [v] and [eps] the machine epsilon.  Then [getTempOffsetOne] returns, and
    its array of unique spike times
    - is [v] with every group of [k >= 2] identical times [t] replaced by
      [t + eps * (j - k/2 - 1)] for [j = 0 .. k-1];
    - has as many entries as [v]: no two entries merge;
    - is strictly increasing, entry by entry in the order of [v];
    - has each entry between [t - eps * (k/2 + 1)] and [t + eps * k/2] of the
      time [t] at its rank, [k] the number of entries of [v] equal to [t]. *)
Lemma getTempOffsetOne_spreads_duplicates (sp evs : list Q) (W : Q) (v : list Q) :
  0 < W ->
  getSpikeT sp evs W = Ret v ->
  separated (dblUniqueOffset * (inject_nat (length v) / 2 + 1)) v ->
  exists o,
    getTempOffsetOne sp evs W = Ret o /\
    vecThisSpikeTimes o = spread_groups (groups v) /\
    length (vecThisSpikeTimes o) = length v /\
    StronglySorted Qlt (vecThisSpikeTimes o) /\
    Forall2 (fun t t' => near (count_eq v t) t t') v (vecThisSpikeTimes o).
Proof.
  intros HW HG Hsep. rewrite getSpikeT_spec in HG. injection HG as <-.
  cbn [app] in Hsep |- *.
  destruct (unique_spike_times_spread
              (np_sort (flat_map (trial_spikes sp W) evs)) W HW
              (getSpikeT_sorted sp evs W HW)) as (Hu & Hsorted & Hnear).
  { apply Forall_forall. intros t Ht. now apply (flat_map_trial_bounds sp evs). }
  { exact Hsep. }
  pose proof (Forall2_length Hnear) as Hlen.
  unfold getTempOffsetOne. rewrite getSpikeT_spec. cbn [bind app].
  rewrite Hu. cbn [bind].
  destruct (length (spread_groups _) =? 0)%nat eqn:E.
  - apply Nat.eqb_eq in E. rewrite <- Hlen in E. discriminate.
  - eexists. split; [reflexivity|]. cbn [vecThisSpikeTimes].
    repeat split; [now symmetry | exact Hsorted | exact Hnear].
Qed.

Lemma getTempOffsetOne_spreads_duplicates_witness :
  exists o,
    getTempOffsetOne [1 # 2; 1 # 2] [0] 1 = Ret o /\
    vecThisSpikeTimes o = spread_groups (groups [0; 1 # 2; 1 # 2; 1]) /\
    length (vecThisSpikeTimes o) = 4%nat /\
    StronglySorted Qlt (vecThisSpikeTimes o) /\
    Forall2 (fun t t' => near (count_eq [0; 1 # 2; 1 # 2; 1] t) t t')
            [0; 1 # 2; 1 # 2; 1] (vecThisSpikeTimes o).
Proof.
  apply (getTempOffsetOne_spreads_duplicates [1 # 2; 1 # 2] [0] 1 [0; 1 # 2; 1 # 2; 1]).
  - reflexivity.
  - vm_compute. reflexivity.
  - unfold separated.
    repeat (apply SSorted_cons || apply SSorted_nil
            || apply Forall_cons || apply Forall_nil);
      first [left; reflexivity | right; reflexivity].
Defined.

(** In exact arithmetic two identical spikes at 1/2 come back as
    [1/2 - 2 eps] and [1/2 - eps]: only one of the returned times is within
    one epsilon of 1/2.  And with a spike one epsilon below two identical
    spikes at 1, the moved pair lands on and below that spike: five entries
    come back as four, and the earlier spike is no longer the earlier one. *)
Lemma getTempOffsetOne_duplicates_leave_epsilon :
  (exists o,
     getTempOffsetOne [1 # 2; 1 # 2] [0] 1 = Ret o /\
     Forall2 Qeq (vecThisSpikeTimes o)
       [0; (1 # 2) - 2 * dblUniqueOffset; (1 # 2) - dblUniqueOffset; 1] /\
     length (filter (fun t' => Qle_bool (Qabs (t' - (1 # 2))) dblUniqueOffset)
                    (vecThisSpikeTimes o)) = 1%nat) /\
  (exists o,
     getSpikeT [1 - dblUniqueOffset; 1; 1] [0] 2
       = Ret [0; 1 - dblUniqueOffset; 1; 1; 2] /\
     getTempOffsetOne [1 - dblUniqueOffset; 1; 1] [0] 2 = Ret o /\
     Forall2 Qeq (vecThisSpikeTimes o)
       [0; 1 - 2 * dblUniqueOffset; 1 - dblUniqueOffset; 2] /\
     length (vecThisSpikeTimes o) = 4%nat).
Proof.
  split.
  - eexists. split; [vm_compute; reflexivity|]. cbn [vecThisSpikeTimes]. split.
    + repeat constructor.
    + vm_compute. reflexivity.
  - eexists. split; [vm_compute; reflexivity|].
    split; [vm_compute; reflexivity|]. cbn [vecThisSpikeTimes]. split.
    + repeat constructor.
    + reflexivity.
Qed.

(** ** The duplicate-spike step in binary64 *)

Section Binary64Facts.

Import PrimFloat.
Local Open Scope float_scope.

(** C7.  In binary64 the duplicate-spike step of [getTempOffsetOne] does not
    give [k] distinct values within one epsilon of the original time.
    - Two identical spikes 10 after the event onset (window 20): both
      offsets, [-2 eps] and [-eps], are rounded away in the sum, the two
      entries stay equal and the second [np.unique] merges them; the
      unique-time array has one entry for the group of two.
    - Two identical spikes 0.5 after the event onset (window 1): the array
      holds [0.5 - 2 eps] and [0.5 - eps]; the offsets
      [eps * (j - k/2 - 1)] are not placed around zero, and the first entry
      is two epsilons from the original time.
    - Two identical spikes 3 after the event onset (window 20): one entry
      moves by two epsilons, the other stays, rounded back to 3. *)
Theorem getTempOffsetOne_binary64_duplicates :
  (Binary64.getSpikeT [10; 10] [0] 20 = Ret [0; 10; 10; 20] /\
   Binary64.getTempOffsetOne_times [10; 10] [0] 20 = Ret [0; 10; 20]) /\
  (Binary64.getSpikeT [0.5; 0.5] [0] 1 = Ret [0; 0.5; 0.5; 1] /\
   Binary64.getTempOffsetOne_times [0.5; 0.5] [0] 1
     = Ret [0; 0.5 - 2 * Binary64.dblUniqueOffset;
            0.5 - Binary64.dblUniqueOffset; 1] /\
   (Binary64.dblUniqueOffset <? 0.5 - (0.5 - 2 * Binary64.dblUniqueOffset)) = true) /\
  (Binary64.getSpikeT [3; 3] [0] 20 = Ret [0; 3; 3; 20] /\
   Binary64.getTempOffsetOne_times [3; 3] [0] 20
     = Ret [0; 3 - 2 * Binary64.dblUniqueOffset; 3; 20]).
Proof.
  repeat split; vm_compute; reflexivity.
Qed.

End Binary64Facts.

(* ================================================================== *)
(** * Further properties of the code *)
(* ================================================================== *)

(** ** findfirst *)

Lemma findfirst_None (l : list bool) :
  findfirst l = None <-> Forall (fun b => b = false) l.
Proof.
  induction l as [|b l IH]; simpl.
  - split; [constructor | reflexivity].
  - destruct b.
    + split; [discriminate | intro H; inversion H; discriminate].
    + destruct (findfirst l) eqn:E; simpl.
      * split; [discriminate|]. intro H. inversion H as [|? ? _ Hl]; subst.
        apply IH in Hl. discriminate.
      * split; [|reflexivity]. intros _. constructor; [reflexivity|].
        now apply IH.
Qed.

Lemma findfirst_before (l : list bool) : forall i j,
  findfirst l = Some i -> (j < i)%nat -> nth_error l j = Some false.
Proof.
  induction l as [|b l IH]; intros i j H Hj; simpl in H; [discriminate|].
  destruct b.
  - injection H as <-. lia.
  - destruct (findfirst l) as [i'|] eqn:E; simpl in H; [|discriminate].
    injection H as <-. destruct j as [|j]; [reflexivity|].
    simpl. apply (IH i'); [reflexivity | lia].
Qed.

(** X1.  [findfirst] returns the index of the first true entry: the entry at
    the returned index is true and every entry before it is false; it returns
    [None] exactly when no entry is true (in particular on an empty array). *)
Theorem findfirst_first_true (indArray : list bool) :
  (forall i, findfirst indArray = Some i <->
             nth_error indArray i = Some true /\
             forall j, (j < i)%nat -> nth_error indArray j = Some false) /\
  (findfirst indArray = None <-> forall i, nth_error indArray i <> Some true).
Proof.
  split.
  - intro i. split.
    + intro H. split; [now apply findfirst_true|].
      intros j Hj. now apply (findfirst_before indArray i).
    + intros [Ht Hb]. destruct (findfirst indArray) as [k|] eqn:E.
      * f_equal. pose proof (findfirst_true _ _ E) as Hk.
        pose proof (findfirst_min _ _ _ E Ht) as Hle.
        destruct (Nat.eq_dec k i) as [|Hne]; [assumption|].
        assert (Hlt : (k < i)%nat) by lia.
        specialize (Hb k Hlt). congruence.
      * apply findfirst_None in E. rewrite Forall_forall in E.
        apply nth_error_In in Ht. apply E in Ht. discriminate.
  - rewrite findfirst_None. split.
    + intros H i Hi. rewrite Forall_forall in H.
      apply nth_error_In in Hi. apply H in Hi. discriminate.
    + intro H. apply Forall_forall. intros b Hb.
      destruct (In_nth_error _ _ Hb) as [i Hi].
      destruct b; [|reflexivity]. exfalso. now apply (H i).
Qed.

(** ** getSpikeT *)

Lemma trial_spikes_In (sp : list Q) (W e t : Q) :
  In t (trial_spikes sp W e) <->
  exists s, In s sp /\ e < s /\ s < e + W /\ t = s - e.
Proof.
  unfold trial_spikes. rewrite in_map_iff. split.
  - intros (s & <- & Hs). apply filter_In in Hs. destruct Hs as (Hin & Hb).
    apply andb_true_iff in Hb. destruct Hb as (H1 & H2).
    apply Qltb_lt in H1, H2. exists s. repeat split; assumption.
  - intros (s & Hin & H1 & H2 & ->). exists s. split; [reflexivity|].
    apply filter_In. split; [exact Hin|]. apply andb_true_iff.
    split; now apply Qltb_lt.
Qed.

(** X2.  [getSpikeT] returns on every input: doubling the pre-allocated
    array once per trial is always enough.  The array returned is 0, then in
    ascending order the time [s - e] of every pair of a spike [s] and an
    event [e] with [e < s < e + dblUseMaxDur] (a spike counts once for every
    window it lies in), then [dblUseMaxDur]. *)
Theorem getSpikeT_relative_times (vecSpikeTimes vecEventTimes : list Q)
    (dblUseMaxDur : Q) :
  exists mid,
    getSpikeT vecSpikeTimes vecEventTimes dblUseMaxDur
      = Ret (0 :: mid ++ [dblUseMaxDur]) /\
    StronglySorted Qle mid /\
    Permutation mid
      (flat_map (fun e => map (fun s => s - e)
                            (filter (fun s => Qltb s (e + dblUseMaxDur) && Qltb e s)
                                    vecSpikeTimes))
                vecEventTimes) /\
    (forall t, In t mid <->
       exists s e, In s vecSpikeTimes /\ In e vecEventTimes /\
                   e < s /\ s < e + dblUseMaxDur /\ t = s - e).
Proof.
  exists (np_sort (flat_map (trial_spikes vecSpikeTimes dblUseMaxDur) vecEventTimes)).
  split; [apply getSpikeT_spec|]. split; [apply np_sort_sorted|].
  split; [exact (np_sort_perm _)|].
  intro t. rewrite np_sort_In, in_flat_map. split.
  - intros (e & He & Ht). apply trial_spikes_In in Ht.
    destruct Ht as (s & Hs & H1 & H2 & ->). exists s, e. repeat split; assumption.
  - intros (s & e & Hs & He & H1 & H2 & ->). exists e. split; [exact He|].
    apply trial_spikes_In. exists s. repeat split; assumption.
Qed.

(** X3.  For a window of positive length the array [getSpikeT] returns is
    ascending, starts with 0, ends with [dblUseMaxDur] and has every entry
    between the two strictly inside the window.  For a window of length zero
    or less no spike is assigned to any trial, and the array is
    [[0, dblUseMaxDur]]. *)
Theorem getSpikeT_window (vecSpikeTimes vecEventTimes : list Q) (dblUseMaxDur : Q) :
  (0 < dblUseMaxDur ->
   exists mid,
     getSpikeT vecSpikeTimes vecEventTimes dblUseMaxDur
       = Ret (0 :: mid ++ [dblUseMaxDur]) /\
     StronglySorted Qle (0 :: mid ++ [dblUseMaxDur]) /\
     Forall (fun t => 0 < t /\ t < dblUseMaxDur) mid) /\
  (dblUseMaxDur <= 0 ->
   getSpikeT vecSpikeTimes vecEventTimes dblUseMaxDur = Ret [0; dblUseMaxDur]).
Proof.
  split.
  - intro HW.
    exists (np_sort (flat_map (trial_spikes vecSpikeTimes dblUseMaxDur) vecEventTimes)).
    split; [apply getSpikeT_spec|]. split; [now apply getSpikeT_sorted|].
    apply Forall_forall. intros t Ht.
    now apply (flat_map_trial_bounds vecSpikeTimes vecEventTimes).
  - intro HW. rewrite getSpikeT_spec.
    assert (E : flat_map (trial_spikes vecSpikeTimes dblUseMaxDur) vecEventTimes = []).
    { destruct (flat_map _ _) as [|t l] eqn:E; [reflexivity|]. exfalso.
      assert (Ht : In t (flat_map (trial_spikes vecSpikeTimes dblUseMaxDur)
                                  vecEventTimes)) by (rewrite E; now left).
      apply in_flat_map in Ht. destruct Ht as (e & _ & Ht).
      apply trial_spikes_bounds in Ht. lra. }
    rewrite E. reflexivity.
Qed.

Lemma getSpikeT_window_witness :
  exists mid,
    getSpikeT [1 # 2; 3 # 2] [0; 1] 1 = Ret (0 :: mid ++ [1]) /\
    StronglySorted Qle (0 :: mid ++ [1]) /\
    Forall (fun t => 0 < t /\ t < 1) mid.
Proof.
  apply (proj1 (getSpikeT_window [1 # 2; 3 # 2] [0; 1] 1)). reflexivity.
Defined.

(** ** getTempOffsetOne *)

Lemma jitter_masked_keeps (k : nat) (x a : Q) (v : list Q) : forall j,
  In a v -> Qeq_bool x a = false -> In a (jitter_masked k j x v).
Proof.
  induction v as [|b v IH]; intros j Hin Hx; [contradiction|].
  simpl. destruct Hin as [->|Hin].
  - rewrite Hx. now left.
  - destruct (Qeq_bool x b); right; now apply IH.
Qed.

Lemma fold_jitter_keeps (L : list Q) (a : Q) : forall v,
  In a v -> Forall (fun x => Qeq_bool x a = false) L ->
  In a (fold_left jitter_group L v).
Proof.
  induction L as [|x L IH]; intros v Hin HL; [exact Hin|].
  inversion HL as [|? ? Hx HL']; subst. simpl. apply IH; [|exact HL'].
  unfold jitter_group. now apply jitter_masked_keeps.
Qed.

Lemma dup_values_from_In (l0 : list Q) (w : Q) : forall cur cnt x,
  In x (dup_values_from cur cnt (l0 ++ [w])) -> x = cur \/ In x l0.
Proof.
  induction l0 as [|y l0 IH]; intros cur cnt x H; cbn [app dup_values_from] in H.
  - destruct (Qeq_bool cur w); [contradiction|].
    rewrite app_nil_r in H. destruct (2 <=? cnt)%nat; [|contradiction].
    destruct H as [<-|[]]. now left.
  - destruct (Qeq_bool cur y).
    + destruct (IH _ _ _ H) as [->|Hx]; [now left | right; now right].
    + apply in_app_or in H. destruct H as [H|H].
      * destruct (2 <=? cnt)%nat; [|contradiction]. destruct H as [<-|[]]. now left.
      * destruct (IH _ _ _ H) as [->|Hx]; right; [now left | now right].
Qed.

Lemma dup_values_inside (mid : list Q) (W x : Q) :
  Forall (fun t => 0 < t /\ t < W) mid ->
  In x (dup_values (0 :: mid ++ [W])) -> In x mid.
Proof.
  intros Hmid H. cbn [dup_values] in H.
  destruct mid as [|m mid].
  - cbn [app dup_values_from] in H. destruct (Qeq_bool 0 W); contradiction.
  - inversion Hmid as [|? ? [Hm _] _]; subst.
    cbn [app dup_values_from] in H. rewrite (gt_not_eqb 0 m Hm) in H.
    cbn [Nat.leb app] in H.
    destruct (dup_values_from_In _ _ _ _ _ H) as [->|Hx]; [now left | now right].
Qed.

Lemma two_distinct_length {A : Type} (a b : A) (l : list A) :
  In a l -> In b l -> a <> b -> (2 <= length l)%nat.
Proof.
  intros Ha Hb Hab. destruct l as [|x [|y l]]; simpl in *; [contradiction| |lia].
  destruct Ha as [<-|[]], Hb as [<-|[]]. congruence.
Qed.

(** What [getTempOffsetOne] computes its curve from: the unique values of an
    array that still holds the 0 and the window length. *)
Lemma unique_spike_times_form (mid : list Q) (W : Q) :
  0 < W ->
  StronglySorted Qle (0 :: mid ++ [W]) ->
  Forall (fun t => 0 < t /\ t < W) mid ->
  exists A, unique_spike_times (0 :: mid ++ [W]) = Ret (np_unique A) /\
            In 0 A /\ In W A.
Proof.
  intros HW Hs Hmid.
  exists (fold_left jitter_group (dup_values (0 :: mid ++ [W])) (0 :: mid ++ [W])).
  split.
  - rewrite (unique_spike_times_sorted _ Hs) by discriminate.
    destruct (dup_values (0 :: mid ++ [W])); reflexivity.
  - assert (Hin : forall x, In x (dup_values (0 :: mid ++ [W])) -> 0 < x /\ x < W).
    { intros x Hx. apply (dup_values_inside mid W x Hmid) in Hx.
      rewrite Forall_forall in Hmid. now apply Hmid. }
    split; apply fold_jitter_keeps.
    + now left.
    + apply Forall_forall. intros x Hx. apply Hin in Hx.
      apply lt_not_eqb. lra.
    + right. apply in_or_app. right. now left.
    + apply Forall_forall. intros x Hx. apply Hin in Hx.
      apply gt_not_eqb. lra.
Qed.

Lemma linspace_fracs (n i : nat) (x : Q) :
  nth_error (np_linspace (1 / inject_nat n) 1 n) i = Some x ->
  x == (inject_nat i + 1) / inject_nat n.
Proof.
  destruct n as [|[|n]]; intro H.
  - destruct i; discriminate.
  - destruct i as [|i]; [|destruct i; discriminate].
    injection H as <-. reflexivity.
  - assert (Hi : (i < S (S n))%nat).
    { rewrite <- (np_linspace_length (1 / inject_nat (S (S n))) 1 (S (S n))).
      apply nth_error_Some. rewrite H. discriminate. }
    unfold np_linspace in H.
    rewrite nth_error_map, nth_error_seq in H.
    apply Nat.ltb_lt in Hi. rewrite Hi in H.
    cbn [option_map Nat.add] in H. injection H as <-.
    replace (S (S n) - 1)%nat with (S n) by lia.
    pose proof (inject_nat_S (S n)) as H2. pose proof (inject_nat_S n) as H1.
    pose proof (inject_nat_nonneg n) as H0.
    rewrite H2, H1. field. split; lra.
Qed.

Lemma nth_error_vsub (a b : list Q) (i : nat) (f l : Q) :
  nth_error a i = Some f -> nth_error b i = Some l ->
  nth_error (vsub a b) i = Some (f - l).
Proof.
  revert b i. induction a as [|x a IH]; intros b i Hf Hl.
  - destruct i; discriminate.
  - destruct b as [|y b]; [destruct i; discriminate|].
    destruct i as [|i]; simpl in *; [congruence | now apply IH].
Qed.

(** X4.  For a window of positive length [getTempOffsetOne] returns (it never
    divides by zero), and its four arrays have one length [n >= 2].  The
    spike times are strictly increasing, the spike fractions are
    [1/n, 2/n, ..., 1], the linear fractions are the spike times over the
    window length, and the deviation is their difference minus its mean. *)
Theorem getTempOffsetOne_curve (vecSpikeTimes vecEventTimes : list Q)
    (dblUseMaxDur : Q) :
  0 < dblUseMaxDur ->
  exists o,
    getTempOffsetOne vecSpikeTimes vecEventTimes dblUseMaxDur = Ret o /\
    (2 <= length (vecThisSpikeTimes o))%nat /\
    length (vecThisDeviation o) = length (vecThisSpikeTimes o) /\
    length (vecThisSpikeFracs o) = length (vecThisSpikeTimes o) /\
    length (vecThisFracLinear o) = length (vecThisSpikeTimes o) /\
    StronglySorted Qlt (vecThisSpikeTimes o) /\
    (forall i x, nth_error (vecThisSpikeFracs o) i = Some x ->
       x == (inject_nat i + 1) / inject_nat (length (vecThisSpikeTimes o))) /\
    (forall i t, nth_error (vecThisSpikeTimes o) i = Some t ->
       nth_error (vecThisFracLinear o) i = Some (t / dblUseMaxDur)) /\
    (forall i f l, nth_error (vecThisSpikeFracs o) i = Some f ->
       nth_error (vecThisFracLinear o) i = Some l ->
       nth_error (vecThisDeviation o) i
       = Some (f - l - np_mean (vsub (vecThisSpikeFracs o) (vecThisFracLinear o)))).
Proof.
  intro HW.
  destruct (unique_spike_times_form
              (np_sort (flat_map (trial_spikes vecSpikeTimes dblUseMaxDur)
                                 vecEventTimes)) dblUseMaxDur HW
              (getSpikeT_sorted vecSpikeTimes vecEventTimes dblUseMaxDur HW))
    as (A & HA & H0 & HWin).
  { apply Forall_forall. intros t Ht.
    now apply (flat_map_trial_bounds vecSpikeTimes vecEventTimes). }
  assert (Hlen : (2 <= length (np_unique A))%nat).
  { destruct (np_unique_complete A 0 H0) as (y0 & Hy0 & E0).
    destruct (np_unique_complete A dblUseMaxDur HWin) as (yW & HyW & EW).
    apply (two_distinct_length y0 yW); [assumption | assumption|].
    intros ->. lra. }
  unfold getTempOffsetOne. rewrite getSpikeT_spec. cbn [bind app].
  rewrite HA. cbn [bind].
  destruct (length (np_unique A) =? 0)%nat eqn:E;
    [apply Nat.eqb_eq in E; lia|].
  eexists. split; [reflexivity|]. cbn [vecThisSpikeTimes vecThisDeviation
                                       vecThisSpikeFracs vecThisFracLinear].
  assert (L1 : length (np_linspace (1 / inject_nat (length (np_unique A))) 1
                         (length (np_unique A))) = length (np_unique A))
    by apply np_linspace_length.
  assert (L2 : length (map (fun t => t / dblUseMaxDur) (np_unique A))
               = length (np_unique A)) by apply length_map.
  split; [exact Hlen|].
  split; [rewrite center_length, vsub_length, L1, L2; apply Nat.min_id|].
  split; [exact L1|]. split; [exact L2|].
  split; [apply np_unique_sorted|].
  split; [intros i x Hx; now apply linspace_fracs|].
  split.
  - intros i t Ht. now rewrite nth_error_map, Ht.
  - intros i f l Hf Hl. unfold center. rewrite nth_error_map.
    now rewrite (nth_error_vsub _ _ _ _ _ Hf Hl).
Qed.

Lemma getTempOffsetOne_curve_witness :
  exists o,
    getTempOffsetOne [1 # 2; 3 # 2] [0; 1] 1 = Ret o /\
    (2 <= length (vecThisSpikeTimes o))%nat /\
    length (vecThisDeviation o) = length (vecThisSpikeTimes o) /\
    length (vecThisSpikeFracs o) = length (vecThisSpikeTimes o) /\
    length (vecThisFracLinear o) = length (vecThisSpikeTimes o) /\
    StronglySorted Qlt (vecThisSpikeTimes o) /\
    (forall i x, nth_error (vecThisSpikeFracs o) i = Some x ->
       x == (inject_nat i + 1) / inject_nat (length (vecThisSpikeTimes o))) /\
    (forall i t, nth_error (vecThisSpikeTimes o) i = Some t ->
       nth_error (vecThisFracLinear o) i = Some (t / 1)) /\
    (forall i f l, nth_error (vecThisSpikeFracs o) i = Some f ->
       nth_error (vecThisFracLinear o) i = Some l ->
       nth_error (vecThisDeviation o) i
       = Some (f - l - np_mean (vsub (vecThisSpikeFracs o) (vecThisFracLinear o)))).
Proof.
  apply (getTempOffsetOne_curve [1 # 2; 3 # 2] [0; 1] 1). reflexivity.
Defined.

Lemma dup_values_from_strict (l : list Q) : forall cur,
  StronglySorted Qlt (cur :: l) -> dup_values_from cur 1 l = [].
Proof.
  induction l as [|x l IH]; intros cur Hs; [reflexivity|].
  inversion Hs as [|? ? Hs' Hc]; subst. inversion Hc as [|? ? Hcx _]; subst.
  cbn [dup_values_from]. rewrite (gt_not_eqb cur x Hcx). cbn [Nat.leb app].
  now apply IH.
Qed.

(** X5.  When the relative spike times that [getSpikeT] hands over are
    pairwise distinct, [getTempOffsetOne] moves nothing: the spike times it
    returns are that array, from 0 to the window length, and the linear
    fractions run from 0 to 1. *)
Theorem getTempOffsetOne_distinct_untouched (vecSpikeTimes vecEventTimes : list Q)
    (dblUseMaxDur : Q) (v : list Q) :
  getSpikeT vecSpikeTimes vecEventTimes dblUseMaxDur = Ret v ->
  StronglySorted Qlt v ->
  exists o,
    getTempOffsetOne vecSpikeTimes vecEventTimes dblUseMaxDur = Ret o /\
    vecThisSpikeTimes o = v /\
    hd_error (vecThisSpikeTimes o) = Some 0 /\
    last (vecThisSpikeTimes o) 0 = dblUseMaxDur /\
    hd_error (vecThisFracLinear o) = Some (0 / dblUseMaxDur) /\
    last (vecThisFracLinear o) 0 == 1.
Proof.
  intros HG Hs. pose proof HG as HG'.
  rewrite getSpikeT_spec in HG'. injection HG' as Hv.
  assert (Hu : unique_spike_times v = Ret v).
  { rewrite (unique_spike_times_sorted v (StronglySorted_lt_le v Hs))
      by (rewrite <- Hv; discriminate).
    destruct v as [|a l]; [discriminate|].
    cbn [dup_values]. rewrite (dup_values_from_strict l a Hs).
    now rewrite np_unique_strict_id. }
  assert (HW : 0 < dblUseMaxDur).
  { rewrite <- Hv in Hs. cbn [app] in Hs.
    inversion Hs as [|? ? _ H0]; subst. rewrite Forall_forall in H0.
    apply H0. apply in_or_app. right. now left. }
  unfold getTempOffsetOne. rewrite HG. cbn [bind]. rewrite Hu. cbn [bind].
  destruct (length v =? 0)%nat eqn:E.
  { apply Nat.eqb_eq in E. rewrite <- Hv in E. discriminate. }
  eexists. split; [reflexivity|].
  cbn [vecThisSpikeTimes vecThisFracLinear].
  split; [reflexivity|]. rewrite <- Hv. cbn [app hd_error map].
  split; [reflexivity|].
  split; [apply (last_last (0 :: _))|].
  split; [reflexivity|].
  change (0 / dblUseMaxDur :: map (fun t => t / dblUseMaxDur)
            (np_sort (flat_map (trial_spikes vecSpikeTimes dblUseMaxDur)
                        vecEventTimes) ++ [dblUseMaxDur]))
    with (map (fun t => t / dblUseMaxDur)
            ((0 :: np_sort (flat_map (trial_spikes vecSpikeTimes dblUseMaxDur)
                        vecEventTimes)) ++ [dblUseMaxDur])).
  rewrite map_app. cbn [map]. rewrite last_last. field. lra.
Qed.

Lemma getTempOffsetOne_distinct_untouched_witness :
  exists o,
    getTempOffsetOne [1 # 2] [0] 1 = Ret o /\
    vecThisSpikeTimes o = [0; 1 # 2; 1] /\
    hd_error (vecThisSpikeTimes o) = Some 0 /\
    last (vecThisSpikeTimes o) 0 = 1 /\
    hd_error (vecThisFracLinear o) = Some (0 / 1) /\
    last (vecThisFracLinear o) 0 == 1.
Proof.
  apply (getTempOffsetOne_distinct_untouched [1 # 2] [0] 1 [0; 1 # 2; 1]).
  - reflexivity.
  - repeat constructor.
Defined.

(** ** calcZetaOne: the event array *)

Lemma map_nth_seq {A : Type} (d : A) (l : list A) :
  map (fun j => nth j l d) (seq 0 (length l)) = l.
Proof.
  induction l as [|a l IH]; [reflexivity|].
  cbn [length seq map nth]. f_equal.
  rewrite <- seq_shift, map_map. exact IH.
Qed.

Lemma event_starts_1d (v : list Q) : event_starts (Arr1 v) = Ret v.
Proof.
  unfold event_starts, column0. cbn [Nat.eqb]. f_equal.
  rewrite map_map. cbn [nth]. apply map_id.
Qed.

Lemma event_starts_columns (nrows ncols : nat) (rows : list (list Q)) :
  (1 <= ncols < 3)%nat ->
  event_starts (Arr2 nrows ncols rows) = Ret (map (fun r => nth 0 r 0) rows).
Proof.
  intros [H1 H3]. unfold event_starts, column0.
  apply Nat.ltb_lt in H3. rewrite H3.
  destruct (ncols =? 0)%nat eqn:E; [apply Nat.eqb_eq in E; lia | reflexivity].
Qed.

Lemma event_starts_rows (nrows ncols : nat) (rows : list (list Q)) :
  wf_ndarray (Arr2 nrows ncols rows) ->
  (3 <= ncols)%nat -> (1 <= nrows < 3)%nat ->
  event_starts (Arr2 nrows ncols rows) = Ret (hd [] rows).
Proof.
  intros [Hr Hc] H3 [H1 H2]. unfold event_starts, column0.
  apply Nat.ltb_ge in H3. rewrite H3. apply Nat.ltb_lt in H2. rewrite H2.
  destruct (nrows =? 0)%nat eqn:E; [apply Nat.eqb_eq in E; lia|].
  f_equal. destruct rows as [|r0 rows]; [simpl in Hr; lia|].
  inversion Hc as [|? ? Hr0 _]; subst. unfold transpose. rewrite map_map.
  cbn [map nth hd]. apply map_nth_seq.
Qed.

(** ** np.argmax *)

Lemma argmax_from_spec (l : list Q) : forall (pre : list Q) (best : Q) (ibest : nat),
  nth_error pre ibest = Some best ->
  Forall (fun x => x <= best) pre ->
  (forall j x, (j < ibest)%nat -> nth_error pre j = Some x -> x < best) ->
  exists m,
    nth_error (pre ++ l) (argmax_from best ibest (length pre) l) = Some m /\
    Forall (fun x => x <= m) (pre ++ l) /\
    (forall j x, (j < argmax_from best ibest (length pre) l)%nat ->
                 nth_error (pre ++ l) j = Some x -> x < m).
Proof.
  induction l as [|x l IH]; intros pre best ibest Hb Hle Hlt.
  - cbn [argmax_from]. rewrite app_nil_r. exists best. auto.
  - cbn [argmax_from].
    assert (Hi : (ibest < length pre)%nat)
      by (apply nth_error_Some; rewrite Hb; discriminate).
    replace (pre ++ x :: l) with ((pre ++ [x]) ++ l)
      by (rewrite <- app_assoc; reflexivity).
    replace (S (length pre)) with (length (pre ++ [x]))
      by (rewrite length_app; simpl; lia).
    destruct (Qltb best x) eqn:E.
    + apply Qltb_lt in E. apply IH.
      * rewrite nth_error_app2 by lia. now rewrite Nat.sub_diag.
      * apply Forall_app. split.
        -- eapply Forall_impl; [|exact Hle]. intros a Ha. cbv beta in Ha. lra.
        -- constructor; [lra | constructor].
      * intros j y Hj Hy. rewrite nth_error_app1 in Hy by exact Hj.
        rewrite Forall_forall in Hle. apply nth_error_In in Hy.
        apply Hle in Hy. lra.
    + apply Qltb_ge in E. apply IH.
      * rewrite nth_error_app1 by exact Hi. exact Hb.
      * apply Forall_app. split; [exact Hle | constructor; [exact E | constructor]].
      * intros j y Hj Hy. rewrite nth_error_app1 in Hy by lia. now apply (Hlt j).
Qed.

Lemma np_argmax_spec (l : list Q) (i : nat) :
  np_argmax l = Ret i ->
  exists m, nth_error l i = Some m /\
            (forall j x, nth_error l j = Some x -> x <= m) /\
            (forall j x, (j < i)%nat -> nth_error l j = Some x -> x < m).
Proof.
  destruct l as [|a l]; [discriminate|]. cbn [np_argmax]. intro H.
  injection H as <-.
  destruct (argmax_from_spec l [a] a 0%nat eq_refl) as (m & Hm & Hle & Hlt).
  - constructor; [lra | constructor].
  - intros j x Hj. lia.
  - exists m. split; [exact Hm|]. split; [|exact Hlt].
    intros j x Hx. rewrite Forall_forall in Hle. apply nth_error_In in Hx.
    now apply Hle.
Qed.

(** ** The jitter of the event onsets *)

Lemma take_idx_map (l : list Q) (idx : list nat) : forall r,
  take_idx l idx = Ret r -> r = map (fun i => nth i l 0) idx.
Proof.
  induction idx as [|i idx IH]; intros r H; simpl in H.
  - now injection H as <-.
  - bind_inv H. bind_inv H. injection H as <-. cbn [map].
    f_equal; [|now apply IH].
    unfold getitem in E. destruct (nth_error l i) eqn:En; [|discriminate].
    injection E as <-. symmetry. now apply nth_error_nth.
Qed.

Lemma take_idx_perm (l : list Q) (idx : list nat) (r : list Q) :
  take_idx l idx = Ret r -> Permutation idx (seq 0 (length l)) -> Permutation r l.
Proof.
  intros H Hp. rewrite (take_idx_map l idx r H).
  pose proof (Permutation_map (fun i => nth i l 0) Hp) as Hm.
  rewrite map_nth_seq in Hm. exact Hm.
Qed.

Lemma Qsum_app (a b : list Q) : Qsum (a ++ b) == Qsum a + Qsum b.
Proof.
  induction a as [|x a IH]; simpl.
  - unfold Qsum. simpl. ring.
  - fold (Qsum (a ++ b)). fold (Qsum a). rewrite IH. ring.
Qed.

Lemma Qsum_perm (a b : list Q) : Permutation a b -> Qsum a == Qsum b.
Proof.
  induction 1 as [|x a b _ IH|x y a|a b c _ IH1 _ IH2]; simpl.
  - reflexivity.
  - fold (Qsum a). fold (Qsum b). now rewrite IH.
  - fold (Qsum a). ring.
  - now rewrite IH1.
Qed.

Lemma Qsum_scale (c : Q) (l : list Q) : Qsum (map (Qmult c) l) == c * Qsum l.
Proof.
  induction l as [|x l IH]; simpl.
  - unfold Qsum. simpl. ring.
  - fold (Qsum (map (Qmult c) l)). fold (Qsum l). rewrite IH. ring.
Qed.

Lemma Qsum_arith (a d : Q) (n : nat) :
  Qsum (map (fun i => a + inject_nat i * d) (seq 0 n))
  == inject_nat n * a + d * (inject_nat n * (inject_nat n - 1) / 2).
Proof.
  induction n as [|n IH].
  - unfold Qsum, inject_nat. simpl. field.
  - rewrite seq_S, map_app, Qsum_app, IH. cbn [Nat.add map].
    unfold Qsum at 1. cbn [fold_right]. rewrite inject_nat_S. field.
Qed.

Lemma inject_nat_pred (n : nat) :
  (1 <= n)%nat -> inject_nat (n - 1) == inject_nat n - 1.
Proof.
  intro H. destruct n as [|n]; [lia|].
  replace (S n - 1)%nat with n by lia. rewrite inject_nat_S. ring.
Qed.

(** [np.linspace(-W, W, T)] sums to zero when it has two or more points. *)
Lemma Qsum_linspace_symmetric (W : Q) (T : nat) :
  (2 <= T)%nat -> Qsum (np_linspace (- W) W T) == 0.
Proof.
  intro HT. destruct T as [|[|T]]; [lia | lia |].
  unfold np_linspace. rewrite Qsum_arith.
  rewrite inject_nat_pred by lia.
  pose proof (inject_nat_S (S T)) as H2. pose proof (inject_nat_S T) as H1.
  pose proof (inject_nat_nonneg T) as H0.
  field. lra.
Qed.

(** Every point of [np.linspace(-W, W, T)] lies between [-W] and [W]. *)
Lemma linspace_symmetric_bounds (W : Q) (T : nat) :
  0 <= W -> Forall (fun x => - W <= x /\ x <= W) (np_linspace (- W) W T).
Proof.
  intro HW. destruct T as [|[|T]].
  - constructor.
  - constructor; [lra | constructor].
  - unfold np_linspace. apply Forall_forall. intros x Hx.
    apply in_map_iff in Hx. destruct Hx as (i & <- & Hi).
    apply in_seq in Hi. cbn [Nat.add] in Hi.
    pose proof (inject_nat_pred (S (S T)) ltac:(lia)) as Hp.
    pose proof (inject_nat_S T) as H1. pose proof (inject_nat_nonneg T) as H0.
    pose proof (inject_nat_nonneg i) as Hi0.
    assert (Hin : inject_nat i <= inject_nat (S (S T) - 1))
      by (apply inject_nat_le; lia).
    assert (Hpos : 0 < inject_nat (S (S T) - 1))
      by (apply inject_nat_pos; lia).
    set (m := inject_nat (S (S T) - 1)) in *.
    assert (Hd : 0 <= (W - - W) / m).
    { apply Qle_shift_div_l; [exact Hpos | lra]. }
    assert (Hlo : 0 <= inject_nat i * ((W - - W) / m))
      by (apply Qmult_le_0_compat; assumption).
    assert (Hhi : inject_nat i * ((W - - W) / m) <= m * ((W - - W) / m))
      by (apply Qmult_le_compat_r; assumption).
    assert (Hm : m * ((W - - W) / m) == W - - W) by (field; lra).
    split; lra.
Qed.

Lemma jitter_bound (J W x : Q) :
  - W <= x /\ x <= W -> Qabs (J * x) <= Qabs J * W.
Proof.
  intros [H1 H2]. rewrite Qabs_Qmult.
  rewrite (Qmult_comm (Qabs J)), (Qmult_comm (Qabs J)).
  apply Qmult_le_compat_r; [|apply Qabs_nonneg].
  apply Qabs_Qle_condition. split; assumption.
Qed.

Section Jitter.

Variable np_random_permutation : nat -> nat -> list nat.

Lemma jitter_columns_spec (v : list Q) (T n : nat) : forall draws cols draws',
  jitter_columns np_random_permutation v T n draws = Ret (cols, draws') ->
  draws' = (draws + n)%nat /\ length cols = n /\
  Forall (fun col => exists d, take_idx v (np_random_permutation d T) = Ret col) cols.
Proof.
  induction n as [|n IH]; intros draws cols draws' H; cbn [jitter_columns] in H.
  - injection H as <- <-. split; [lia|]. split; [reflexivity | constructor].
  - bind_inv H. bind_inv H. destruct a0 as [cols0 d0]. injection H as <- <-.
    destruct (IH _ _ _ E0) as (Hd & Hl & Hc). split; [lia|].
    split; [simpl; lia|]. constructor; [eauto | exact Hc].
Qed.

(** X6.  The first resampling loop of [calcZetaOne] draws exactly
    [intResampNum] permutations.  When every draw is a permutation of the
    trial indices and the window is not negative, each column of jitters is
    a rearrangement of [dblJitterSize * linspace(-dblUseMaxDur, dblUseMaxDur,
    intTrials)]: no onset is moved by more than [|dblJitterSize| *
    dblUseMaxDur], and with two or more trials the jitters of one resampling
    add up to zero. *)
Theorem jitter_columns_permute (dblJitterSize dblUseMaxDur : Q)
    (intTrials intResampNum draws : nat) :
  0 <= dblUseMaxDur ->
  (forall d, Permutation (np_random_permutation d intTrials) (seq 0 intTrials)) ->
  exists cols,
    jitter_columns np_random_permutation
      (map (Qmult dblJitterSize) (np_linspace (- dblUseMaxDur) dblUseMaxDur intTrials))
      intTrials intResampNum draws = Ret (cols, (draws + intResampNum)%nat) /\
    length cols = intResampNum /\
    Forall (fun col =>
              Permutation col
                (map (Qmult dblJitterSize)
                     (np_linspace (- dblUseMaxDur) dblUseMaxDur intTrials)) /\
              Forall (fun x => Qabs x <= Qabs dblJitterSize * dblUseMaxDur) col /\
              ((2 <= intTrials)%nat -> Qsum col == 0)) cols.
Proof.
  intros HW Hperm.
  set (vj := map (Qmult dblJitterSize)
                 (np_linspace (- dblUseMaxDur) dblUseMaxDur intTrials)).
  assert (Hlen : length vj = intTrials)
    by (unfold vj; now rewrite length_map, np_linspace_length).
  destruct (jitter_columns_returns np_random_permutation vj intResampNum)
    with (draws := draws) as (cols & draws' & Hc & _).
  { intro d. rewrite Hlen. apply Permutation_seq_lt, Hperm. }
  rewrite Hlen in Hc.
  destruct (jitter_columns_spec _ _ _ _ _ _ Hc) as (-> & Hn & Hcols).
  exists cols. split; [exact Hc|]. split; [exact Hn|].
  eapply Forall_impl; [|exact Hcols]. intros col (d & Hd).
  assert (Hp : Permutation col vj).
  { apply (take_idx_perm vj _ col Hd). rewrite Hlen. apply Hperm. }
  split; [exact Hp|]. split.
  - assert (Hb : Forall (fun x => Qabs x <= Qabs dblJitterSize * dblUseMaxDur) vj).
    { unfold vj. apply Forall_forall. intros x Hx. apply in_map_iff in Hx.
      destruct Hx as (y & <- & Hy). apply jitter_bound.
      pose proof (linspace_symmetric_bounds dblUseMaxDur intTrials HW) as Hl.
      rewrite Forall_forall in Hl. now apply Hl. }
    rewrite Forall_forall in Hb |- *. intros x Hx. apply Hb.
    now apply (Permutation_in x Hp).
  - intro HT. rewrite (Qsum_perm col vj Hp). unfold vj.
    rewrite Qsum_scale, Qsum_linspace_symmetric by exact HT. ring.
Qed.

End Jitter.

Lemma jitter_columns_permute_witness :
  exists cols,
    jitter_columns identity_permutation
      (map (Qmult 1) (np_linspace (- 1) 1 3)) 3 2 0 = Ret (cols, (0 + 2)%nat) /\
    length cols = 2%nat /\
    Forall (fun col =>
              Permutation col (map (Qmult 1) (np_linspace (- 1) 1 3)) /\
              Forall (fun x => Qabs x <= Qabs 1 * 1) col /\
              ((2 <= 3)%nat -> Qsum col == 0)) cols.
Proof.
  apply (jitter_columns_permute identity_permutation 1 1 3 2 0).
  - discriminate.
  - intro d. apply Permutation_refl.
Defined.

(** ** calcZetaOne: what a returned record holds *)

Lemma unique_spike_times_strict (v t : list Q) :
  unique_spike_times v = Ret t -> StronglySorted Qlt t.
Proof.
  unfold unique_spike_times. intro H.
  assert (Hu : fst (np_unique_index v) = np_unique v) by reflexivity.
  destruct (np_unique_index v) as [u idx]. cbn [fst] in Hu.
  bind_inv H. bind_inv H.
  destruct a0; injection H as <-; [rewrite Hu|]; apply np_unique_sorted.
Qed.

Lemma getTempOffsetOne_strict (sp evs : list Q) (W : Q) (o : offsets) :
  getTempOffsetOne sp evs W = Ret o -> StronglySorted Qlt (vecThisSpikeTimes o).
Proof.
  unfold getTempOffsetOne. intro H. bind_inv H. bind_inv H.
  destruct (length a0 =? 0)%nat; [discriminate|]. injection H as <-.
  cbn [vecThisSpikeTimes]. now apply (unique_spike_times_strict a).
Qed.

Lemma center_center (l : list Q) (i : nat) (x : Q) :
  l <> [] -> nth_error (center l) i = Some x ->
  exists y, nth_error (center (center l)) i = Some y /\ y == x.
Proof.
  intros Hne Hx. unfold center at 1. rewrite nth_error_map, Hx. cbn [option_map].
  eexists. split; [reflexivity|]. rewrite (np_mean_center l Hne). ring.
Qed.

Lemma uniq_from_length (l : list (Q * nat)) : forall prev,
  (length (uniq_from prev l) <= length l)%nat.
Proof.
  induction l as [|[v i] l IH]; intro prev; simpl; [lia|].
  destruct (Qeq_bool prev v); simpl; specialize (IH v); lia.
Qed.

Lemma np_unique_length_le (l : list Q) : (length (np_unique l) <= length l)%nat.
Proof.
  unfold np_unique, np_unique_index. cbn [fst]. rewrite length_map.
  assert (H : length (sort_by fst (combine l (seq 0 (length l)))) = length l).
  { rewrite sort_by_length, length_combine, length_seq. apply Nat.min_id. }
  destruct (sort_by fst (combine l (seq 0 (length l)))) as [|[v i] r];
    [simpl; lia|].
  cbn [uniq_first length] in *. pose proof (uniq_from_length r v). lia.
Qed.

Section Record.

Variables (ext_exp ext_sqrt ext_ppf : dbl -> dbl) (ext_pi : dbl).
Variable np_random_permutation : nat -> nat -> list nat.

Let zetaOne := calcZetaOne ext_exp ext_sqrt ext_ppf ext_pi np_random_permutation.

(** The two ways in which [calcZetaOne] returns. *)
Lemma calcZetaOne_inv
    (sp : list Q) (arr : ndarray) (W : Q) (N : nat) (dq : bool) (J : Q)
    (st par : bool) (draws : nat) (dZ : dZETA) (draws' : nat) :
  zetaOne sp arr W N dq J st par draws = Ret (dZ, draws') ->
  (dZ = dZETA_default /\ draws' = draws) \/
  exists evs kept ps pe o idx d cols rs zp zz,
    event_starts arr = Ret evs /\
    reduce_spikes sp evs W J = Ret kept /\
    (if st then getPseudoSpikeVectors kept evs W false else Ret (kept, evs))
      = Ret (ps, pe) /\
    getTempOffsetOne ps pe W = Ret o /\
    (3 <= length (vecThisDeviation o))%nat /\
    np_argmax (map Qabs (center (vecThisDeviation o))) = Ret idx /\
    getitem (center (vecThisDeviation o)) idx = Ret d /\
    jitter_columns np_random_permutation
      (map (Qmult J) (np_linspace (- W) W (length pe))) (length pe) N draws
      = Ret (cols, draws') /\
    mapM (resample_once ps pe W) cols = Ret rs /\
    getZetaP ext_exp ext_sqrt ext_ppf ext_pi (Scalar (Num (Qabs d)))
      (map rs_max rs) dq = Ret (zp, zz) /\
    dZ = mkZETA (Some (vecThisSpikeTimes o)) (Some (center (vecThisDeviation o)))
           (Some (vecThisSpikeFracs o)) (Some (vecThisFracLinear o))
           (Some (map rs_time rs)) (Some (map rs_deviation rs))
           zp zz (Some idx).
Proof.
  unfold zetaOne, calcZetaOne. intro H.
  bind_inv H. bind_inv H.
  destruct (length a0 <? 3)%nat; [injection H as <- <-; now left|].
  bind_inv H. destruct a1 as [ps pe]. bind_inv H.
  destruct (length (vecThisDeviation a1) <? 3)%nat eqn:E3;
    [injection H as <- <-; now left|].
  apply Nat.ltb_ge in E3.
  bind_inv H. bind_inv H. bind_inv H. destruct a4 as [mat draws1].
  bind_inv H. bind_inv H. destruct a5 as [zp zz]. injection H as <- <-.
  right. exists a, a0, ps, pe, a1, a2, a3, mat, a4, zp, zz.
  repeat split; assumption.
Qed.

(** X7.  [calcZetaOne] reads a two-dimensional event array with one or two
    columns along its first column (the second column, the event stops, is
    never used), and one with three or more columns and one or two rows
    along its first row: the result is the one for the one-dimensional array
    of these onsets. *)
Theorem calcZetaOne_event_orientation
    (vecSpikeTimes : list Q) (nrows ncols : nat) (rows : list (list Q))
    (dblUseMaxDur : Q) (intResampNum : nat) (boolDirectQuantile : bool)
    (dblJitterSize : Q) (boolStitch boolParallel : bool) (draws : nat) :
  wf_ndarray (Arr2 nrows ncols rows) ->
  ((1 <= ncols < 3)%nat ->
   zetaOne vecSpikeTimes (Arr2 nrows ncols rows) dblUseMaxDur intResampNum
           boolDirectQuantile dblJitterSize boolStitch boolParallel draws
   = zetaOne vecSpikeTimes (Arr1 (map (fun r => nth 0 r 0) rows)) dblUseMaxDur
             intResampNum boolDirectQuantile dblJitterSize boolStitch
             boolParallel draws) /\
  ((3 <= ncols)%nat -> (1 <= nrows < 3)%nat ->
   zetaOne vecSpikeTimes (Arr2 nrows ncols rows) dblUseMaxDur intResampNum
           boolDirectQuantile dblJitterSize boolStitch boolParallel draws
   = zetaOne vecSpikeTimes (Arr1 (hd [] rows)) dblUseMaxDur
             intResampNum boolDirectQuantile dblJitterSize boolStitch
             boolParallel draws).
Proof.
  intro Hwf. split.
  - intro Hc. unfold zetaOne, calcZetaOne.
    now rewrite (event_starts_columns nrows ncols rows Hc), event_starts_1d.
  - intros Hc Hr. unfold zetaOne, calcZetaOne.
    now rewrite (event_starts_rows nrows ncols rows Hwf Hc Hr), event_starts_1d.
Qed.

(** X8.  The errors of [calcZetaOne] on empty input, in the order the code
    meets them: a two-dimensional event array without columns has no
    column 0 (IndexError); an empty one-dimensional event array has no
    minimum (ValueError); with events but no spikes, the first spike cannot
    be read (IndexError).  Each holds whatever the other arguments are. *)
Theorem calcZetaOne_empty_input_errors
    (vecSpikeTimes : list Q) (dblUseMaxDur : Q) (intResampNum : nat)
    (boolDirectQuantile : bool) (dblJitterSize : Q)
    (boolStitch boolParallel : bool) (draws : nat) :
  (forall nrows rows,
     zetaOne vecSpikeTimes (Arr2 nrows 0 rows) dblUseMaxDur intResampNum
             boolDirectQuantile dblJitterSize boolStitch boolParallel draws
       = Raise IndexError) /\
  zetaOne vecSpikeTimes (Arr1 []) dblUseMaxDur intResampNum boolDirectQuantile
          dblJitterSize boolStitch boolParallel draws = Raise ValueError /\
  (forall e evs,
     zetaOne [] (Arr1 (e :: evs)) dblUseMaxDur intResampNum boolDirectQuantile
             dblJitterSize boolStitch boolParallel draws = Raise IndexError).
Proof.
  split; [reflexivity|]. split; [reflexivity|].
  intros e evs. unfold zetaOne, calcZetaOne. rewrite event_starts_1d.
  cbn [bind]. unfold reduce_spikes, reduce_window.
  destruct (np_min_spec (e :: evs)) as (lo & -> & _); [discriminate|].
  reflexivity.
Qed.

(** X9.  A record returned by [calcZetaOne] either holds no resampled curve,
    and then no permutation was drawn, or it holds exactly [intResampNum]
    resampled time arrays and as many deviation arrays, the two of one
    resampling of one length, the times strictly increasing; then exactly
    [intResampNum] permutations were drawn. *)
Theorem calcZetaOne_resampling_count
    (vecSpikeTimes : list Q) (arrEventTimes : ndarray) (dblUseMaxDur : Q)
    (intResampNum : nat) (boolDirectQuantile : bool) (dblJitterSize : Q)
    (boolStitch boolParallel : bool) (draws : nat) (dZ : dZETA) (draws' : nat) :
  zetaOne vecSpikeTimes arrEventTimes dblUseMaxDur intResampNum
          boolDirectQuantile dblJitterSize boolStitch boolParallel draws
    = Ret (dZ, draws') ->
  match cellRandTime dZ, cellRandDeviation dZ with
  | None, None => draws' = draws
  | Some ts, Some ds =>
      draws' = (draws + intResampNum)%nat /\
      length ts = intResampNum /\ length ds = intResampNum /\
      Forall2 (fun t d => length t = length d /\ StronglySorted Qlt t) ts ds
  | _, _ => False
  end.
Proof.
  intro H. apply calcZetaOne_inv in H.
  destruct H as [[-> ->]|(evs & kept & ps & pe & o & idx & d & cols & rs & zp & zz
                          & _ & _ & _ & _ & _ & _ & _ & Hj & Hrs & _ & ->)];
    [reflexivity|].
  cbn [cellRandTime cellRandDeviation].
  destruct (jitter_columns_spec _ _ _ _ _ _ _ Hj) as (-> & Hn & _).
  apply mapM_Ret_inv in Hrs. pose proof (Forall2_length Hrs) as Hl.
  split; [reflexivity|]. rewrite !length_map.
  split; [lia|]. split; [lia|].
  clear - Hrs. induction Hrs as [|c r cols rs Hr _ IH]; [constructor|].
  cbn [map]. constructor; [|exact IH].
  unfold resample_once in Hr. bind_inv Hr. bind_inv Hr. injection Hr as <-.
  cbn [rs_time rs_deviation].
  destruct (getTempOffsetOne_shape _ _ _ _ E) as (_ & _ & Hd & _).
  split; [now rewrite center_length | now apply (getTempOffsetOne_strict _ _ _ _ E)].
Qed.

(** X10.  In a returned record that holds a real curve, [intZETAIdx] is the
    first index at which the absolute deviation is largest. *)
Theorem calcZetaOne_peak_index
    (vecSpikeTimes : list Q) (arrEventTimes : ndarray) (dblUseMaxDur : Q)
    (intResampNum : nat) (boolDirectQuantile : bool) (dblJitterSize : Q)
    (boolStitch boolParallel : bool) (draws : nat) (dZ : dZETA) (draws' : nat)
    (dev : list Q) :
  zetaOne vecSpikeTimes arrEventTimes dblUseMaxDur intResampNum
          boolDirectQuantile dblJitterSize boolStitch boolParallel draws
    = Ret (dZ, draws') ->
  vecRealDeviation dZ = Some dev ->
  exists i d,
    intZETAIdx dZ = Some i /\ nth_error dev i = Some d /\
    (forall j x, nth_error dev j = Some x -> Qabs x <= Qabs d) /\
    (forall j x, (j < i)%nat -> nth_error dev j = Some x -> Qabs x < Qabs d).
Proof.
  intros H Hdev. apply calcZetaOne_inv in H.
  destruct H as [[-> ->]|(evs & kept & ps & pe & o & idx & d & cols & rs & zp & zz
                          & _ & _ & _ & _ & _ & Harg & Hd & _ & _ & _ & ->)];
    [discriminate|].
  cbn [vecRealDeviation intZETAIdx] in *. injection Hdev as <-.
  destruct (np_argmax_spec _ _ Harg) as (m & Hm & Hle & Hlt).
  unfold getitem in Hd.
  destruct (nth_error (center (vecThisDeviation o)) idx) as [d'|] eqn:En;
    [|discriminate].
  injection Hd as ->. rewrite nth_error_map, En in Hm. injection Hm as <-.
  exists idx, d. split; [reflexivity|]. split; [exact En|]. split.
  - intros j x Hx. apply (Hle j). now rewrite nth_error_map, Hx.
  - intros j x Hj Hx. apply (Hlt j); [exact Hj|]. now rewrite nth_error_map, Hx.
Qed.

(** X11.  In a returned record that holds a real curve, its four arrays have
    one length of at least 3, the spike times are strictly increasing, and
    the deviation at each rank is the spike fraction minus the linear
    fraction minus the mean of these differences: subtracting the mean a
    second time in [calcZetaOne] changes nothing. *)
Theorem calcZetaOne_real_curve
    (vecSpikeTimes : list Q) (arrEventTimes : ndarray) (dblUseMaxDur : Q)
    (intResampNum : nat) (boolDirectQuantile : bool) (dblJitterSize : Q)
    (boolStitch boolParallel : bool) (draws : nat) (dZ : dZETA) (draws' : nat)
    (dev : list Q) :
  zetaOne vecSpikeTimes arrEventTimes dblUseMaxDur intResampNum
          boolDirectQuantile dblJitterSize boolStitch boolParallel draws
    = Ret (dZ, draws') ->
  vecRealDeviation dZ = Some dev ->
  exists t fr lin,
    vecSpikeT dZ = Some t /\ vecRealFrac dZ = Some fr /\
    vecRealFracLinear dZ = Some lin /\
    (3 <= length dev)%nat /\
    length t = length dev /\ length fr = length dev /\ length lin = length dev /\
    StronglySorted Qlt t /\
    (forall i f l, nth_error fr i = Some f -> nth_error lin i = Some l ->
       exists x, nth_error dev i = Some x /\
                 x == f - l - np_mean (vsub fr lin)).
Proof.
  intros H Hdev. apply calcZetaOne_inv in H.
  destruct H as [[-> ->]|(evs & kept & ps & pe & o & idx & d & cols & rs & zp & zz
                          & _ & _ & _ & Ho & H3 & _ & _ & _ & _ & _ & ->)];
    [discriminate|].
  cbn [vecRealDeviation vecSpikeT vecRealFrac vecRealFracLinear] in *.
  injection Hdev as <-.
  destruct (getTempOffsetOne_shape _ _ _ _ Ho) as (Hne & Hd & L1 & L2 & L3).
  do 3 eexists. split; [reflexivity|]. split; [reflexivity|].
  split; [reflexivity|]. rewrite center_length.
  split; [exact H3|]. split; [now symmetry|]. split; [congruence|].
  split; [congruence|]. split; [now apply (getTempOffsetOne_strict _ _ _ _ Ho)|].
  intros i f l Hf Hl.
  assert (Hx : nth_error (vecThisDeviation o) i
               = Some (f - l - np_mean (vsub (vecThisSpikeFracs o)
                                             (vecThisFracLinear o)))).
  { rewrite Hd. unfold center. rewrite nth_error_map.
    now rewrite (nth_error_vsub _ _ _ _ _ Hf Hl). }
  assert (Hne' : vsub (vecThisSpikeFracs o) (vecThisFracLinear o) <> []).
  { intro E. pose proof (nth_error_vsub _ _ _ _ _ Hf Hl) as Hv.
    rewrite E in Hv. destruct i; discriminate. }
  rewrite Hd in Hx |- *.
  destruct (center_center _ _ _ Hne' Hx) as (y & Hy & Ey). eauto.
Qed.

(** X12.  In direct-quantile mode the p-value in a record returned by
    [calcZetaOne] is a number between [1/(intResampNum+1)] and 1. *)
Theorem calcZetaOne_quantile_resolution
    (vecSpikeTimes : list Q) (arrEventTimes : ndarray) (dblUseMaxDur : Q)
    (intResampNum : nat) (dblJitterSize : Q)
    (boolStitch boolParallel : bool) (draws : nat) (dZ : dZETA) (draws' : nat) :
  zetaOne vecSpikeTimes arrEventTimes dblUseMaxDur intResampNum
          true dblJitterSize boolStitch boolParallel draws
    = Ret (dZ, draws') ->
  exists p, dblZetaP dZ = Scalar (Num p) /\
            1 / (inject_nat intResampNum + 1) <= p /\ p <= 1.
Proof.
  intro H. apply calcZetaOne_inv in H.
  pose proof (inject_nat_nonneg intResampNum) as HN.
  destruct H as [[-> ->]|(evs & kept & ps & pe & o & idx & d & cols & rs & zp & zz
                          & _ & _ & _ & _ & _ & _ & _ & Hj & Hrs & Hz & ->)].
  - exists 1. split; [reflexivity|]. split; [|lra].
    apply Qle_shift_div_r; lra.
  - cbn [dblZetaP].
    destruct (jitter_columns_spec _ _ _ _ _ _ _ Hj) as (_ & Hn & _).
    apply mapM_Ret_inv in Hrs. apply Forall2_length in Hrs.
    assert (Hlen : length (map rs_max rs) = intResampNum)
      by (rewrite length_map; lia).
    assert (Hne : map rs_max rs <> []).
    { intro E. rewrite E in Hz. discriminate. }
    destruct (getZetaP_quantile_scalar ext_exp ext_sqrt ext_ppf ext_pi
                (Num (Qabs d)) (map rs_max rs) Hne) as (r & Hr & E).
    rewrite E in Hz. injection Hz as <- _. eexists. split; [reflexivity|].
    set (M := inject_nat (length (np_unique (map rs_max rs)))) in *.
    assert (HM : 0 <= M) by apply inject_nat_nonneg.
    assert (HMN : M <= inject_nat intResampNum).
    { rewrite <- Hlen. apply inject_nat_le, np_unique_length_le. }
    assert (Hr0 : 0 <= r / (1 + M) <= M / (1 + M)).
    { destruct (rank_spec_range _ _ _ Hr (np_unique_nonempty _ Hne)) as [H0|[H1 H2]].
      - split.
        + apply Qle_shift_div_l; lra.
        + apply Qdiv_le_mono; [lra|]. fold M. lra.
      - split.
        + apply Qle_shift_div_l; lra.
        + apply Qdiv_le_mono; [lra|]. exact H2. }
    assert (Hinv : 1 / (M + 1) == 1 - M / (1 + M)) by (field; lra).
    assert (Hmono : 1 / (inject_nat intResampNum + 1) <= 1 / (M + 1)).
    { apply Qle_shift_div_l; [lra|].
      setoid_replace (1 / (inject_nat intResampNum + 1) * (M + 1))
        with ((M + 1) / (inject_nat intResampNum + 1)) by (field; lra).
      apply Qle_shift_div_r; lra. }
    split; lra.
Qed.

End Record.

Lemma calcZetaOne_event_orientation_witness :
  calcZetaOne ext_none ext_none ext_none NaN identity_permutation
    [0; 1 # 4; 1 # 2; 3 # 4; 2] (Arr2 2 3 [[0; 1; 2]; [5; 6; 7]]) 1 2 true 1
    false false 0
  = calcZetaOne ext_none ext_none ext_none NaN identity_permutation
      [0; 1 # 4; 1 # 2; 3 # 4; 2] (Arr1 (hd [] [[0; 1; 2]; [5; 6; 7]])) 1 2 true 1
      false false 0.
Proof.
  apply (proj2 (calcZetaOne_event_orientation ext_none ext_none ext_none NaN
                  identity_permutation [0; 1 # 4; 1 # 2; 3 # 4; 2]
                  2 3 [[0; 1; 2]; [5; 6; 7]] 1 2 true 1 false false 0
                  ltac:(split; [reflexivity | repeat constructor]))).
  - lia.
  - lia.
Defined.

(** ** getZetaP: the shape of the result *)

Lemma tail_loop_length {A : Type} (ops : NumOps A) (dblE dblV : A) :
  forall (arrX arrP arrZ : list A),
    length arrP = length arrX -> length arrZ = length arrX ->
    length (fst (tail_loop ops dblE dblV arrX arrP arrZ)) = length arrX /\
    length (snd (tail_loop ops dblE dblV arrX arrP arrZ)) = length arrX.
Proof.
  induction arrX as [|x arrX IH]; intros arrP arrZ HP HZ.
  - split; reflexivity.
  - destruct arrP as [|p arrP]; [discriminate|].
    destruct arrZ as [|z arrZ]; [discriminate|].
    injection HP as HP. injection HZ as HZ.
    destruct (IH arrP arrZ HP HZ) as (H1 & H2).
    cbn [tail_loop].
    destruct (tail_loop ops dblE dblV arrX arrP arrZ) as [P Z].
    cbn [fst snd] in H1, H2.
    destruct (isinf ops z); cbn [fst snd length]; split; congruence.
Qed.

Lemma getGumbel_length {A : Type} (ops : NumOps A) (dblE dblV : A) (arrX : list A) :
  length (fst (getGumbel ops dblE dblV arrX)) = length arrX /\
  length (snd (getGumbel ops dblE dblV arrX)) = length arrX.
Proof.
  unfold getGumbel. apply tail_loop_length; now rewrite !length_map.
Qed.

Lemma quantile_p_returns (d : dbl) (xs : list Q) :
  StronglySorted Qlt xs -> xs <> [] -> exists p, quantile_p d xs = Ret p.
Proof.
  intros Hs Hne. unfold quantile_p.
  destruct (quantile_value_spec xs d Hs Hne) as (r & -> & _). cbn [bind]. eauto.
Qed.

(** X13.  In direct-quantile mode [getZetaP] raises exactly when there is
    an observed maximum but no null maximum (ValueError: the minimum of an
    empty array).  Otherwise it hands back one p-value and one z-score per
    observed maximum, as two scalars when there is one observed maximum and
    as two arrays otherwise. *)
Theorem getZetaP_quantile_shape
    (ext_exp ext_sqrt ext_ppf : dbl -> dbl) (ext_pi : dbl)
    (arrMaxD : pyval) (vecMaxRandD : list Q) :
  (vecMaxRandD = [] -> as_array arrMaxD <> [] ->
   getZetaP ext_exp ext_sqrt ext_ppf ext_pi arrMaxD vecMaxRandD true
     = Raise ValueError) /\
  (vecMaxRandD <> [] \/ as_array arrMaxD = [] ->
   exists arrZetaP arrZETA,
     length arrZetaP = length (as_array arrMaxD) /\
     length arrZETA = length (as_array arrMaxD) /\
     getZetaP ext_exp ext_sqrt ext_ppf ext_pi arrMaxD vecMaxRandD true
       = Ret (match arrZetaP with [p] => Scalar p | _ => Array arrZetaP end,
              match arrZETA with [z] => Scalar z | _ => Array arrZETA end)).
Proof.
  split.
  - intros -> Hne. unfold getZetaP.
    destruct (as_array arrMaxD) as [|d l]; [congruence|]. reflexivity.
  - intro H. unfold getZetaP.
    assert (Hm : exists P, mapM (fun d => quantile_p d (np_sort (np_unique vecMaxRandD)))
                             (as_array arrMaxD) = Ret P /\
                           length P = length (as_array arrMaxD)).
    { destruct H as [H|H].
      - apply mapM_returns. intros d _. rewrite np_sort_unique.
        apply quantile_p_returns;
          [apply np_unique_sorted | now apply np_unique_nonempty].
      - rewrite H. exists []. split; reflexivity. }
    destruct Hm as (P & -> & HP). cbn [bind].
    exists P, (map (gumbel_z (DblOps ext_exp ext_sqrt ext_ppf ext_pi)) P).
    split; [exact HP|]. split; [now rewrite length_map|]. reflexivity.
Qed.

Lemma getZetaP_quantile_shape_witness :
  exists arrZetaP arrZETA,
    length arrZetaP = length (as_array (Array [Num 0; Num 3; NaN])) /\
    length arrZETA = length (as_array (Array [Num 0; Num 3; NaN])) /\
    getZetaP ext_none ext_none ext_none NaN (Array [Num 0; Num 3; NaN]) [1; 1; 2] true
      = Ret (match arrZetaP with [p] => Scalar p | _ => Array arrZetaP end,
             match arrZETA with [z] => Scalar z | _ => Array arrZETA end).
Proof.
  apply (proj2 (getZetaP_quantile_shape ext_none ext_none ext_none NaN
                  (Array [Num 0; Num 3; NaN]) [1; 1; 2])).
  left. discriminate.
Defined.

(** ** getPseudoSpikeVectors: when it fails, and its pseudo event times *)

Lemma eligible_samples_none (S : list Q) (e W : Q) :
  (forall s, In s S -> s < e) -> eligible_samples S e W = FloatEmpty.
Proof.
  intro Hs. unfold eligible_samples.
  assert (H1 : findfirst (map (fun s => Qle_bool e s) S) = None).
  { apply findfirst_None. apply Forall_forall. intros b Hb.
    apply in_map_iff in Hb. destruct Hb as (s & <- & Hin).
    apply Qle_bool_false. now apply Hs. }
  cbv zeta. rewrite H1. reflexivity.
Qed.

Lemma stitch_trial_index_error (S evs : list Q) (W : Q) (disc : bool)
    (i : nat) (e : Q) (st : stitch) :
  (forall s, In s S -> s < e) ->
  stitch_trial S evs W disc i e st = Raise IndexError.
Proof.
  intro Hs. unfold stitch_trial.
  rewrite (eligible_samples_none S e W Hs). reflexivity.
Qed.

Lemma stitch_loop_index_error (S evs : list Q) (W : Q) (disc : bool) :
  0 <= W ->
  forall (todo : list Q) (i : nat) (st : stitch),
    (i + length todo <= length evs)%nat ->
    stitch_inv (length S) st ->
    (exists e, In e todo /\ forall s, In s S -> s < e) ->
    stitch_loop S evs W disc i todo st = Raise IndexError.
Proof.
  intro HW. induction todo as [|e0 todo IH]; intros i st Hi Hinv (e & He & Hs).
  - destruct He.
  - cbn [stitch_loop]. simpl in Hi.
    assert (Hdec : (exists s, In s S /\ e0 <= s) \/ (forall s, In s S -> s < e0)).
    { clear. induction S as [|s S IHS].
      - right. intros s [].
      - destruct IHS as [(s' & Hin & Hle)|Hall].
        + left. exists s'. split; [now right | exact Hle].
        + destruct (Qlt_le_dec s e0) as [Hlt|Hle].
          * right. intros s' [<-|Hin]; [exact Hlt | now apply Hall].
          * left. exists s. split; [now left | exact Hle]. }
    destruct Hdec as [Hex|Hall].
    + destruct (stitch_trial_returns S evs W disc i e0 st HW Hex ltac:(lia) Hinv)
        as (st' & -> & Hinv').
      cbn [bind]. apply IH; [lia | exact Hinv'|].
      destruct He as [<-|He].
      * exfalso. destruct Hex as (s & Hin & Hle). specialize (Hs s Hin). lra.
      * exists e. split; assumption.
    + now rewrite (stitch_trial_index_error S evs W disc i e0 st Hall).
Qed.

(** X14.  For a window that is not negative, [getPseudoSpikeVectors] raises
    IndexError when there is no event, and when some event has no spike at
    or after its onset (the spike array is then indexed with [np.empty(0)],
    an array of floats). *)
Theorem getPseudoSpikeVectors_index_error
    (vecSpikeTimes vecEventTimes : list Q) (dblWindowDur : Q)
    (boolDiscardEdges : bool) :
  0 <= dblWindowDur ->
  vecEventTimes = [] \/
  (exists e, In e vecEventTimes /\ forall s, In s vecSpikeTimes -> s < e) ->
  getPseudoSpikeVectors vecSpikeTimes vecEventTimes dblWindowDur boolDiscardEdges
    = Raise IndexError.
Proof.
  intros HW [->|(e & He & Hs)].
  - reflexivity.
  - unfold getPseudoSpikeVectors.
    rewrite (stitch_loop_index_error (np_sort vecSpikeTimes) (np_sort vecEventTimes)
               dblWindowDur boolDiscardEdges HW (np_sort vecEventTimes) 0%nat);
      [reflexivity | simpl; lia | intros f Hf; discriminate|].
    exists e. split; [now apply np_sort_In|].
    intros s Hin. apply Hs. now apply (proj1 (np_sort_In _ _)).
Qed.

Lemma getPseudoSpikeVectors_index_error_witness :
  getPseudoSpikeVectors [1; 2; 3] [0; 4] 1 false = Raise IndexError.
Proof.
  apply (getPseudoSpikeVectors_index_error [1; 2; 3] [0; 4] 1 false).
  - discriminate.
  - right. exists 4. split; [simpl; tauto|].
    intros s [<-|[<-|[<-|[]]]]; reflexivity.
Defined.

Lemma pseudo_events_from_bounds (W : Q) (rest : list Q) : forall prev c,
  0 <= W -> StronglySorted Qle (prev :: rest) ->
  StronglySorted Qle (c :: pseudo_events_from W prev c rest) /\
  forall i p e, nth_error (pseudo_events_from W prev c rest) i = Some p ->
                nth_error rest i = Some e ->
                c <= p /\ p <= c + (inject_nat i + 1) * W /\ p <= c + (e - prev).
Proof.
  induction rest as [|e0 rest IH]; intros prev c HW Hs.
  - split; [repeat constructor|]. intros i p e H. destruct i; discriminate.
  - cbn [pseudo_events_from].
    inversion Hs as [|? ? Hs' Hp]; subst. inversion Hp as [|? ? Hpe _]; subst.
    set (c' := if Qltb (e0 - prev) W then c + e0 - prev else c + W).
    assert (Hc : c <= c' /\ c' <= c + W /\ c' <= c + (e0 - prev)).
    { unfold c'. destruct (Qltb (e0 - prev) W) eqn:E.
      - apply Qltb_lt in E. repeat split; lra.
      - apply Qltb_ge in E. repeat split; lra. }
    destruct (IH e0 c' HW Hs') as (Hsorted & Hb).
    split.
    + constructor; [exact Hsorted|].
      inversion Hsorted as [|? ? _ Hall]; subst.
      constructor; [lra|]. eapply Forall_impl; [|exact Hall].
      intros a Ha. cbv beta in Ha. lra.
    + intros i p e Hp' He. destruct i as [|i].
      * simpl in Hp', He. injection Hp' as <-. injection He as <-.
        change (inject_nat 0) with 0. repeat split; lra.
      * simpl in Hp', He. destruct (Hb i p e Hp' He) as (H1 & H2 & H3).
        rewrite inject_nat_S.
        assert (He0 : e0 <= e).
        { inversion Hs' as [|? ? _ Hall]; subst. rewrite Forall_forall in Hall.
          apply Hall. eapply nth_error_In; eauto. }
        repeat split; lra.
Qed.

(** X15.  The pseudo event times that [getPseudoSpikeVectors] returns (for a
    window that is not negative) are one per event, start at 0, never
    decrease, and the one of the [i]-th event (in ascending order) is at
    most [i] windows and at most the time elapsed since the first event.
    The pseudo spike times are returned in ascending order. *)
Theorem getPseudoSpikeVectors_pseudo_events
    (vecSpikeTimes vecEventTimes : list Q) (dblWindowDur : Q)
    (boolDiscardEdges : bool) (ps pe : list Q) :
  0 <= dblWindowDur ->
  getPseudoSpikeVectors vecSpikeTimes vecEventTimes dblWindowDur boolDiscardEdges
    = Ret (ps, pe) ->
  length pe = length vecEventTimes /\
  hd_error pe = Some 0 /\
  StronglySorted Qle pe /\
  StronglySorted Qle ps /\
  forall i p e0 e,
    nth_error pe i = Some p ->
    hd_error (np_sort vecEventTimes) = Some e0 ->
    nth_error (np_sort vecEventTimes) i = Some e ->
    0 <= p /\ p <= inject_nat i * dblWindowDur /\ p <= e - e0.
Proof.
  intros HW H.
  pose proof (getPseudoSpikeVectors_events _ _ _ _ _ _ H) as Hpe.
  assert (Hps : StronglySorted Qle ps).
  { unfold getPseudoSpikeVectors in H. bind_inv H. bind_inv H. bind_inv H.
    injection H as <- _. apply np_sort_sorted. }
  assert (Hne : vecEventTimes <> []).
  { intros ->. discriminate. }
  subst pe. split; [now rewrite pseudo_events_length, np_sort_length|].
  pose proof (np_sort_sorted vecEventTimes) as Hs.
  pose proof (np_sort_length vecEventTimes) as Hl.
  destruct (np_sort vecEventTimes) as [|e0 rest];
    [destruct vecEventTimes; [congruence | discriminate]|].
  cbn [pseudo_events hd_error].
  destruct (pseudo_events_from_bounds dblWindowDur rest e0 0 HW Hs) as (Hsorted & Hb).
  split; [reflexivity|]. split; [exact Hsorted|]. split; [exact Hps|].
  intros i p e0' e Hp He0 He. injection He0 as <-.
  destruct i as [|i].
  - simpl in Hp, He. injection Hp as <-. injection He as <-.
    change (inject_nat 0) with 0. repeat split; lra.
  - simpl in Hp, He. destruct (Hb i p e Hp He) as (H1 & H2 & H3).
    rewrite inject_nat_S. repeat split; lra.
Qed.

Lemma getPseudoSpikeVectors_pseudo_events_witness :
  length [0; 1] = length [0; 10] /\
  hd_error [0; 1] = Some 0 /\
  StronglySorted Qle [0; 1] /\
  StronglySorted Qle [1 # 2; 3 # 2; 3 # 2] /\
  forall i p e0 e,
    nth_error [0; 1] i = Some p ->
    hd_error (np_sort [0; 10]) = Some e0 ->
    nth_error (np_sort [0; 10]) i = Some e ->
    0 <= p /\ p <= inject_nat i * 1 /\ p <= e - e0.
Proof.
  apply (getPseudoSpikeVectors_pseudo_events
           [1 # 2; 3 # 2; 5 # 2; 21 # 2] [0; 10] 1 false
           [1 # 2; 3 # 2; 3 # 2] [0; 1]).
  - discriminate.
  - reflexivity.
Defined.

(** ** getGumbel away from the branch for large X *)

Section GumbelRegular.

Local Open Scope R_scope.

Variables (ppf : R -> R) (saturated : R -> bool).

Let ops : NumOps R := RealOps ppf saturated.

Lemma gumbel_p_formula (dblE dblV x : R) :
  gumbel_p ops dblE dblV x
  = 1 - exp (- exp (- ((x - dblMode ops dblE dblV) / dblBeta ops dblV))).
Proof.
  unfold gumbel_p, fGumbelCDF. cbn [ops RealOps sub lit neg f_exp div].
  now rewrite Q2R_1.
Qed.

Lemma gumbel_p_unit (dblE dblV x : R) : 0 < gumbel_p ops dblE dblV x < 1.
Proof.
  rewrite gumbel_p_formula.
  set (t := exp (- ((x - dblMode ops dblE dblV) / dblBeta ops dblV))).
  assert (Ht : 0 < t) by apply exp_pos.
  pose proof (exp_pos (- t)) as H0.
  assert (H1 : exp (- t) < 1).
  { rewrite <- exp_0. apply exp_increasing. Lra.lra. }
  Lra.lra.
Qed.

(** X16.  Over the real numbers and for a positive variance: where the
    branch for large X is not taken, the p-value that [getGumbel] returns for
    [x] is [1 - exp(-exp(-(x - mode)/beta))]; it lies strictly between 0 and
    1 and strictly decreases as [x] grows; the mode of the fitted law lies
    below the mean handed in. *)
Theorem getGumbel_regular_values (dblE dblV : R) (arrX : list R) :
  0 < dblV ->
  Forall (fun x => saturated (gumbel_z ops (gumbel_p ops dblE dblV x)) = false)
         arrX ->
  fst (getGumbel ops dblE dblV arrX)
  = map (fun x => 1 - exp (- exp (- ((x - dblMode ops dblE dblV)
                                     / dblBeta ops dblV)))) arrX /\
  Forall (fun p => 0 < p < 1) (fst (getGumbel ops dblE dblV arrX)) /\
  dblMode ops dblE dblV < dblE /\
  (forall x1 x2, x1 < x2 ->
     1 - exp (- exp (- ((x2 - dblMode ops dblE dblV) / dblBeta ops dblV)))
     < 1 - exp (- exp (- ((x1 - dblMode ops dblE dblV) / dblBeta ops dblV)))).
Proof.
  intros HV Hun.
  assert (Hfst : fst (getGumbel ops dblE dblV arrX)
                 = map (gumbel_p ops dblE dblV) arrX).
  { unfold ops. rewrite getGumbel_entries. cbn [fst]. apply map_ext_in.
    intros x Hx. rewrite Forall_forall in Hun. fold ops. now rewrite (Hun x Hx). }
  split; [|split; [|split]].
  - rewrite Hfst. apply map_ext. intro x. apply gumbel_p_formula.
  - rewrite Hfst. apply Forall_forall. intros p Hp. apply in_map_iff in Hp.
    destruct Hp as (x & <- & _). apply gumbel_p_unit.
  - unfold dblMode. cbn [ops RealOps sub mul lit]. fold ops.
    pose proof (dblBeta_pos ppf saturated dblV HV) as Hb. fold ops in Hb.
    pose proof EulerMascheroni_bounds as [Hg _].
    assert (0 < dblBeta ops dblV * Q2R dblEulerMascheroni).
    { apply Rmult_lt_0_compat; Lra.lra. }
    Lra.lra.
  - intros x1 x2 Hx. rewrite <- !gumbel_p_formula.
    now apply (gumbel_p_monotone ppf saturated).
Qed.

End GumbelRegular.

Lemma getGumbel_regular_values_witness :
  (fst (getGumbel (RealOps (fun x => x) (fun _ => false)) 0 1 [0; 1])
   = map (fun x => 1 - exp (- exp (- ((x - dblMode (RealOps (fun x => x) (fun _ => false)) 0 1)
                                     / dblBeta (RealOps (fun x => x) (fun _ => false)) 1))))
         [0; 1] /\
   Forall (fun p => 0 < p < 1)
          (fst (getGumbel (RealOps (fun x => x) (fun _ => false)) 0 1 [0; 1])) /\
   dblMode (RealOps (fun x => x) (fun _ => false)) 0 1 < 0 /\
   (forall x1 x2, x1 < x2 ->
      1 - exp (- exp (- ((x2 - dblMode (RealOps (fun x => x) (fun _ => false)) 0 1)
                         / dblBeta (RealOps (fun x => x) (fun _ => false)) 1)))
      < 1 - exp (- exp (- ((x1 - dblMode (RealOps (fun x => x) (fun _ => false)) 0 1)
                           / dblBeta (RealOps (fun x => x) (fun _ => false)) 1)))))%R.
Proof.
  apply (getGumbel_regular_values (fun x => x) (fun _ => false) 0%R 1%R [0%R; 1%R]).
  - exact Rlt_0_1.
  - repeat constructor.
Defined.

(** The four statements above at five spikes, two events one second apart,
    a window of one second and two resamplings. *)
Lemma calcZetaOne_resampling_count_witness :
  exists dZ draws',
    calcZetaOne ext_none ext_none ext_none NaN identity_permutation
      [0; 1 # 4; 1 # 2; 3 # 4; 2] (Arr1 [0; 1]) 1 2 true (1 # 2) false false 0
      = Ret (dZ, draws') /\
    match cellRandTime dZ, cellRandDeviation dZ with
    | None, None => draws' = 0%nat
    | Some ts, Some ds =>
        draws' = (0 + 2)%nat /\
        length ts = 2%nat /\ length ds = 2%nat /\
        Forall2 (fun t d => length t = length d /\ StronglySorted Qlt t) ts ds
    | _, _ => False
    end.
Proof.
  eexists. eexists. split; [vm_compute; reflexivity|].
  apply (calcZetaOne_resampling_count ext_none ext_none ext_none NaN
           identity_permutation [0; 1 # 4; 1 # 2; 3 # 4; 2] (Arr1 [0; 1])
           1 2 true (1 # 2) false false 0).
  vm_compute. reflexivity.
Defined.

Lemma calcZetaOne_peak_index_witness :
  exists dZ draws' dev,
    calcZetaOne ext_none ext_none ext_none NaN identity_permutation
      [0; 1 # 4; 1 # 2; 3 # 4; 2] (Arr1 [0; 1]) 1 2 true (1 # 2) false false 0
      = Ret (dZ, draws') /\
    vecRealDeviation dZ = Some dev /\
    exists i d,
      intZETAIdx dZ = Some i /\ nth_error dev i = Some d /\
      (forall j x, nth_error dev j = Some x -> Qabs x <= Qabs d) /\
      (forall j x, (j < i)%nat -> nth_error dev j = Some x -> Qabs x < Qabs d).
Proof.
  eexists. eexists. eexists. split; [vm_compute; reflexivity|].
  split; [reflexivity|].
  eapply (calcZetaOne_peak_index ext_none ext_none ext_none NaN
            identity_permutation [0; 1 # 4; 1 # 2; 3 # 4; 2] (Arr1 [0; 1])
            1 2 true (1 # 2) false false 0).
  - vm_compute. reflexivity.
  - reflexivity.
Defined.

Lemma calcZetaOne_real_curve_witness :
  exists dZ draws' dev,
    calcZetaOne ext_none ext_none ext_none NaN identity_permutation
      [0; 1 # 4; 1 # 2; 3 # 4; 2] (Arr1 [0; 1]) 1 2 true (1 # 2) false false 0
      = Ret (dZ, draws') /\
    vecRealDeviation dZ = Some dev /\
    exists t fr lin,
      vecSpikeT dZ = Some t /\ vecRealFrac dZ = Some fr /\
      vecRealFracLinear dZ = Some lin /\
      (3 <= length dev)%nat /\
      length t = length dev /\ length fr = length dev /\ length lin = length dev /\
      StronglySorted Qlt t /\
      (forall i f l, nth_error fr i = Some f -> nth_error lin i = Some l ->
         exists x, nth_error dev i = Some x /\
                   x == f - l - np_mean (vsub fr lin)).
Proof.
  eexists. eexists. eexists. split; [vm_compute; reflexivity|].
  split; [reflexivity|].
  eapply (calcZetaOne_real_curve ext_none ext_none ext_none NaN
            identity_permutation [0; 1 # 4; 1 # 2; 3 # 4; 2] (Arr1 [0; 1])
            1 2 true (1 # 2) false false 0).
  - vm_compute. reflexivity.
  - reflexivity.
Defined.

Lemma calcZetaOne_quantile_resolution_witness :
  exists dZ draws',
    calcZetaOne ext_none ext_none ext_none NaN identity_permutation
      [0; 1 # 4; 1 # 2; 3 # 4; 2] (Arr1 [0; 1]) 1 2 true (1 # 2) false false 0
      = Ret (dZ, draws') /\
    exists p, dblZetaP dZ = Scalar (Num p) /\
              1 / (inject_nat 2 + 1) <= p /\ p <= 1.
Proof.
  eexists. eexists. split; [vm_compute; reflexivity|].
  eapply (calcZetaOne_quantile_resolution ext_none ext_none ext_none NaN
            identity_permutation [0; 1 # 4; 1 # 2; 3 # 4; 2] (Arr1 [0; 1])
            1 2 (1 # 2) false false 0).
  vm_compute. reflexivity.
Defined.

(** ** getPseudoSpikeVectors: the spikes of every window are kept *)

Lemma last_seq (a len : nat) : (1 <= len)%nat -> last (seq a len) 0%nat = (a + len - 1)%nat.
Proof.
  intro H. destruct len as [|len]; [lia|].
  rewrite seq_S, last_last. lia.
Qed.

Lemma filter_seq_lt (a len n : nat) :
  (a + len <= n)%nat -> filter (fun i => (i <? n)%nat) (seq a len) = seq a len.
Proof.
  intro H. apply filter_all. apply Forall_forall. intros i Hi.
  apply in_seq in Hi. apply Nat.ltb_lt. lia.
Qed.

(** The eligible samples of a trial with a spike at or after its onset: a
    run of consecutive indices that starts at the first such spike. *)
Lemma eligible_samples_range (S : list Q) (e W : Q) :
  0 <= W -> (exists s, In s S /\ e <= s) ->
  exists start len,
    eligible_samples S e W = Ints (seq start len) /\
    (1 <= len)%nat /\ (start + len <= length S)%nat /\
    findfirst (map (fun s => Qle_bool e s) S) = Some start /\
    (forall en, findfirst (map (fun s => Qltb (e + W) s) S) = Some en ->
                (start + len = en + 1)%nat).
Proof.
  intros HW (s & Hs & Hes). unfold eligible_samples.
  destruct (findfirst_exists (map (fun s => Qle_bool e s) S)) as (s0 & Hs0).
  { apply in_map_iff. exists s. split; [now apply Qle_bool_iff | exact Hs]. }
  rewrite Hs0. pose proof (findfirst_lt _ _ Hs0) as Hlt. rewrite length_map in Hlt.
  destruct (findfirst (map (fun s1 => Qltb (e + W) s1) S)) as [e0|] eqn:He0.
  - assert (Hle : (s0 <= e0)%nat).
    { eapply (findfirst_map_le (fun s => Qle_bool e s) (fun s1 => Qltb (e + W) s1));
        [|exact Hs0 | exact He0].
      intros x Hx. apply Qltb_lt in Hx. apply Qle_bool_iff. lra. }
    pose proof (findfirst_lt _ _ He0) as Hlt0. rewrite length_map in Hlt0.
    destruct (e0 <? s0)%nat eqn:El; [apply Nat.ltb_lt in El; lia|].
    exists s0, (e0 + 1 - s0)%nat. unfold np_arange.
    rewrite filter_seq_lt by lia.
    split; [reflexivity|]. split; [lia|]. split; [lia|]. split; [reflexivity|].
    intros en Hen. injection Hen as <-. lia.
  - exists s0, 1%nat. unfold np_arange.
    replace (s0 + 1 - s0)%nat with 1%nat by lia.
    rewrite filter_seq_lt by lia.
    split; [reflexivity|]. split; [lia|]. split; [lia|]. split; [reflexivity|].
    intros en Hen. discriminate.
Qed.

(** What one iteration of the loop over the trials leaves behind, for a
    trial with a spike at or after its onset: the samples used are a run
    [a .. a+len-1] of consecutive indices that holds the eligible samples,
    without those up to the last used sample when the trial overlaps its
    predecessor. *)
Lemma stitch_trial_result (S evs : list Q) (W : Q) (disc : bool)
    (i : nat) (e : Q) (st : stitch) :
  0 <= W -> (exists s, In s S /\ e <= s) -> (i - 1 < length evs)%nat ->
  exists a len start used pe first t0,
    (1 <= len)%nat /\ (a + len <= length S)%nat /\
    findfirst (map (fun s => Qle_bool e s) S) = Some start /\
    (a <= start < a + len)%nat /\ (i <> 0%nat -> a = start) /\
    (forall en, findfirst (map (fun s => Qltb (e + W) s) S) = Some en ->
                (en < a + len)%nat) /\
    (i = 0%nat -> used = seq a len /\ pe = 0) /\
    (forall prev, i <> 0%nat -> nth_error evs (i - 1) = Some prev ->
       if Qltb (e - prev) W
       then used = filter (fun k => negb (k <=? intLastUsedSample st)%nat) (seq a len) /\
            pe = dblPseudoEventT st + e - prev
       else used = seq a len /\ pe = dblPseudoEventT st + W) /\
    stitch_trial S evs W disc i e st
    = Ret (mkStitch
             (cellPseudoSpikeT st ++ [map (fun k => nth k S 0 - e + pe) used])
             (vecPseudoEventT st ++ [pe]) pe
             (match used with [] => intLastUsedSample st | _ :: _ => last used 0%nat end)
             first t0).
Proof.
  intros HW Hs Hi. unfold stitch_trial.
  destruct (eligible_samples_range S e W HW Hs)
    as (start & len & -> & Hlen & Hn & Hstart & Hend).
  destruct len as [|len']; [lia|]. cbn [samples_list seq].
  change (start :: seq (Datatypes.S start) len') with (seq start (Datatypes.S len')).
  set (len := Datatypes.S len') in *.
  assert (Hu1 : exists a1 len1,
    (if (i =? 0)%nat && negb disc
     then Ints (np_arange 0 (last (seq start len) 0%nat + 1))
     else if (i =? length evs - 1)%nat && negb disc
          then Ints (np_arange start (length S)) else Ints (seq start len))
    = Ints (seq a1 len1) /\
    (1 <= len1)%nat /\ (a1 + len1 <= length S)%nat /\
    (a1 <= start < a1 + len1)%nat /\ (start + len <= a1 + len1)%nat /\
    (i <> 0%nat -> a1 = start)).
  { rewrite last_seq by lia. unfold np_arange.
    destruct (i =? 0)%nat eqn:Ei0; cbn [andb].
    - apply Nat.eqb_eq in Ei0. destruct (negb disc).
      + exists 0%nat, (start + len - 1 + 1 - 0)%nat. split; [reflexivity | lia].
      + destruct ((i =? length evs - 1)%nat && false).
        * exists start, (length S - start)%nat. split; [reflexivity | lia].
        * exists start, len. split; [reflexivity | lia].
    - destruct ((i =? length evs - 1)%nat && negb disc).
      + exists start, (length S - start)%nat. split; [reflexivity | lia].
      + exists start, len. split; [reflexivity | lia]. }
  destruct Hu1 as (a1 & len1 & -> & Hl1 & Hn1 & Ha1 & Hcov & Hai).
  assert (Hidx : forall u, (forall k, In k u -> In k (seq a1 len1)) ->
            take_idx S u = Ret (map (fun k => nth k S 0) u)).
  { intros u Hu. destruct (take_idx_returns S u) as (r & Hr & _).
    - apply Forall_forall. intros k Hk. apply Hu, in_seq in Hk. lia.
    - rewrite Hr. f_equal. now apply take_idx_map. }
  cbn [index_samples]. rewrite (Hidx (seq a1 len1)) by auto. cbn [bind].
  assert (Hfin : forall (u : list nat) (pe : Q),
    exists first t0,
      (let '(intLastUsedSample, vecLocalPseudoT) :=
         match samples_list (Ints u) with
         | [] => (intLastUsedSample st, [])
         | (_ :: _) as us0 =>
             (last us0 0%nat, map (fun t => t - e + pe) (map (fun k => nth k S 0) u))
         end in
       let '(intFirstSample, dblPseudoT0) :=
         match intFirstSample st, samples_list (Ints u) with
         | None, u1 :: _ => (Some u1, pe)
         | _, _ => (intFirstSample st, dblPseudoT0 st)
         end in
       Ret (mkStitch (cellPseudoSpikeT st ++ [vecLocalPseudoT])
                     (vecPseudoEventT st ++ [pe])
                     pe intLastUsedSample intFirstSample dblPseudoT0))
      = Ret (mkStitch
               (cellPseudoSpikeT st ++ [map (fun k => nth k S 0 - e + pe) u])
               (vecPseudoEventT st ++ [pe]) pe
               (match u with [] => intLastUsedSample st | _ :: _ => last u 0%nat end)
               first t0)).
  { intros u pe. cbn [samples_list]. rewrite map_map.
    destruct u as [|u1 u']; destruct (intFirstSample st);
      do 2 eexists; reflexivity. }
  exists a1, len1, start.
  destruct (i =? 0)%nat eqn:Ei.
  - apply Nat.eqb_eq in Ei. cbn [bind].
    destruct (Hfin (seq a1 len1) 0) as (first & t0 & Hres).
    exists (seq a1 len1), 0, first, t0.
    split; [exact Hl1|]. split; [exact Hn1|]. split; [exact Hstart|].
    split; [exact Ha1|]. split; [exact Hai|].
    split; [intros en Hen; specialize (Hend en Hen); lia|].
    split; [auto|]. split; [intros prev Hne; contradiction|]. exact Hres.
  - apply Nat.eqb_neq in Ei.
    destruct (getitem_returns evs (i - 1) Hi) as (prev & -> & Hprev). cbn [bind].
    destruct (Qltb (e - prev) W) eqn:Eo.
    + cbn [drop_overlap index_samples].
      rewrite (Hidx (filter (fun k => negb (k <=? intLastUsedSample st)%nat)
                            (seq a1 len1)))
        by (intros k Hk; apply filter_In in Hk; tauto).
      cbn [bind].
      destruct (Hfin (filter (fun k => negb (k <=? intLastUsedSample st)%nat)
                             (seq a1 len1))
                     (dblPseudoEventT st + e - prev)) as (first & t0 & Hres).
      exists (filter (fun k => negb (k <=? intLastUsedSample st)%nat) (seq a1 len1)),
             (dblPseudoEventT st + e - prev), first, t0.
      split; [exact Hl1|]. split; [exact Hn1|]. split; [exact Hstart|].
      split; [exact Ha1|]. split; [exact Hai|].
      split; [intros en Hen; specialize (Hend en Hen); lia|].
      split; [intro; contradiction|].
      split; [|exact Hres].
      intros prev' _ Hp. rewrite Hprev in Hp. injection Hp as <-.
      rewrite Eo. auto.
    + cbn [bind].
      destruct (Hfin (seq a1 len1) (dblPseudoEventT st + W)) as (first & t0 & Hres).
      exists (seq a1 len1), (dblPseudoEventT st + W), first, t0.
      split; [exact Hl1|]. split; [exact Hn1|]. split; [exact Hstart|].
      split; [exact Ha1|]. split; [exact Hai|].
      split; [intros en Hen; specialize (Hend en Hen); lia|].
      split; [intro; contradiction|].
      split; [|exact Hres].
      intros prev' _ Hp. rewrite Hprev in Hp. injection Hp as <-.
      rewrite Eo. auto.
Qed.

Lemma sorted_nth_le (l : list Q) : forall i j a b,
  StronglySorted Qle l -> nth_error l i = Some a -> nth_error l j = Some b ->
  (i <= j)%nat -> a <= b.
Proof.
  induction l as [|x l IH]; intros i j a b Hs Hi Hj Hij.
  - destruct i; discriminate.
  - inversion Hs as [|? ? Hs' Hx]; subst.
    destruct i as [|i], j as [|j]; simpl in Hi, Hj.
    + injection Hi as <-. injection Hj as <-. lra.
    + injection Hi as <-. rewrite Forall_forall in Hx.
      apply Hx. eapply nth_error_In; eauto.
    + lia.
    + apply (IH i j); auto. lia.
Qed.

Lemma concat_snoc_In (cells : list (list Q)) (c : list Q) (t : Q) :
  In t (concat (cells ++ [c])) <-> In t (concat cells) \/ In t c.
Proof.
  rewrite concat_app. cbn [concat]. rewrite app_nil_r. apply in_app_iff.
Qed.

(** One trial keeps the invariant, and leaves the pseudo spike time of every
    sample it uses in the arrays collected. *)
Lemma stitch_trial_keeps (S evs : list Q) (W : Q) (disc : bool)
    (i : nat) (e : Q) (st st' : stitch) :
  0 <= W -> (exists s, In s S /\ e <= s) -> (i - 1 < length evs)%nat ->
  (i <> 0%nat ->
   exists prev lo start0,
     nth_error evs (i - 1) = Some prev /\ prev <= e /\
     findfirst (map (fun s => Qle_bool prev s) S) = Some start0 /\
     (lo <= start0)%nat /\ stitch_kept S st prev lo) ->
  stitch_trial S evs W disc i e st = Ret st' ->
  (forall t, In t (concat (cellPseudoSpikeT st)) ->
             In t (concat (cellPseudoSpikeT st'))) /\
  exists a len start,
    findfirst (map (fun s => Qle_bool e s) S) = Some start /\
    (a <= start < a + len)%nat /\
    (forall en, findfirst (map (fun s => Qltb (e + W) s) S) = Some en ->
                (en < a + len)%nat) /\
    stitch_kept S st' e a /\
    (forall j s, (a <= j < a + len)%nat -> nth_error S j = Some s ->
       exists t, In t (concat (cellPseudoSpikeT st')) /\
                 t == s - e + dblPseudoEventT st').
Proof.
  intros HW Hs Hi Hprev H.
  destruct (stitch_trial_result S evs W disc i e st HW Hs Hi)
    as (a & len & start & used & pe & first & t0 & Hl & Hn & Hstart & Ha & Hai
        & Hend & H0 & Hp & Hres).
  rewrite Hres in H. injection H as <-.
  cbn [cellPseudoSpikeT dblPseudoEventT intLastUsedSample].
  split; [intros t Ht; apply concat_snoc_In; now left|].
  exists a, len, start. split; [exact Hstart|]. split; [exact Ha|].
  split; [exact Hend|].
  assert (Hnew : forall j s, In j used -> nth_error S j = Some s ->
            exists t, In t (concat (cellPseudoSpikeT st ++
                                     [map (fun k => nth k S 0 - e + pe) used])) /\
                      t == s - e + pe).
  { intros j s Hj Hsj. exists (nth j S 0 - e + pe). split.
    - apply concat_snoc_In. right. apply in_map_iff. exists j. auto.
    - rewrite (nth_error_nth _ _ 0 Hsj). reflexivity. }
  assert (Hlast : forall u, u <> [] -> In (last u 0%nat) u /\
            match u with [] => intLastUsedSample st | _ :: _ => last u 0%nat end
            = last u 0%nat).
  { intros u Hu. split; [now apply last_In|]. destruct u; [congruence | reflexivity]. }
  assert (Hfull : used = seq a len ->
    stitch_kept S
      (mkStitch (cellPseudoSpikeT st ++ [map (fun k => nth k S 0 - e + pe) used])
                (vecPseudoEventT st ++ [pe]) pe
                (match used with [] => intLastUsedSample st | _ :: _ => last used 0%nat end)
                first t0) e a /\
    forall j s, (a <= j < a + len)%nat -> nth_error S j = Some s ->
      exists t, In t (concat (cellPseudoSpikeT st ++
                               [map (fun k => nth k S 0 - e + pe) used])) /\
                t == s - e + pe).
  { intro Hu. split.
    - intros j s Hj Hsj. cbn [cellPseudoSpikeT dblPseudoEventT intLastUsedSample] in *.
      apply (Hnew j); [|exact Hsj]. rewrite Hu in Hj |- *.
      destruct len as [|len']; [lia|]. cbn [seq] in Hj.
      change (a :: seq (Datatypes.S a) len') with (seq a (Datatypes.S len')) in Hj.
      rewrite last_seq in Hj by lia. apply in_seq. lia.
    - intros j s Hj Hsj. apply (Hnew j); [|exact Hsj]. rewrite Hu. apply in_seq. lia. }
  destruct (Nat.eq_dec i 0) as [Ei|Ei].
  - destruct (H0 Ei) as (Hu & _). now apply Hfull.
  - destruct (Hprev Ei) as (prev & lo & start0 & Hpn & Hpe & Hs0 & Hlo & Hk).
    specialize (Hp prev Ei Hpn). specialize (Hai Ei). subst a.
    destruct (Qltb (e - prev) W) eqn:Eo; destruct Hp as (Hu & Hpe').
    2: now apply Hfull.
    assert (Hss : (start0 <= start)%nat).
    { apply (findfirst_map_le (fun s => Qle_bool prev s) (fun s => Qle_bool e s)
               S start0 start); [|exact Hs0 | exact Hstart].
      intros x Hx. apply Qle_bool_iff in Hx. apply Qle_bool_iff. lra. }
    assert (Hold : forall j s, (start <= j <= intLastUsedSample st)%nat ->
              nth_error S j = Some s ->
              exists t, In t (concat (cellPseudoSpikeT st ++
                                       [map (fun k => nth k S 0 - e + pe) used])) /\
                        t == s - e + pe).
    { intros j s Hj Hsj. destruct (Hk j s ltac:(lia) Hsj) as (t & Ht & Et).
      exists t. split; [apply concat_snoc_In; now left|].
      rewrite Et, Hpe'. ring. }
    assert (Hin : forall j, (start <= j < start + len)%nat ->
              (intLastUsedSample st < j)%nat -> In j used).
    { intros j Hj HL. rewrite Hu. apply filter_In. split; [apply in_seq; lia|].
      apply negb_true_iff, Nat.leb_gt. exact HL. }
    split.
    + intros j s Hj Hsj.
      cbn [cellPseudoSpikeT dblPseudoEventT intLastUsedSample] in *.
      destruct (Nat.le_gt_cases j (intLastUsedSample st)) as [HL|HL].
      * apply (Hold j); [lia | exact Hsj].
      * assert (Hsub : forall k, In k used -> In k (seq start len)).
        { intros k Hin'. rewrite Hu in Hin'. apply filter_In in Hin'. tauto. }
        assert (Hne : used <> []) by (intros ->; lia).
        destruct (Hlast used Hne) as (Hlin & Hlm). rewrite Hlm in Hj.
        apply Hsub, in_seq in Hlin. apply (Hnew j); [|exact Hsj].
        apply Hin; [|exact HL]. lia.
    + intros j s Hj Hsj.
      destruct (Nat.le_gt_cases j (intLastUsedSample st)) as [HL|HL].
      * apply (Hold j); [lia | exact Hsj].
      * apply (Hnew j); [|exact Hsj]. now apply Hin.
Qed.

Lemma spike_after_dec (S : list Q) (e : Q) :
  (exists s, In s S /\ e <= s) \/ (forall s, In s S -> s < e).
Proof.
  induction S as [|s S IHS].
  - right. intros s [].
  - destruct IHS as [(s' & Hin & Hle)|Hall].
    + left. exists s'. split; [now right | exact Hle].
    + destruct (Qlt_le_dec s e) as [Hlt|Hle].
      * right. intros s' [<-|Hin]; [exact Hlt | now apply Hall].
      * left. exists s. split; [now left | exact Hle].
Qed.

Section StitchKeeps.

Variables (S evs : list Q) (W : Q) (disc : bool).
Hypothesis W_nonneg : 0 <= W.
Hypothesis evs_sorted : StronglySorted Qle evs.
Hypothesis spike_after : forall e, In e evs -> exists s, In s S /\ e <= s.

Lemma stitch_loop_keeps : forall (todo done : list Q) (prev : Q)
    (st st' : stitch) (lo start0 : nat),
  evs = done ++ prev :: todo ->
  findfirst (map (fun s => Qle_bool prev s) S) = Some start0 ->
  (lo <= start0)%nat -> stitch_kept S st prev lo ->
  stitch_loop S evs W disc (Datatypes.S (length done)) todo st = Ret st' ->
  (forall t, In t (concat (cellPseudoSpikeT st)) ->
             In t (concat (cellPseudoSpikeT st'))) /\
  forall k e p,
    nth_error todo k = Some e ->
    nth_error (pseudo_events_from W prev (dblPseudoEventT st) todo) k = Some p ->
    trial_kept S W e p st'.
Proof.
  induction todo as [|e todo IH]; intros done prev st st' lo start0 Hev Hs0 Hlo Hk H.
  - cbn [stitch_loop] in H. injection H as <-. split; [auto|].
    intros k e p Hke. destruct k; discriminate.
  - cbn [stitch_loop] in H. bind_inv H. rename a into st1.
    assert (Hprev : nth_error evs (Datatypes.S (length done) - 1) = Some prev).
    { rewrite Hev. replace (Datatypes.S (length done) - 1)%nat with (length done) by lia.
      rewrite nth_error_app2 by lia. now rewrite Nat.sub_diag. }
    assert (Hin : In e evs).
    { rewrite Hev. apply in_or_app. right. right. now left. }
    assert (Hpe : prev <= e).
    { rewrite Hev in evs_sorted. clear - evs_sorted.
      induction done as [|d done IHd].
      - cbn [app] in evs_sorted. inversion evs_sorted as [|? ? _ Hall]; subst.
        inversion Hall; assumption.
      - apply IHd. cbn [app] in evs_sorted. now inversion evs_sorted. }
    assert (Hi : (Datatypes.S (length done) - 1 < length evs)%nat).
    { apply nth_error_Some. rewrite Hprev. discriminate. }
    destruct (stitch_trial_keeps S evs W disc _ e st st1 W_nonneg
                (spike_after e Hin) Hi) as (Hgrow1 & a & len & start & Hst & Ha
                                            & Hend & Hk1 & Hpres); [|exact E|].
    { intros _. exists prev, lo, start0. auto. }
    destruct (stitch_trial_events _ _ _ _ _ _ _ _ E) as (_ & _ & Hev1).
    specialize (Hev1 prev ltac:(discriminate) Hprev).
    destruct (IH (done ++ [prev]) e st1 st' a start) as (Hgrow2 & Hrest).
    + rewrite <- app_assoc. exact Hev.
    + exact Hst.
    + lia.
    + exact Hk1.
    + rewrite length_app, Nat.add_1_r. exact H.
    + split; [auto|]. intros k e' p Hke Hkp. destruct k as [|k].
      * cbn [nth_error pseudo_events_from] in Hke, Hkp.
        injection Hke as <-. injection Hkp as <-.
        exists a, len, start. split; [exact Hst|]. split; [exact Ha|].
        split; [exact Hend|]. intros j s Hj Hsj.
        destruct (Hpres j s Hj Hsj) as (t & Ht & Et).
        exists t. split; [auto|]. now rewrite Et, Hev1.
      * cbn [nth_error pseudo_events_from] in Hke, Hkp.
        apply (Hrest k); [exact Hke|]. now rewrite Hev1.
Qed.

Lemma stitch_loop_all_keeps (st' : stitch) :
  stitch_loop S evs W disc 0 evs (mkStitch [] [] 0 0 None 0) = Ret st' ->
  forall i e p,
    nth_error evs i = Some e -> nth_error (pseudo_events W evs) i = Some p ->
    trial_kept S W e p st'.
Proof.
  intro H.
  assert (Hcase : evs = [] \/ exists e0 rest, evs = e0 :: rest)
    by (clear; destruct evs; eauto).
  destruct Hcase as [Eev|(e0 & rest & Eev)].
  { intros i e p Hi. rewrite Eev in Hi. destruct i; discriminate. }
  assert (H' : stitch_loop S evs W disc 0 (e0 :: rest) (mkStitch [] [] 0 0 None 0)
               = Ret st') by (rewrite <- Eev; exact H).
  clear H. rename H' into H. cbn [stitch_loop] in H.
  bind_inv H. rename a into st1.
  assert (Hin : In e0 evs) by (rewrite Eev; now left).
  destruct (stitch_trial_keeps S evs W disc 0 e0 (mkStitch [] [] 0 0 None 0) st1
              W_nonneg
              (spike_after e0 Hin)) as (_ & a & len & start & Hst & Ha
                                        & Hend & Hk1 & Hpres);
    [rewrite Eev; simpl; lia | intro Hc; congruence | exact E|].
  destruct (stitch_trial_events _ _ _ _ _ _ _ _ E) as (_ & H0 & _).
  specialize (H0 eq_refl).
  destruct (stitch_loop_keeps rest [] e0 st1 st' a start) as (Hgrow & Hrest);
    [exact Eev | exact Hst | lia | exact Hk1 | exact H|].
  intros i e p Hie Hip. rewrite Eev in Hie, Hip. destruct i as [|i].
  - cbn [nth_error pseudo_events] in Hie, Hip.
    injection Hie as <-. injection Hip as <-.
    exists a, len, start. split; [exact Hst|]. split; [exact Ha|].
    split; [exact Hend|]. intros j s Hj Hsj.
    destruct (Hpres j s Hj Hsj) as (t & Ht & Et).
    exists t. split; [auto|]. now rewrite Et, H0.
  - cbn [nth_error pseudo_events] in Hie, Hip.
    apply (Hrest i); [exact Hie|]. now rewrite H0.
Qed.

End StitchKeeps.

Lemma add_beginning_grows (S : list Q) (disc : bool) (st : stitch)
    (cell : list (list Q)) (t : Q) :
  add_beginning S disc st = Ret cell ->
  In t (concat (cellPseudoSpikeT st)) -> In t (concat cell).
Proof.
  unfold add_beginning. intros H Ht.
  destruct (intFirstSample st) as [f|]; [|now injection H as <-].
  destruct (negb disc && (0 <? f)%nat); [|now injection H as <-].
  do 6 bind_inv H. injection H as <-. apply concat_snoc_In. now left.
Qed.

Lemma add_end_grows (S evs : list Q) (W : Q) (disc : bool) (st : stitch)
    (cell cell' : list (list Q)) (t : Q) :
  add_end S evs W disc st cell = Ret cell' ->
  In t (concat cell) -> In t (concat cell').
Proof.
  unfold add_end. intros H Ht. bind_inv H.
  destruct (findfirst _) as [k|]; [|now injection H as <-].
  destruct (negb disc && (k <? length S - 1)%nat); [|now injection H as <-].
  bind_inv H. injection H as <-. apply concat_snoc_In. now left.
Qed.

(** X17.  Stitching keeps the spikes of every window at their time after
    the event: when [getPseudoSpikeVectors] returns (window not negative),
    for every event [e] with pseudo event time [p] and every spike [s] with
    [e <= s <= e + dblWindowDur], provided some spike lies after that
    window, the pseudo spike times hold [s - e + p]. *)
Theorem getPseudoSpikeVectors_keeps_window_spikes
    (vecSpikeTimes vecEventTimes : list Q) (dblWindowDur : Q)
    (boolDiscardEdges : bool) (ps pe : list Q) :
  0 <= dblWindowDur ->
  getPseudoSpikeVectors vecSpikeTimes vecEventTimes dblWindowDur boolDiscardEdges
    = Ret (ps, pe) ->
  forall i e p s,
    nth_error (np_sort vecEventTimes) i = Some e ->
    nth_error pe i = Some p ->
    In s vecSpikeTimes -> e <= s -> s <= e + dblWindowDur ->
    (exists s', In s' vecSpikeTimes /\ e + dblWindowDur < s') ->
    exists t, In t ps /\ t == s - e + p.
Proof.
  intros HW H i e p s Hie Hip Hs Hes Hsw (s' & Hs' & Hafter).
  pose proof (getPseudoSpikeVectors_events _ _ _ _ _ _ H) as Hpe.
  unfold getPseudoSpikeVectors in H.
  bind_inv H. rename a into st. bind_inv H. bind_inv H. injection H as <- _.
  set (S := np_sort vecSpikeTimes) in *. set (E' := np_sort vecEventTimes) in *.
  assert (Hspike : forall e0, In e0 E' -> exists s0, In s0 S /\ e0 <= s0).
  { intros e0 He0. destruct (spike_after_dec S e0) as [Hex|Hall]; [exact Hex|].
    exfalso.
    rewrite (stitch_loop_index_error S E' dblWindowDur boolDiscardEdges HW E' 0%nat)
      in E; [discriminate | simpl; lia | intros f Hf; discriminate|].
    exists e0. split; assumption. }
  rewrite Hpe in Hip.
  destruct (stitch_loop_all_keeps S E' dblWindowDur boolDiscardEdges HW
              (np_sort_sorted vecEventTimes) Hspike st E i e p Hie Hip)
    as (lo & len & start & Hstart & Ha & Hend & Hpres).
  assert (HsS : In s S) by now apply np_sort_In.
  destruct (In_nth_error _ _ HsS) as (j & Hj).
  assert (Hsj : (start <= j)%nat).
  { apply (findfirst_min _ _ _ Hstart). rewrite nth_error_map, Hj.
    cbn [option_map]. f_equal. now apply Qle_bool_iff. }
  destruct (findfirst_exists (map (fun x => Qltb (e + dblWindowDur) x) S))
    as (en & Hen).
  { apply in_map_iff. exists s'. split; [now apply Qltb_lt | now apply np_sort_In]. }
  assert (Hjen : (j < en)%nat).
  { destruct (Nat.lt_ge_cases j en) as [Hlt|Hge]; [exact Hlt|]. exfalso.
    pose proof (findfirst_true _ _ Hen) as Ht. rewrite nth_error_map in Ht.
    destruct (nth_error S en) as [x|] eqn:Ex; [|discriminate].
    cbn [option_map] in Ht. injection Ht as Ht. apply Qltb_lt in Ht.
    pose proof (sorted_nth_le S en j x s (np_sort_sorted vecSpikeTimes) Ex Hj Hge).
    lra. }
  specialize (Hend en Hen).
  destruct (Hpres j s ltac:(lia) Hj) as (t & Ht & Et).
  exists t. split; [|exact Et].
  apply np_sort_In. unfold flatten.
  eapply add_end_grows; [exact E1|]. eapply add_beginning_grows; [exact E0|].
  exact Ht.
Qed.

Lemma getPseudoSpikeVectors_keeps_window_spikes_witness :
  exists t, In t [1 # 2; 3 # 2; 3 # 2; 3] /\ t == (21 # 2) - 10 + 1.
Proof.
  apply (getPseudoSpikeVectors_keeps_window_spikes
           [1 # 2; 3 # 2; 5 # 2; 21 # 2; 12] [0; 10] 1 false
           [1 # 2; 3 # 2; 3 # 2; 3] [0; 1] ltac:(discriminate)
           ltac:(vm_compute; reflexivity) 1%nat 10 1 (21 # 2)).
  - reflexivity.
  - reflexivity.
  - simpl. tauto.
  - discriminate.
  - discriminate.
  - exists 12. split; [simpl; tauto | reflexivity].
Defined.

(** ** A common shift of the spike and event times changes nothing *)

Lemma Qle_bool_comp (a b c d : Q) : a == b -> c == d -> Qle_bool a c = Qle_bool b d.
Proof.
  intros H1 H2.
  destruct (Qle_bool a c) eqn:E1, (Qle_bool b d) eqn:E2; try reflexivity.
  - apply Qle_bool_iff in E1. apply Qle_bool_false in E2. exfalso. lra.
  - apply Qle_bool_iff in E2. apply Qle_bool_false in E1. exfalso. lra.
Qed.

Lemma Qeq_bool_comp (a b c d : Q) : a == b -> c == d -> Qeq_bool a c = Qeq_bool b d.
Proof.
  intros H1 H2.
  destruct (Qeq_bool a c) eqn:E1, (Qeq_bool b d) eqn:E2; try reflexivity.
  - apply Qeq_bool_iff in E1. apply Qeq_bool_neq in E2. exfalso. apply E2.
    now rewrite <- H1, <- H2.
  - apply Qeq_bool_iff in E2. apply Qeq_bool_neq in E1. exfalso. apply E1.
    now rewrite H1, H2.
Qed.

Section SortCongruence.

Context {A : Type} (key : A -> Q) (R : A -> A -> Prop).
Hypothesis R_key : forall a b, R a b -> key a == key b.

Lemma insert_by_congr (x x' : A) (l l' : list A) :
  R x x' -> Forall2 R l l' ->
  Forall2 R (insert_by key x l) (insert_by key x' l').
Proof.
  intros Hx Hl. induction Hl as [|y y' l l' Hy Hl IH]; simpl.
  - constructor; [exact Hx | constructor].
  - rewrite (Qle_bool_comp (key x) (key x') (key y) (key y'))
      by (apply R_key; assumption).
    destruct (Qle_bool (key x') (key y')).
    + constructor; [exact Hx|]. constructor; assumption.
    + constructor; assumption.
Qed.

Lemma sort_by_congr (l l' : list A) :
  Forall2 R l l' -> Forall2 R (sort_by key l) (sort_by key l').
Proof.
  induction 1 as [|x x' l l' Hx _ IH]; simpl; [constructor|].
  now apply insert_by_congr.
Qed.

End SortCongruence.

Lemma np_sort_congr (l l' : list Q) :
  Forall2 Qeq l l' -> Forall2 Qeq (np_sort l) (np_sort l').
Proof. apply (sort_by_congr (fun x : Q => x) Qeq). auto. Qed.

Lemma combine_congr (l l' : list Q) :
  Forall2 Qeq l l' -> forall idx,
  Forall2 same_entry (combine l idx) (combine l' idx).
Proof.
  induction 1 as [|x x' l l' Hx _ IH]; intro idx; simpl; [constructor|].
  destruct idx as [|i idx]; [constructor|].
  constructor; [split; [exact Hx | reflexivity] | apply IH].
Qed.

Lemma uniq_from_congr (l l' : list (Q * nat)) :
  Forall2 same_entry l l' -> forall prev prev', prev == prev' ->
  Forall2 same_entry (uniq_from prev l) (uniq_from prev' l').
Proof.
  induction 1 as [|[v i] [v' i'] l l' [Hv Hi] _ IH]; intros prev prev' Hp; simpl;
    [constructor|].
  cbn [fst snd] in Hv, Hi.
  rewrite (Qeq_bool_comp prev prev' v v' Hp Hv).
  destruct (Qeq_bool prev' v'); [now apply IH|].
  constructor; [split; assumption | now apply IH].
Qed.

Lemma np_unique_congr (l l' : list Q) :
  Forall2 Qeq l l' -> Forall2 Qeq (np_unique l) (np_unique l').
Proof.
  intro H. unfold np_unique, np_unique_index. cbn [fst].
  rewrite <- (Forall2_length H).
  pose proof (sort_by_congr fst same_entry (fun a b Hab => proj1 Hab) _ _
                (combine_congr l l' H (seq 0 (length l)))) as Hs.
  assert (Hu : Forall2 same_entry
                 (uniq_first (sort_by fst (combine l (seq 0 (length l)))))
                 (uniq_first (sort_by fst (combine l' (seq 0 (length l)))))).
  { destruct Hs as [|[v i] [v' i'] r r' [Hv Hi] Hr]; [constructor|].
    cbn [uniq_first]. constructor; [split; assumption|].
    now apply uniq_from_congr. }
  clear - Hu. induction Hu as [|p p' r r' [Hp _] _ IH]; simpl; constructor; auto.
Qed.

Lemma dup_values_from_congr (l l' : list Q) :
  Forall2 Qeq l l' -> forall cur cur' cnt, cur == cur' ->
  Forall2 Qeq (dup_values_from cur cnt l) (dup_values_from cur' cnt l').
Proof.
  induction 1 as [|x x' l l' Hx _ IH]; intros cur cur' cnt Hc;
    cbn [dup_values_from]; [constructor|].
  rewrite (Qeq_bool_comp cur cur' x x' Hc Hx).
  destruct (Qeq_bool cur' x'); [now apply IH|].
  apply Forall2_app; [|now apply IH].
  destruct (2 <=? cnt)%nat; constructor; [exact Hc | constructor].
Qed.

Lemma dup_values_congr (l l' : list Q) :
  Forall2 Qeq l l' -> Forall2 Qeq (dup_values l) (dup_values l').
Proof.
  intro H. destruct H as [|x x' l l' Hx Hl]; simpl; [constructor|].
  now apply dup_values_from_congr.
Qed.

Lemma jitter_masked_congr (k : nat) (x x' : Q) (v v' : list Q) :
  x == x' -> Forall2 Qeq v v' -> forall j,
  Forall2 Qeq (jitter_masked k j x v) (jitter_masked k j x' v').
Proof.
  intros Hx Hv. induction Hv as [|a a' v v' Ha _ IH]; intro j; simpl; [constructor|].
  rewrite (Qeq_bool_comp x x' a a' Hx Ha).
  destruct (Qeq_bool x' a'); constructor; try apply IH; [|exact Ha].
  now rewrite Ha.
Qed.

Lemma count_eq_congr (x x' : Q) (v v' : list Q) :
  x == x' -> Forall2 Qeq v v' ->
  length (filter (Qeq_bool x) v) = length (filter (Qeq_bool x') v').
Proof.
  intros Hx Hv. induction Hv as [|a a' v v' Ha _ IH]; simpl; [reflexivity|].
  rewrite (Qeq_bool_comp x x' a a' Hx Ha).
  destruct (Qeq_bool x' a'); simpl; now rewrite IH.
Qed.

Lemma jitter_group_congr (x x' : Q) (v v' : list Q) :
  x == x' -> Forall2 Qeq v v' ->
  Forall2 Qeq (jitter_group v x) (jitter_group v' x').
Proof.
  intros Hx Hv. unfold jitter_group.
  rewrite (count_eq_congr x x' v v' Hx Hv). now apply jitter_masked_congr.
Qed.

Lemma fold_jitter_congr (L L' : list Q) :
  Forall2 Qeq L L' -> forall v v', Forall2 Qeq v v' ->
  Forall2 Qeq (fold_left jitter_group L v) (fold_left jitter_group L' v').
Proof.
  induction 1 as [|x x' L L' Hx _ IH]; intros v v' Hv; simpl; [exact Hv|].
  apply IH. now apply jitter_group_congr.
Qed.

Lemma Qsum_congr (l l' : list Q) : Forall2 Qeq l l' -> Qsum l == Qsum l'.
Proof.
  induction 1 as [|x x' l l' Hx _ IH]; simpl; [reflexivity|].
  fold (Qsum l). fold (Qsum l'). now rewrite Hx, IH.
Qed.

Lemma map_minus_congr (m m' : Q) (l l' : list Q) :
  m == m' -> Forall2 Qeq l l' ->
  Forall2 Qeq (map (fun x => x - m) l) (map (fun x => x - m') l').
Proof.
  intros Hm H. induction H as [|x x' l l' Hx _ IH]; cbn [map]; constructor.
  - now rewrite Hx, Hm.
  - exact IH.
Qed.

Lemma center_congr (l l' : list Q) :
  Forall2 Qeq l l' -> Forall2 Qeq (center l) (center l').
Proof.
  intro H. unfold center. apply map_minus_congr; [|exact H].
  unfold np_mean. rewrite (Qsum_congr l l' H), (Forall2_length H). reflexivity.
Qed.

Lemma vsub_congr (a b b' : list Q) :
  Forall2 Qeq b b' -> Forall2 Qeq (vsub a b) (vsub a b').
Proof.
  intro H. revert a. induction H as [|x x' b b' Hx _ IH]; intro a.
  - destruct a; constructor.
  - destruct a as [|y a]; [constructor|]. unfold vsub. simpl. constructor.
    + now rewrite Hx.
    + apply IH.
Qed.

Lemma Qltb_shift (a a' b b' : Q) : a' - a == b' - b -> Qltb a' b' = Qltb a b.
Proof.
  intro H. destruct (Qltb a b) eqn:E.
  - apply Qltb_lt in E. apply Qltb_lt. lra.
  - apply Qltb_ge in E. apply Qltb_ge. lra.
Qed.

Lemma trial_spikes_shift (c : Q) (sp : list Q) (W e : Q) :
  Forall2 Qeq (trial_spikes (map (Qplus c) sp) W (c + e)) (trial_spikes sp W e).
Proof.
  unfold trial_spikes. induction sp as [|s sp IH]; simpl; [constructor|].
  rewrite (Qltb_shift s (c + s) (e + W) (c + e + W)) by ring.
  rewrite (Qltb_shift e (c + e) s (c + s)) by ring.
  destruct (Qltb s (e + W) && Qltb e s); [|exact IH].
  simpl. constructor; [ring | exact IH].
Qed.

Lemma flat_map_trial_shift (c : Q) (sp : list Q) (W : Q) (evs : list Q) :
  Forall2 Qeq (flat_map (trial_spikes (map (Qplus c) sp) W) (map (Qplus c) evs))
              (flat_map (trial_spikes sp W) evs).
Proof.
  induction evs as [|e evs IH]; simpl; [constructor|].
  apply Forall2_app; [apply trial_spikes_shift | exact IH].
Qed.

Lemma getSpikeT_shift (c : Q) (sp evs : list Q) (W : Q) :
  exists v v',
    getSpikeT (map (Qplus c) sp) (map (Qplus c) evs) W = Ret v' /\
    getSpikeT sp evs W = Ret v /\ Forall2 Qeq v' v.
Proof.
  do 2 eexists. split; [apply getSpikeT_spec|]. split; [apply getSpikeT_spec|].
  cbn [app]. constructor; [reflexivity|]. apply Forall2_app.
  - apply np_sort_congr, flat_map_trial_shift.
  - constructor; [reflexivity | constructor].
Qed.

Lemma unique_spike_times_fold (v : list Q) :
  StronglySorted Qle v -> v <> [] ->
  unique_spike_times v
  = Ret (np_unique (fold_left jitter_group (dup_values v) v)).
Proof.
  intros Hs Hne. rewrite (unique_spike_times_sorted v Hs Hne).
  destruct (dup_values v); reflexivity.
Qed.

(** X18.  [getTempOffsetOne] depends on the spike and event times only
    through their differences: adding one constant to every spike time and
    every event time gives (in exact arithmetic) the same four arrays. *)
Theorem getTempOffsetOne_shift_invariant (c : Q) (vecSpikeTimes vecEventTimes : list Q)
    (dblUseMaxDur : Q) :
  0 < dblUseMaxDur ->
  exists o o',
    getTempOffsetOne vecSpikeTimes vecEventTimes dblUseMaxDur = Ret o /\
    getTempOffsetOne (map (Qplus c) vecSpikeTimes) (map (Qplus c) vecEventTimes)
                     dblUseMaxDur = Ret o' /\
    Forall2 Qeq (vecThisSpikeTimes o') (vecThisSpikeTimes o) /\
    Forall2 Qeq (vecThisSpikeFracs o') (vecThisSpikeFracs o) /\
    Forall2 Qeq (vecThisFracLinear o') (vecThisFracLinear o) /\
    Forall2 Qeq (vecThisDeviation o') (vecThisDeviation o).
Proof.
  intro HW.
  destruct (getSpikeT_shift c vecSpikeTimes vecEventTimes dblUseMaxDur)
    as (v & v' & Hv' & Hv & Hvv).
  assert (Hs : StronglySorted Qle v /\ v <> []).
  { rewrite getSpikeT_spec in Hv. injection Hv as <-.
    split; [now apply getSpikeT_sorted | discriminate]. }
  assert (Hs' : StronglySorted Qle v' /\ v' <> []).
  { rewrite getSpikeT_spec in Hv'. injection Hv' as <-.
    split; [now apply getSpikeT_sorted | discriminate]. }
  destruct Hs as (Hs & Hne). destruct Hs' as (Hs' & Hne').
  pose proof (np_unique_congr _ _
                (fold_jitter_congr _ _ (dup_values_congr _ _ Hvv) _ _ Hvv)) as Hu.
  set (u := np_unique (fold_left jitter_group (dup_values v) v)) in *.
  set (u' := np_unique (fold_left jitter_group (dup_values v') v')) in *.
  assert (Hlen : length u' = length u) by apply (Forall2_length Hu).
  assert (Hn : (length u =? 0)%nat = false).
  { apply Nat.eqb_neq. intro E. apply length_zero_iff_nil in E.
    revert E. apply np_unique_nonempty. intro E. apply Hne.
    apply length_zero_iff_nil. rewrite <- (fold_jitter_length (dup_values v) v), E.
    reflexivity. }
  unfold getTempOffsetOne. rewrite Hv, Hv'. cbn [bind].
  rewrite (unique_spike_times_fold v Hs Hne), (unique_spike_times_fold v' Hs' Hne').
  cbn [bind]. fold u u'. rewrite Hlen, Hn.
  do 2 eexists. split; [reflexivity|]. split; [reflexivity|].
  cbn [vecThisSpikeTimes vecThisSpikeFracs vecThisFracLinear vecThisDeviation].
  assert (Hlin : Forall2 Qeq (map (fun t => t / dblUseMaxDur) u')
                             (map (fun t => t / dblUseMaxDur) u)).
  { clear - Hu. induction Hu as [|x x' l l' Hx _ IH]; simpl; constructor; auto.
    now rewrite Hx. }
  split; [exact Hu|]. split.
  - clear. induction (np_linspace _ _ _); constructor; [reflexivity | assumption].
  - split; [exact Hlin|]. apply center_congr, vsub_congr, Hlin.
Qed.

Lemma getTempOffsetOne_shift_invariant_witness :
  exists o o',
    getTempOffsetOne [1 # 2; 3 # 2] [0; 1] 1 = Ret o /\
    getTempOffsetOne (map (Qplus 5) [1 # 2; 3 # 2]) (map (Qplus 5) [0; 1]) 1 = Ret o' /\
    Forall2 Qeq (vecThisSpikeTimes o') (vecThisSpikeTimes o) /\
    Forall2 Qeq (vecThisSpikeFracs o') (vecThisSpikeFracs o) /\
    Forall2 Qeq (vecThisFracLinear o') (vecThisFracLinear o) /\
    Forall2 Qeq (vecThisDeviation o') (vecThisDeviation o).
Proof.
  apply (getTempOffsetOne_shift_invariant 5 [1 # 2; 3 # 2] [0; 1] 1). reflexivity.
Defined.

(** ** getZetaP: the direct-quantile p-value against the observed maximum *)

(** X19.  In direct-quantile mode, with at least one null maximum, a larger
    observed maximum never gets a larger p-value (minus infinity counts as
    the smallest value and plus infinity as the largest; NaN is not
    comparable). *)
Theorem getZetaP_quantile_nonincreasing
    (ext_exp ext_sqrt ext_ppf : dbl -> dbl) (ext_pi : dbl)
    (d1 d2 : dbl) (vecMaxRandD : list Q) :
  vecMaxRandD <> [] -> dbl_lt d1 d2 ->
  exists p1 p2 z1 z2,
    getZetaP ext_exp ext_sqrt ext_ppf ext_pi (Scalar d1) vecMaxRandD true
      = Ret (Scalar (Num p1), z1) /\
    getZetaP ext_exp ext_sqrt ext_ppf ext_pi (Scalar d2) vecMaxRandD true
      = Ret (Scalar (Num p2), z2) /\
    p2 <= p1 /\
    (d1 = NInf -> p1 == 1) /\
    (d2 = PInf ->
     p2 == 1 / (inject_nat (length (np_unique vecMaxRandD)) + 1)).
Proof.
  intros Hne Hlt.
  destruct (getZetaP_quantile_scalar ext_exp ext_sqrt ext_ppf ext_pi d1
              vecMaxRandD Hne) as (r1 & Hr1 & E1).
  destruct (getZetaP_quantile_scalar ext_exp ext_sqrt ext_ppf ext_pi d2
              vecMaxRandD Hne) as (r2 & Hr2 & E2).
  do 4 eexists. split; [exact E1|]. split; [exact E2|].
  pose proof (rank_spec_mono _ _ _ _ _ (np_unique_sorted vecMaxRandD)
                (np_unique_nonempty vecMaxRandD Hne) Hlt Hr1 Hr2) as Hr.
  set (M := inject_nat (length (np_unique vecMaxRandD))) in *.
  assert (HM : 0 <= M) by apply inject_nat_nonneg.
  split; [|split].
  - assert (H : r1 / (1 + M) <= r2 / (1 + M)).
    { apply Qdiv_le_mono; [lra | exact Hr]. }
    lra.
  - intros ->. inversion Hr1 as [|? Hrz| | | | |]; subst.
    assert (Hd : r1 / (1 + M) == 0) by (unfold Qdiv; rewrite Hrz; ring).
    lra.
  - intros ->. inversion Hr2 as [| | | |? Hrm| |]; subst. fold M in Hrm.
    assert (Hd : r2 / (1 + M) == M / (1 + M)) by (unfold Qdiv; rewrite Hrm; reflexivity).
    rewrite Hd. field. lra.
Qed.

Lemma getZetaP_quantile_nonincreasing_witness :
  exists p1 p2 z1 z2,
    getZetaP ext_none ext_none ext_none NaN (Scalar (Num 1)) [1; 1; 2] true
      = Ret (Scalar (Num p1), z1) /\
    getZetaP ext_none ext_none ext_none NaN (Scalar PInf) [1; 1; 2] true
      = Ret (Scalar (Num p2), z2) /\
    p2 <= p1 /\
    (Num 1 = NInf -> p1 == 1) /\
    (PInf = PInf -> p2 == 1 / (inject_nat (length (np_unique [1; 1; 2])) + 1)).
Proof.
  apply (getZetaP_quantile_nonincreasing ext_none ext_none ext_none NaN
           (Num 1) PInf [1; 1; 2]).
  - discriminate.
  - exact I.
Defined.

(** ** getTempOffsetOne when no spike lies in any window *)

(** X20.  When no spike lies strictly inside the window of any event (no
    spikes, no events, or all spikes elsewhere), and the window has a
    positive length, [getTempOffsetOne] returns the two-point curve: spike
    times 0 and [dblUseMaxDur], spike fractions 1/2 and 1, linear fractions
    0 and 1, deviations +1/4 and -1/4. *)
Theorem getTempOffsetOne_no_spike_in_window (vecSpikeTimes vecEventTimes : list Q)
    (dblUseMaxDur : Q) :
  0 < dblUseMaxDur ->
  (forall s e, In s vecSpikeTimes -> In e vecEventTimes ->
               ~ (e < s /\ s < e + dblUseMaxDur)) ->
  exists o,
    getTempOffsetOne vecSpikeTimes vecEventTimes dblUseMaxDur = Ret o /\
    vecThisSpikeTimes o = [0; dblUseMaxDur] /\
    Forall2 Qeq (vecThisSpikeFracs o) [1 # 2; 1] /\
    Forall2 Qeq (vecThisFracLinear o) [0; 1] /\
    Forall2 Qeq (vecThisDeviation o) [1 # 4; - (1 # 4)].
Proof.
  intros HW Hno.
  assert (E : flat_map (trial_spikes vecSpikeTimes dblUseMaxDur) vecEventTimes = []).
  { destruct (flat_map _ _) as [|t l] eqn:E; [reflexivity|]. exfalso.
    assert (Ht : In t (flat_map (trial_spikes vecSpikeTimes dblUseMaxDur)
                                vecEventTimes)) by (rewrite E; now left).
    apply in_flat_map in Ht. destruct Ht as (e & He & Ht).
    apply trial_spikes_In in Ht. destruct Ht as (s & Hs & H1 & H2 & _).
    now apply (Hno s e). }
  assert (Hv : getSpikeT vecSpikeTimes vecEventTimes dblUseMaxDur
               = Ret [0; dblUseMaxDur]).
  { rewrite getSpikeT_spec, E. reflexivity. }
  assert (Hs : StronglySorted Qlt [0; dblUseMaxDur]).
  { repeat constructor. exact HW. }
  assert (Hu : unique_spike_times [0; dblUseMaxDur] = Ret [0; dblUseMaxDur]).
  { rewrite (unique_spike_times_sorted _ (StronglySorted_lt_le _ Hs))
      by discriminate.
    cbn [dup_values]. rewrite (dup_values_from_strict _ _ Hs).
    now rewrite np_unique_strict_id. }
  unfold getTempOffsetOne. rewrite Hv. cbn [bind]. rewrite Hu.
  cbn [bind length Nat.eqb]. eexists. split; [reflexivity|].
  cbn [vecThisSpikeTimes vecThisSpikeFracs vecThisFracLinear vecThisDeviation].
  split; [reflexivity|].
  assert (HW0 : ~ dblUseMaxDur == 0) by (intro H0; rewrite H0 in HW; discriminate).
  split; [|split].
  - unfold np_linspace. cbn [seq map Nat.sub].
    constructor; [reflexivity|]. constructor; [reflexivity | constructor].
  - cbn [map]. constructor; [field; exact HW0|].
    constructor; [field; exact HW0 | constructor].
  - unfold center, vsub, np_linspace, np_mean.
    cbn [seq map Nat.sub combine fst snd length Qsum fold_right].
    change (inject_nat 2) with 2. change (inject_nat 1) with 1.
    change (inject_nat 0) with 0.
    constructor; [field; exact HW0|].
    constructor; [field; exact HW0 | constructor].
Qed.

Lemma getTempOffsetOne_no_spike_in_window_witness :
  exists o,
    getTempOffsetOne [] [0; 1] 1 = Ret o /\
    vecThisSpikeTimes o = [0; 1] /\
    Forall2 Qeq (vecThisSpikeFracs o) [1 # 2; 1] /\
    Forall2 Qeq (vecThisFracLinear o) [0; 1] /\
    Forall2 Qeq (vecThisDeviation o) [1 # 4; - (1 # 4)].
Proof.
  apply (getTempOffsetOne_no_spike_in_window [] [0; 1] 1).
  - reflexivity.
  - intros s e [].
Defined.

(** ** getZetaP: an observed maximum that equals a null maximum *)

Lemma rank_spec_at_sample (xs : list Q) (k : nat) (x a r : Q) :
  StronglySorted Qlt xs -> nth_error xs k = Some a -> x == a ->
  rank_spec xs (Num x) r -> r == inject_nat k + 1.
Proof.
  intros Hs Hk Hxa Hr.
  assert (Hin : In a xs) by (eapply nth_error_In; eauto).
  assert (Hklt : (k < length xs)%nat) by (apply nth_error_Some; congruence).
  inversion Hr as [x0 r0 Hlow Hr0| | |x0 r0 Hhigh Hr0| |x0 r0 j a0 b0 Ha0 Hb0 Hab Hr0
                   |x0 r0 a0 Ha0 Hx0 Hr0]; subst.
  - specialize (Hlow a Hin). lra.
  - specialize (Hhigh a Hin). lra.
  - assert (Hj : j = k).
    { destruct (Nat.lt_trichotomy j k) as [Hlt|[Heq|Hgt]]; [|exact Heq|].
      - exfalso.
        assert (Hba : b0 <= a).
        { destruct (Nat.eq_dec (Datatypes.S j) k) as [<-|Hne].
          - rewrite Hb0 in Hk. injection Hk as <-. lra.
          - apply Qlt_le_weak.
            apply (sorted_nth_lt xs (Datatypes.S j) k b0 a Hs Hb0 Hk). lia. }
        lra.
      - exfalso. pose proof (sorted_nth_lt xs k j a a0 Hs Hk Ha0 Hgt). lra. }
    subst j. rewrite Ha0 in Hk. injection Hk as ->.
    rewrite Hr0. setoid_replace (x - a) with 0 by lra. field.
    lra.
  - assert (Hk' : k = (length xs - 1)%nat).
    { destruct (Nat.eq_dec k (length xs - 1)) as [|Hne]; [assumption|]. exfalso.
      pose proof (sorted_nth_lt xs k (length xs - 1) a a0 Hs Hk Ha0 ltac:(lia)).
      lra. }
    rewrite Hr0, Hk'. rewrite <- inject_nat_S.
    replace (Datatypes.S (length xs - 1)) with (length xs) by lia. reflexivity.
Qed.

(** X21.  In direct-quantile mode an observed maximum equal to the [k]-th
    smallest of the [M] distinct null maxima ([k] counted from 1) gets the
    p-value [1 - k/(M+1)]. *)
Theorem getZetaP_quantile_at_null_maximum
    (ext_exp ext_sqrt ext_ppf : dbl -> dbl) (ext_pi : dbl)
    (x a : Q) (k : nat) (vecMaxRandD : list Q) :
  nth_error (np_unique vecMaxRandD) k = Some a -> x == a ->
  exists p z,
    getZetaP ext_exp ext_sqrt ext_ppf ext_pi (Scalar (Num x)) vecMaxRandD true
      = Ret (Scalar (Num p), z) /\
    p == 1 - (inject_nat k + 1)
             / (inject_nat (length (np_unique vecMaxRandD)) + 1).
Proof.
  intros Hk Hxa.
  assert (Hne : vecMaxRandD <> []).
  { intros ->. destruct k; discriminate. }
  destruct (getZetaP_quantile_scalar ext_exp ext_sqrt ext_ppf ext_pi (Num x)
              vecMaxRandD Hne) as (r & Hr & E).
  do 2 eexists. split; [exact E|].
  pose proof (rank_spec_at_sample _ _ _ _ _ (np_unique_sorted vecMaxRandD)
                Hk Hxa Hr) as Hrk.
  pose proof (inject_nat_nonneg (length (np_unique vecMaxRandD))) as HM.
  rewrite Hrk. field. lra.
Qed.

Lemma getZetaP_quantile_at_null_maximum_witness :
  exists p z,
    getZetaP ext_none ext_none ext_none NaN (Scalar (Num 2)) [1; 1; 2; 5] true
      = Ret (Scalar (Num p), z) /\
    p == 1 - (inject_nat 1 + 1)
             / (inject_nat (length (np_unique [1; 1; 2; 5])) + 1).
Proof.
  apply (getZetaP_quantile_at_null_maximum ext_none ext_none ext_none NaN
           2 2 1%nat [1; 1; 2; 5]).
  - reflexivity.
  - reflexivity.
Defined.
